(** * Cockpit: task graph, scheduler and cache, embedded from the TypeScript sources

    The development follows the layout of the repository:
    - [Resolver]     : src/core/task/resolver.ts   (task ids and references)
    - [Topological]  : src/core/task/topological.ts (Kahn order, cycle witness, levels)
    - [Cache], [Hash]: src/core/cache/store.ts and hash.ts
    - [Runner]       : src/core/executor/process.ts and runner.ts
    - [GraphBuilder] : src/core/task/resolver.ts and graph.ts
    - [Scheduler]    : src/core/executor/scheduler.ts
    - [Cleanup]      : src/commands/cleanup.ts (the id it invalidates)
    - [FullGraph]    : [getAllTasks] of resolver.ts, [buildFullTaskGraph] of graph.ts
    - [Sequential]   : [executeSequential] of scheduler.ts
    - [Engine]       : src/core/executor/engine.ts
    - [Finder]       : src/core/config/finder.ts
    - [Detector]     : src/core/workspace/detector.ts
    Each module of definitions is followed by a module of facts about it.

    JavaScript strings are modelled by [string]; a [Map<string, V>] whose
    iteration order matters is an association list in insertion order; a
    [Record<string, V>] used as a dictionary is a [gmap string V]. *)

From Stdlib Require Import ZArith Ascii String List Relations Relation_Operators.
From stdpp Require Import base tactics option list strings gmap fin_maps sorting.
From Stdlib Require Import Lia.

Open Scope string_scope.
Open Scope Z_scope.
Open Scope list_scope.

(** ** Strings as the code uses them *)

Module JsString.

(** [s.indexOf(c)] for a one-character needle; [-1] when absent. *)
Fixpoint indexOf_from (c : ascii) (s : string) (i : Z) : Z :=
  match s with
  | EmptyString => -1
  | String a r => if Ascii.eqb a c then i else indexOf_from c r (i + 1)
  end.

Definition indexOf (s : string) (c : ascii) : Z := indexOf_from c s 0.

(** [s.slice(0, n)] for [0 <= n]. *)
Fixpoint take (n : nat) (s : string) : string :=
  match n, s with
  | O, _ => EmptyString
  | S _, EmptyString => EmptyString
  | S m, String a r => String a (take m r)
  end.

(** [s.slice(n)] for [0 <= n]. *)
Fixpoint drop (n : nat) (s : string) : string :=
  match n, s with
  | O, _ => s
  | S _, EmptyString => EmptyString
  | S m, String _ r => drop m r
  end.

Definition slice_to (s : string) (n : Z) : string := take (Z.to_nat n) s.
Definition slice_from (s : string) (n : Z) : string := drop (Z.to_nat n) s.

(** Whether the character occurs in the string. *)
Fixpoint contains (c : ascii) (s : string) : bool :=
  match s with
  | EmptyString => false
  | String a r => Ascii.eqb a c || contains c r
  end.

Lemma indexOf_from_lower c s i : indexOf_from c s i = -1 \/ i <= indexOf_from c s i.
Proof.
  revert i; induction s as [|a r IH]; intros i; simpl; [now left|].
  destruct (Ascii.eqb a c); [right; lia|].
  destruct (IH (i + 1)) as [H|H]; [now left | right; lia].
Qed.

Lemma indexOf_from_shift c s i :
  0 <= i ->
  indexOf_from c s i = if Z.eqb (indexOf_from c s 0) (-1) then -1 else indexOf_from c s 0 + i.
Proof.
  revert i; induction s as [|a r IH]; intros i Hi; simpl; [reflexivity|].
  destruct (Ascii.eqb a c); simpl; [lia|].
  rewrite (IH (i + 1)) by lia. rewrite (IH (0 + 1)) by lia.
  destruct (indexOf_from_lower c r 0) as [H|H].
  - rewrite H; reflexivity.
  - destruct (Z.eqb_spec (indexOf_from c r 0) (-1)); [lia|].
    destruct (Z.eqb_spec (indexOf_from c r 0 + (0 + 1)) (-1)); lia.
Qed.

(** The first occurrence in [ws ++ c :: name] when [ws] is free of [c]. *)
Lemma indexOf_append_sep c ws name :
  contains c ws = false ->
  indexOf (ws ++ String c name) c = Z.of_nat (String.length ws).
Proof.
  unfold indexOf. induction ws as [|a r IH]; simpl; intros Hc.
  - now rewrite Ascii.eqb_refl.
  - apply orb_false_iff in Hc as [Ha Hr]. rewrite Ha.
    rewrite indexOf_from_shift by lia. rewrite (IH Hr).
    destruct (Z.eqb_spec (Z.of_nat (String.length r)) (-1)); lia.
Qed.

Lemma take_append_length ws rest : take (String.length ws) (ws ++ rest) = ws.
Proof. induction ws as [|a r IH]; simpl; [now destruct rest | now rewrite IH]. Qed.

Lemma drop_append_length ws c rest :
  drop (S (String.length ws)) (ws ++ String c rest) = rest.
Proof. induction ws as [|a r IH]; simpl; [reflexivity | exact IH]. Qed.

End JsString.

(** ** src/core/task/resolver.ts *)

Module Resolver.
Import JsString.

Definition colon : ascii := ":"%char.

(** [TaskDependency]: a raw string, or [{task, optional?}]. *)
Inductive TaskDependency :=
| DepString (ref : string)
| DepObject (task : string) (optional : option bool).

Record TaskReference := mkTaskReference {
  ref_workspaceId : string;
  ref_taskName : string;
  ref_optional : bool
}.

Definition parseTaskReference (ref : TaskDependency) (currentWorkspace : string)
  : TaskReference :=
  let refString := match ref with DepString s => s | DepObject t _ => t end in
  let optional :=
    match ref with
    | DepString _ => false
    | DepObject _ o => match o with Some b => b | None => false end
    end in
  let colonIndex := indexOf refString colon in
  if negb (Z.eqb colonIndex (-1)) then
    mkTaskReference (slice_to refString colonIndex)
                    (slice_from refString (colonIndex + 1)) optional
  else mkTaskReference currentWorkspace refString optional.

Definition createTaskId (workspaceId taskName : string) : string :=
  workspaceId ++ String colon taskName.

Definition parseTaskId (taskId : string) : string * string :=
  let colonIndex := indexOf taskId colon in
  if Z.eqb colonIndex (-1) then (EmptyString, taskId)
  else (slice_to taskId colonIndex, slice_from taskId (colonIndex + 1)).

Example parseTaskId_lint_all :
  parseTaskId (createTaskId "web" "lint:all") = ("web", "lint:all").
Proof. reflexivity. Qed.

Example parseTaskId_root : parseTaskId ":build" = ("", "build").
Proof. reflexivity. Qed.

Example parseTaskId_no_colon : parseTaskId "build" = ("", "build").
Proof. reflexivity. Qed.

(** C8 (as stated) fails when the workspace id itself holds a colon: the
    first-colon rule cuts the id inside the workspace part. *)
Lemma parseTaskId_createTaskId_colon_workspace :
  ~ (forall ws name, parseTaskId (createTaskId ws name) = (ws, name)).
Proof.
  intros H. specialize (H "a:b" "c"). vm_compute in H. discriminate H.
Qed.

(** C8 (amended): for every workspace id free of ':' and every task name
    (colons allowed), [parseTaskId (createTaskId ws name) = (ws, name)]. *)
Theorem parseTaskId_createTaskId (ws name : string) :
  contains colon ws = false ->
  parseTaskId (createTaskId ws name) = (ws, name).
Proof.
  intros Hws. unfold parseTaskId, createTaskId.
  rewrite (indexOf_append_sep colon ws name Hws).
  destruct (Z.eqb_spec (Z.of_nat (String.length ws)) (-1)) as [E|_]; [lia|].
  unfold slice_to, slice_from.
  rewrite Nat2Z.id.
  replace (Z.to_nat (Z.of_nat (String.length ws) + 1)) with (S (String.length ws)) by lia.
  now rewrite take_append_length, drop_append_length.
Qed.

Lemma parseTaskId_createTaskId_witness :
  contains colon "web" = false /\
  parseTaskId (createTaskId "web" "lint:all") = ("web", "lint:all").
Proof.
  split; [reflexivity | apply (parseTaskId_createTaskId "web" "lint:all"); reflexivity].
Defined.

End Resolver.

(** ** JavaScript containers *)

(** [Map<string, V>]: entries in insertion order, keys unique. *)
Module JsMap.

Fixpoint get {V} (m : list (string * V)) (k : string) : option V :=
match m with
| [] => None
| (k', v) :: r => if String.eqb k' k then Some v else get r k
end.

Definition has {V} (m : list (string * V)) (k : string) : bool :=
match get m k with Some _ => true | None => false end.

(** [m.set(k, v)]: an existing key keeps its place, a new one goes last. *)
Fixpoint set {V} (m : list (string * V)) (k : string) (v : V) : list (string * V) :=
match m with
| [] => [(k, v)]
| (k', v') :: r => if String.eqb k' k then (k', v) :: r else (k', v') :: set r k v
end.

Definition keys {V} (m : list (string * V)) : list string := map fst m.

Definition size {V} (m : list (string * V)) : nat := length m.

End JsMap.

(** [Set<string>]: elements in insertion order, no repetition. *)
Module JsSet.

Definition has (s : list string) (x : string) : bool := existsb (String.eqb x) s.

Definition add (s : list string) (x : string) : list string :=
if has s x then s else s ++ [x].

Definition delete (s : list string) (x : string) : list string :=
List.filter (fun y => negb (String.eqb y x)) s.

Definition of_list (l : list string) : list string := fold_left add l [].

End JsSet.

(** [Array<string>] operations used by the cycle search. *)
Module JsArray.

Fixpoint indexOf_from (l : list string) (x : string) (i : Z) : Z :=
match l with
| [] => -1
| y :: r => if String.eqb y x then i else indexOf_from r x (i + 1)
end.

Definition indexOf (l : list string) (x : string) : Z := indexOf_from l x 0.

(** [l.slice(start)]: a negative start counts from the end. *)
Definition slice (l : list string) (start : Z) : list string :=
if start <? 0 then skipn (Z.to_nat (Z.max (Z.of_nat (length l) + start) 0)) l
else skipn (Z.to_nat start) l.

End JsArray.

(** ** src/core/task/topological.ts *)

Module Topological.

(** Outcome of a function that may throw one of the errors of utils/errors;
    [OutOfFuel] is the model's own: a bounded loop ran out of steps. *)
Inductive outcome (A : Type) :=
| Ok (a : A)
| CyclicDependencyError (cycle : list string)
| TaskNotFoundError (taskRef : string) (availableTasks : option (list string))
| OutOfFuel.
Arguments Ok {A} a.
Arguments CyclicDependencyError {A} cycle.
Arguments TaskNotFoundError {A} taskRef availableTasks.
Arguments OutOfFuel {A}.

Definition bind {A B} (m : outcome A) (k : A -> outcome B) : outcome B :=
match m with
| Ok a => k a
| CyclicDependencyError cycle => CyclicDependencyError cycle
| TaskNotFoundError taskRef availableTasks => TaskNotFoundError taskRef availableTasks
| OutOfFuel => OutOfFuel
end.

Definition depmap := list (string * list string).

(** *** topologicalSort *)

(** Lines 17-20: every node starts with in-degree 0 and no dependents. *)
Definition init_maps (nodes : depmap)
  : list (string * list string) * list (string * Z) :=
fold_left (fun '(graph, inDegree) nodeId =>
             (JsMap.set graph nodeId [], JsMap.set inDegree nodeId 0))
          (JsMap.keys nodes) ([], []).

(** Lines 24-37, one dependency of [nodeId]. *)
Definition add_edge (nodes : depmap) (nodeId : string)
  (st : list (string * list string) * list (string * Z)) (dep : string) :=
let '(graph, inDegree) := st in
if negb (JsMap.has nodes dep) then (graph, inDegree)
else
  let dependents := default [] (JsMap.get graph dep) in
  (JsMap.set graph dep (dependents ++ [nodeId]),
   JsMap.set inDegree nodeId (default 0 (JsMap.get inDegree nodeId) + 1)).

(** Lines 23-38: the reverse adjacency list and the in-degrees. *)
Definition build_maps (nodes : depmap) :=
fold_left (fun st '(nodeId, deps) => fold_left (add_edge nodes nodeId) deps st)
          nodes (init_maps nodes).

(** Lines 41-46. *)
Definition initial_queue (inDegree : list (string * Z)) : list string :=
map fst (List.filter (fun '(_, degree) => degree =? 0) inDegree).

(** Lines 56-63, one dependent of the node just taken from the queue. *)
Definition relax (st : list (string * Z) * list string) (dependent : string) :=
let '(inDegree, queue) := st in
let newDegree := default 1 (JsMap.get inDegree dependent) - 1 in
(JsMap.set inDegree dependent newDegree,
 if newDegree =? 0 then queue ++ [dependent] else queue).

(** Lines 50-64: the queue loop; [None] when the fuel is spent. *)
Fixpoint kahn_loop (fuel : nat) (graph : list (string * list string))
  (inDegree : list (string * Z)) (queue result : list string) : option (list string) :=
match fuel with
| O => None
| S fuel' =>
  match queue with
  | [] => Some result
  | nodeId :: queue' =>
    let dependents := default [] (JsMap.get graph nodeId) in
    let '(inDegree', queue'') := fold_left relax dependents (inDegree, queue') in
    kahn_loop fuel' graph inDegree' queue'' (result ++ [nodeId])
  end
end.

(** *** detectCycle *)

Record dfs_state := mkDfs {
  visited : list string;
  recursionStack : list string;
  path : list string
}.

Definition dfs_result : Type := option (dfs_state * option (list string)).

(** Lines 94-109: the loop over the dependencies of the current node; [rec]
    is the recursive call [dfs(dep)]. *)
Fixpoint dfs_deps (rec : dfs_state -> string -> dfs_result) (nodes : depmap)
  (st : dfs_state) (deps : list string) : dfs_result :=
match deps with
| [] => Some (st, None)
| dep :: rest =>
  if negb (JsMap.has nodes dep) then dfs_deps rec nodes st rest
  else if negb (JsSet.has (visited st) dep) then
    match rec st dep with
    | None => None
    | Some (st', Some cycle) => Some (st', Some cycle)
    | Some (st', None) => dfs_deps rec nodes st' rest
    end
  else if JsSet.has (recursionStack st) dep then
    let cycleStart := JsArray.indexOf (path st) dep in
    Some (st, Some (JsArray.slice (path st) cycleStart ++ [dep]))
  else dfs_deps rec nodes st rest
end.

(** Lines 87-114; [None] when the fuel is spent. *)
Fixpoint dfs (fuel : nat) (nodes : depmap) (st : dfs_state) (nodeId : string)
  : dfs_result :=
match fuel with
| O => None
| S fuel' =>
  let st1 := mkDfs (JsSet.add (visited st) nodeId)
                   (JsSet.add (recursionStack st) nodeId)
                   (path st ++ [nodeId]) in
  match dfs_deps (dfs fuel' nodes) nodes st1 (default [] (JsMap.get nodes nodeId)) with
  | None => None
  | Some (st2, Some cycle) => Some (st2, Some cycle)
  | Some (st2, None) =>
    Some (mkDfs (visited st2) (JsSet.delete (recursionStack st2) nodeId)
                (removelast (path st2)), None)
  end
end.

(** Lines 116-126: try every unvisited node, else fall back to all keys. *)
Fixpoint detect_loop (fuel : nat) (nodes : depmap) (st : dfs_state)
  (ks : list string) : option (list string) :=
match ks with
| [] => Some (JsMap.keys nodes)
| nodeId :: rest =>
  if negb (JsSet.has (visited st) nodeId) then
    match dfs fuel nodes st nodeId with
    | None => None
    | Some (_, Some cycle) => Some cycle
    | Some (st', None) => detect_loop fuel nodes st' rest
    end
  else detect_loop fuel nodes st rest
end.

Definition detectCycle (nodes : depmap) : option (list string) :=
detect_loop (S (JsMap.size nodes)) nodes (mkDfs [] [] []) (JsMap.keys nodes).

Definition topologicalSort (nodes : depmap) : outcome (list string) :=
let '(graph, inDegree) := build_maps nodes in
match kahn_loop (S (JsMap.size nodes)) graph inDegree (initial_queue inDegree) [] with
| None => OutOfFuel
| Some result =>
  if negb (Nat.eqb (length result) (JsMap.size nodes)) then
    match detectCycle nodes with
    | None => OutOfFuel
    | Some cycle => CyclicDependencyError cycle
    end
  else Ok result
end.

(** *** getParallelLevels *)

(** Lines 148-150. *)
Definition allDepsCompleted (nodes : depmap) (completed : list string)
  (nodeId : string) : bool :=
forallb (fun dep => negb (JsMap.has nodes dep) || JsSet.has completed dep)
        (default [] (JsMap.get nodes nodeId)).

(** Lines 142-169; [OutOfFuel] when the fuel is spent. *)
Fixpoint levels_loop (fuel : nat) (nodes : depmap) (levels : list (list string))
  (completed remaining : list string) : outcome (list (list string)) :=
match fuel with
| O => OutOfFuel
| S fuel' =>
  if negb (0 <? length remaining)%nat then Ok levels
  else
    let currentLevel := List.filter (allDepsCompleted nodes completed) remaining in
    if Nat.eqb (length currentLevel) 0 then CyclicDependencyError remaining
    else
      let '(completed', remaining') :=
        fold_left (fun '(c, r) nodeId => (JsSet.add c nodeId, JsSet.delete r nodeId))
                  currentLevel (completed, remaining) in
      levels_loop fuel' nodes (levels ++ [currentLevel]) completed' remaining'
end.

Definition getParallelLevels (nodes : depmap) : outcome (list (list string)) :=
levels_loop (S (JsMap.size nodes)) nodes [] [] (JsSet.of_list (JsMap.keys nodes)).

(** Scenario E1 of the specification. *)
Definition e1_nodes : depmap :=
[("web:build", ["core:build"; "utils:build"]);
 ("core:build", []);
 ("utils:build", ["core:build"])].

Example e1_order :
  topologicalSort e1_nodes = Ok ["core:build"; "utils:build"; "web:build"].
Proof. vm_compute. reflexivity. Qed.

Example e1_levels :
  getParallelLevels e1_nodes = Ok [["core:build"]; ["utils:build"]; ["web:build"]].
Proof. vm_compute. reflexivity. Qed.

(** Scenario E2. *)
Example e2_cycle :
  topologicalSort [("a", ["b"]); ("b", ["a"])] = CyclicDependencyError ["a"; "b"; "a"].
Proof. vm_compute. reflexivity. Qed.

Example self_cycle :
  topologicalSort [("x", []); ("a", ["x"; "a"])] = CyclicDependencyError ["a"; "a"].
Proof. vm_compute. reflexivity. Qed.

End Topological.

(** ** Facts about the containers *)

Module JsMapFacts.
Import JsMap.

Section WithValues.
Context {V : Type}.
Implicit Types (m : list (string * V)) (k : string) (v : V).

Lemma get_set_eq m k v : get (set m k v) k = Some v.
Proof.
  induction m as [|[k' v'] r IH]; simpl.
  - now rewrite String.eqb_refl.
  - destruct (String.eqb_spec k' k) as [->|Hne]; simpl.
    + now rewrite String.eqb_refl.
    + destruct (String.eqb_spec k' k); [contradiction | exact IH].
Qed.

Lemma get_set_ne m k k' v : k <> k' -> get (set m k v) k' = get m k'.
Proof.
  intros Hne. induction m as [|[k0 v0] r IH]; simpl.
  - destruct (String.eqb_spec k k'); [contradiction | reflexivity].
  - destruct (String.eqb_spec k0 k) as [->|Hk]; simpl.
    + destruct (String.eqb_spec k k'); [contradiction | reflexivity].
    + destruct (String.eqb_spec k0 k'); [reflexivity | exact IH].
Qed.

Lemma get_Some_elem m k v : get m k = Some v -> (k, v) ∈ m.
Proof.
  induction m as [|[k' v'] r IH]; simpl; [discriminate|].
  destruct (String.eqb_spec k' k) as [->|Hne].
  - intros [= ->]. left.
  - intros H. right. auto.
Qed.

Lemma get_Some_key m k v : get m k = Some v -> k ∈ keys m.
Proof.
  intros H. apply get_Some_elem in H. unfold keys.
  apply list_elem_of_fmap. exists (k, v). auto.
Qed.

Lemma get_None_key m k : get m k = None <-> k ∉ keys m.
Proof.
  induction m as [|[k' v'] r IH]; simpl.
  - split; [intros _; apply not_elem_of_nil | reflexivity].
  - rewrite not_elem_of_cons. destruct (String.eqb_spec k' k) as [->|Hne].
    + split; [discriminate | intros [H _]; contradiction].
    + rewrite IH. split; [intros H; split; [congruence | exact H] | intros [_ H]; exact H].
Qed.

Lemma map_has_true m k : has m k = true <-> k ∈ keys m.
Proof.
  unfold has. destruct (get m k) as [v|] eqn:E.
  - split; [intros _; eapply get_Some_key; eauto | reflexivity].
  - apply get_None_key in E. split; [discriminate | contradiction].
Qed.

Lemma map_has_false m k : has m k = false <-> k ∉ keys m.
Proof.
  rewrite <- map_has_true. destruct (has m k); split; congruence.
Qed.

Lemma key_get m k : k ∈ keys m -> exists v, get m k = Some v.
Proof.
  intros H. destruct (get m k) as [v|] eqn:E; [eauto|].
  apply get_None_key in E. contradiction.
Qed.

Lemma elem_get m k v : NoDup (keys m) -> (k, v) ∈ m -> get m k = Some v.
Proof.
  induction m as [|[k' v'] r IH]; simpl; intros Hnd Hin.
  - inversion Hin.
  - apply NoDup_cons in Hnd as [Hk Hnd].
    apply elem_of_cons in Hin as [[= -> ->]|Hin].
    + now rewrite String.eqb_refl.
    + destruct (String.eqb_spec k' k) as [->|Hne]; [|auto].
      exfalso. apply Hk. apply list_elem_of_fmap. exists (k, v). auto.
Qed.

Lemma keys_set m k v :
  keys (set m k v) = if has m k then keys m else keys m ++ [k].
Proof.
  induction m as [|[k' v'] r IH]; simpl; [reflexivity|].
  unfold has; simpl. destruct (String.eqb_spec k' k) as [->|Hne]; simpl; [reflexivity|].
  rewrite IH. unfold has. destruct (get r k); reflexivity.
Qed.

End WithValues.
End JsMapFacts.

Module JsSetFacts.
Import JsSet.
Implicit Types (s l : list string) (x y : string).

Lemma set_has_true s x : has s x = true <-> x ∈ s.
Proof.
  unfold has. rewrite existsb_exists. split.
  - intros (y & Hy & E). apply String.eqb_eq in E as ->. now apply list_elem_of_In.
  - intros H. exists x. split; [now apply list_elem_of_In | apply String.eqb_refl].
Qed.

Lemma set_has_false s x : has s x = false <-> x ∉ s.
Proof. rewrite <- set_has_true. destruct (has s x); split; congruence. Qed.

Lemma elem_of_add s x y : y ∈ add s x <-> y ∈ s \/ y = x.
Proof.
  unfold add. destruct (has s x) eqn:E.
  - apply set_has_true in E. split; [auto | intros [H| ->]; assumption].
  - rewrite elem_of_app, list_elem_of_singleton. reflexivity.
Qed.

Lemma NoDup_add s x : NoDup s -> NoDup (add s x).
Proof.
  intros H. unfold add. destruct (has s x) eqn:E; [exact H|].
  apply set_has_false in E. apply NoDup_app. repeat split; [exact H | | apply NoDup_singleton].
  intros y Hy Hx. apply list_elem_of_singleton in Hx as ->. contradiction.
Qed.

Lemma elem_of_delete s x y : y ∈ delete s x <-> y ∈ s /\ y <> x.
Proof.
  unfold delete. rewrite list_elem_of_In, filter_In, <- list_elem_of_In.
  destruct (String.eqb_spec y x); simpl; intuition congruence.
Qed.

Lemma NoDup_delete s x : NoDup s -> NoDup (delete s x).
Proof.
  intros H. unfold delete. apply NoDup_ListNoDup, List.NoDup_filter.
  now apply NoDup_ListNoDup.
Qed.

Lemma length_delete s x : x ∈ s -> (length (delete s x) < length s)%nat.
Proof.
  unfold delete. induction s as [|y r IH]; intros H; [inversion H|].
  simpl. destruct (String.eqb_spec y x) as [->|Hne]; simpl.
  - pose proof (List.filter_length_le (fun y => negb (String.eqb y x)) r). lia.
  - apply elem_of_cons in H as [->|H]; [contradiction|]. specialize (IH H). lia.
Qed.

Lemma length_delete_le s x : (length (delete s x) <= length s)%nat.
Proof. apply List.filter_length_le. Qed.

Lemma fold_add_fresh l acc : NoDup (acc ++ l) -> fold_left add l acc = acc ++ l.
Proof.
  revert acc. induction l as [|x r IH]; intros acc H; simpl.
  - now rewrite app_nil_r.
  - assert (Hx : has acc x = false).
    { apply set_has_false. apply NoDup_app in H as (_ & H & _).
      intros Hin. apply (H x Hin). left. }
    unfold add at 2. rewrite Hx.
    rewrite IH; rewrite <- app_assoc; simpl; [reflexivity | exact H].
Qed.

Lemma of_list_NoDup l : NoDup l -> of_list l = l.
Proof. intros H. unfold of_list. now rewrite fold_add_fresh. Qed.

End JsSetFacts.

(** ** The dependency relation of a map: cycles, orders, levels, walks *)

Module GraphSpec.
Import JsMap Topological.

(** [u] lists [v] among its dependencies. *)
Definition dep_edge (nodes : depmap) (u v : string) : Prop :=
exists deps, get nodes u = Some deps /\ v ∈ deps.

(** The same, keeping only dependencies that are nodes of the map. *)
Definition edge_in (nodes : depmap) (u v : string) : Prop :=
dep_edge nodes u v /\ v ∈ keys nodes.

Definition cyclic (nodes : depmap) : Prop := exists x, tc (dep_edge nodes) x x.

Definition acyclic (nodes : depmap) : Prop := forall x, ~ tc (dep_edge nodes) x x.

(** Every dependency of a task that is a node precedes it in the list. *)
Definition deps_precede (nodes : depmap) (order : list string) : Prop :=
forall before v after d,
  order = before ++ v :: after -> edge_in nodes v d -> d ∈ before.

(** A topological order of the map: each node once, dependencies first. *)
Definition topological_order (nodes : depmap) (order : list string) : Prop :=
order ≡ₚ keys nodes /\ deps_precede nodes order.

(** Tasks of level [k] depend only on tasks of levels before [k]. *)
Definition levels_respect_deps (nodes : depmap) (levels : list (list string)) : Prop :=
forall earlier level later v d,
  levels = earlier ++ level :: later -> v ∈ level -> edge_in nodes v d ->
  d ∈ concat earlier.

(** The levels split the node set: every node in exactly one level, no level
    empty. *)
Definition levels_partition (nodes : depmap) (levels : list (list string)) : Prop :=
concat levels ≡ₚ keys nodes /\ Forall (fun level => level <> []) levels.

(** A closed walk along dependency edges: consecutive nodes are joined by an
    edge, and the walk ends where it started. *)
Fixpoint walk (nodes : depmap) (w : list string) : Prop :=
match w with
| [] => True
| u :: rest =>
  match rest with
  | [] => True
  | v :: _ => dep_edge nodes u v /\ walk nodes rest
  end
end.

Definition closed_walk (nodes : depmap) (w : list string) : Prop :=
(2 <= length w)%nat /\ walk nodes w /\ head w = last w.

End GraphSpec.

Module GraphFacts.
Import JsMap JsMapFacts Topological GraphSpec.

Lemma tc_sub {A} (R S : relation A) :
  (forall x y, R x y -> tc S x y) -> forall x y, tc R x y -> tc S x y.
Proof.
  intros H x y Hxy. induction Hxy as [x y Hr|x y z Hr _ IH]; [auto|].
  eapply tc_transitive; eauto.
Qed.

(** In a non-empty finite set where every element has a successor inside the
    set, some element reaches itself. *)
Lemma finite_successor_cycle {A} `{EqDecision A} (n : nat) :
  forall (R : relation A) (S : list A),
    (length S <= n)%nat -> S <> [] ->
    (forall x, x ∈ S -> exists y, y ∈ S /\ R x y) ->
    exists x, tc R x x.
Proof.
  induction n as [|n IH]; intros R S Hlen Hne Hsucc.
  - destruct S; [contradiction | simpl in Hlen; lia].
  - destruct S as [|x S0]; [contradiction|]. clear Hne.
    destruct (Hsucc x) as (z & Hz & Hxz); [left|].
    destruct (decide (z = x)) as [->|Hzx]; [exists x; now apply tc_once|].
    set (S' := filter (fun y => y <> x) S0).
    assert (HS' : forall y, y ∈ S' <-> y ∈ x :: S0 /\ y <> x).
    { intros y. unfold S'. rewrite list_elem_of_filter, elem_of_cons. intuition. }
    set (R2 := fun y w => R y w \/ (R y x /\ R x w)).
    destruct (IH R2 S') as (w & Hw).
    + unfold S'. pose proof (length_filter (fun y => y <> x) S0). simpl in Hlen. lia.
    + intros E. assert (Hin : z ∈ S') by (apply HS'; auto).
      rewrite E in Hin. inversion Hin.
    + intros y Hy. apply HS' in Hy as [Hy Hyx].
      destruct (Hsucc y Hy) as (w & Hw & Hyw).
      destruct (decide (w = x)) as [->|Hwx].
      * exists z. split; [apply HS'; auto | right; auto].
      * exists w. split; [apply HS'; auto | left; auto].
    + exists w. revert Hw. apply tc_sub. intros a b [Hab|[Hax Hxb]].
      * now apply tc_once.
      * eapply tc_l; [exact Hax | now apply tc_once].
Qed.

Lemma tc_source_edge {A} (R : relation A) x y : tc R x y -> exists z, R x z.
Proof. intros H. destruct H; eauto. Qed.

Lemma dep_edge_source nodes u v : dep_edge nodes u v -> u ∈ keys nodes.
Proof. intros (deps & H & _). eapply get_Some_key; eauto. Qed.

(** A path that ends in a node stays inside the node set. *)
Lemma tc_dep_edge_in nodes x y :
  tc (dep_edge nodes) x y -> y ∈ keys nodes -> tc (edge_in nodes) x y.
Proof.
  induction 1 as [x y Hr|x y z Hr Hyz IH]; intros Hy.
  - apply tc_once. split; assumption.
  - eapply tc_l; [|apply IH; exact Hy].
    split; [exact Hr|]. destruct (tc_source_edge _ _ _ Hyz) as (w & Hw).
    eapply dep_edge_source; eauto.
Qed.

Lemma cycle_edge_in nodes x :
  tc (dep_edge nodes) x x -> tc (edge_in nodes) x x /\ x ∈ keys nodes.
Proof.
  intros H. assert (Hx : x ∈ keys nodes).
  { destruct (tc_source_edge _ _ _ H) as (w & Hw). eapply dep_edge_source; eauto. }
  split; [now apply tc_dep_edge_in | exact Hx].
Qed.

Lemma edge_in_dep nodes x y : tc (edge_in nodes) x y -> tc (dep_edge nodes) x y.
Proof. apply tc_sub. intros a b [H _]. now apply tc_once. Qed.

(** *** Lists in which dependencies come first *)

Lemma deps_precede_nil nodes : deps_precede nodes [].
Proof. intros b v a d E. destruct b; discriminate E. Qed.

Lemma deps_precede_snoc nodes r v :
  deps_precede nodes r ->
  (forall d, edge_in nodes v d -> d ∈ r) ->
  deps_precede nodes (r ++ [v]).
Proof.
  intros Hr Hv before u after d E Hud.
  destruct after as [|a after'] using rev_ind.
  - apply app_inj_tail in E as [-> ->]. auto.
  - clear IHafter'. rewrite app_comm_cons, app_assoc in E.
    apply app_inj_tail in E as [-> _]. eapply Hr; eauto.
Qed.

Lemma deps_precede_prefix nodes r s : deps_precede nodes (r ++ s) -> deps_precede nodes r.
Proof.
  intros H before v after d E. apply (H before v (after ++ s)).
  rewrite E, <- app_assoc. reflexivity.
Qed.

Lemma deps_precede_closed nodes r x y :
  deps_precede nodes r -> x ∈ r -> edge_in nodes x y -> y ∈ r.
Proof.
  intros H Hx Hxy. apply list_elem_of_split in Hx as (b & a & ->).
  apply elem_of_app. left. eapply H; eauto.
Qed.

Lemma deps_precede_tc_closed nodes r x y :
  deps_precede nodes r -> x ∈ r -> tc (edge_in nodes) x y -> y ∈ r.
Proof.
  intros H Hx Hxy. induction Hxy as [x y Hr|x y z Hr _ IH].
  - eapply deps_precede_closed; eauto.
  - apply IH. eapply deps_precede_closed; eauto.
Qed.

(** No member of a duplicate-free dependencies-first list lies on a cycle. *)
Lemma deps_precede_no_cycle nodes r :
  NoDup r -> deps_precede nodes r -> forall x, x ∈ r -> ~ tc (edge_in nodes) x x.
Proof.
  induction r as [|v r IH] using rev_ind; intros Hnd Hr x Hx Hcyc; [inversion Hx|].
  apply NoDup_app in Hnd as (Hnd & Hdis & _).
  pose proof (deps_precede_prefix _ _ _ Hr) as Hr'.
  apply elem_of_app in Hx as [Hx|Hx]; [exact (IH Hnd Hr' x Hx Hcyc)|].
  apply list_elem_of_singleton in Hx as ->.
  assert (Hv : forall d, edge_in nodes v d -> d ∈ r).
  { intros d Hd. apply (Hr r v [] d); auto. }
  assert (Hin : v ∈ r).
  { inversion Hcyc as [? ? Hr1|? d ? Hr1 Hdv]; subst.
    - now apply Hv.
    - eapply deps_precede_tc_closed; eauto. }
  apply (Hdis v Hin). left.
Qed.

End GraphFacts.

(** ** Kahn's algorithm: the maps built before the queue loop *)

Module KahnBuild.
Import JsMap JsMapFacts Topological GraphSpec GraphFacts.

(** The dependencies of a node, [[]] when it is not a key. *)
Definition deps_of (nodes : depmap) (v : string) : list string :=
default [] (get nodes v).

(** Reading the two maps with the defaults the code uses after [??]. *)
Definition gr (st : list (string * list string) * list (string * Z)) (u : string) :=
default [] (get st.1 u).

Definition dg (st : list (string * list string) * list (string * Z)) (v : string) :=
default 0 (get st.2 v).

Definition keys_ok (nodes : depmap)
  (st : list (string * list string) * list (string * Z)) : Prop :=
keys st.1 = keys nodes /\ keys st.2 = keys nodes.

(** What one entry [(v, deps)] adds to the dependents of [u]. *)
Definition entry_dependents (nodes : depmap) (u v : string) (deps : list string) :=
flat_map (fun d => if has nodes d && String.eqb d u then [v] else []) deps.

Fixpoint dependents (nodes : depmap) (entries : depmap) (u : string) : list string :=
match entries with
| [] => []
| (v, deps) :: r => entry_dependents nodes u v deps ++ dependents nodes r u
end.

Fixpoint deg_sum (nodes : depmap) (entries : depmap) (v' : string) : Z :=
match entries with
| [] => 0
| (v, deps) :: r =>
  (if String.eqb v v' then Z.of_nat (length (List.filter (has nodes) deps)) else 0)
  + deg_sum nodes r v'
end.

Lemma add_edge_spec nodes v st d :
  v ∈ keys nodes -> keys_ok nodes st ->
  let st' := add_edge nodes v st d in
  keys_ok nodes st' /\
  (forall u, gr st' u = gr st u ++ (if has nodes d && String.eqb d u then [v] else [])) /\
  (forall v', dg st' v' = dg st v' + (if has nodes d && String.eqb v v' then 1 else 0)).
Proof.
  intros Hv [Hg Hi]. destruct st as [graph inDegree]. simpl in Hg, Hi.
  unfold add_edge. destruct (has nodes d) eqn:Hd; simpl.
  - split; [|split].
    + split; simpl; rewrite keys_set.
      * replace (has graph d) with true; [exact Hg|].
        symmetry. apply map_has_true. rewrite Hg. now apply map_has_true.
      * replace (has inDegree v) with true; [exact Hi|].
        symmetry. apply map_has_true. now rewrite Hi.
    + intros u. unfold gr; simpl. destruct (String.eqb_spec d u) as [->|Hne].
      * now rewrite get_set_eq.
      * rewrite get_set_ne by exact Hne. now rewrite app_nil_r.
    + intros v'. unfold dg; simpl. destruct (String.eqb_spec v v') as [->|Hne].
      * now rewrite get_set_eq.
      * rewrite get_set_ne by exact Hne. lia.
  - split; [split; assumption|]. split; intros; [now rewrite app_nil_r | lia].
Qed.

Lemma add_edges_spec nodes v deps : forall st,
  v ∈ keys nodes -> keys_ok nodes st ->
  let st' := fold_left (add_edge nodes v) deps st in
  keys_ok nodes st' /\
  (forall u, gr st' u = gr st u ++ entry_dependents nodes u v deps) /\
  (forall v', dg st' v' =
     dg st v' + (if String.eqb v v' then Z.of_nat (length (List.filter (has nodes) deps)) else 0)).
Proof.
  induction deps as [|d r IH]; intros st Hv Hok; simpl.
  - split; [exact Hok|]. split; intros; [now rewrite app_nil_r|].
    destruct (String.eqb v v'); lia.
  - destruct (add_edge_spec nodes v st d Hv Hok) as (Hok1 & Hg1 & Hd1).
    destruct (IH _ Hv Hok1) as (Hok2 & Hg2 & Hd2).
    split; [exact Hok2|]. split.
    + intros u. rewrite Hg2, Hg1, <- app_assoc. reflexivity.
    + intros v'. rewrite Hd2, Hd1.
      cbn [List.filter]. destruct (has nodes d), (String.eqb v v'); cbn [length andb]; lia.
Qed.

Lemma build_fold_spec nodes entries : forall st,
  (forall v deps, (v, deps) ∈ entries -> v ∈ keys nodes) -> keys_ok nodes st ->
  let st' := fold_left (fun st '(nodeId, deps) => fold_left (add_edge nodes nodeId) deps st)
                       entries st in
  keys_ok nodes st' /\
  (forall u, gr st' u = gr st u ++ dependents nodes entries u) /\
  (forall v', dg st' v' = dg st v' + deg_sum nodes entries v').
Proof.
  induction entries as [|[v deps] r IH]; intros st Hin Hok; simpl.
  - split; [exact Hok|]. split; intros; [now rewrite app_nil_r | lia].
  - assert (Hv : v ∈ keys nodes) by (apply (Hin v deps); left).
    destruct (add_edges_spec nodes v deps st Hv Hok) as (Hok1 & Hg1 & Hd1).
    destruct (IH (fold_left (add_edge nodes v) deps st)) as (Hok2 & Hg2 & Hd2);
      [intros v0 deps0 H0; apply (Hin v0 deps0); now right | exact Hok1 |].
    split; [exact Hok2|]. split.
    + intros u. rewrite Hg2, Hg1, <- app_assoc. reflexivity.
    + intros v'. rewrite Hd2, Hd1. lia.
Qed.

Lemma init_fold_spec ks : forall (st : list (string * list string) * list (string * Z)),
  NoDup (keys st.1 ++ ks) -> keys st.1 = keys st.2 ->
  (forall u, gr st u = []) -> (forall v, dg st v = 0) ->
  let st' := fold_left (fun '(graph, inDegree) nodeId =>
                          (set graph nodeId [], set inDegree nodeId 0)) ks st in
  keys st'.1 = keys st.1 ++ ks /\ keys st'.2 = keys st.1 ++ ks /\
  (forall u, gr st' u = []) /\ (forall v, dg st' v = 0).
Proof.
  induction ks as [|k r IH]; intros [graph inDegree] Hnd Hk Hg Hd; simpl in *.
  - rewrite app_nil_r. auto.
  - assert (Hfresh : k ∉ keys graph).
    { apply NoDup_app in Hnd as (_ & H & _). intros Hin. apply (H k Hin). left. }
    destruct (IH (set graph k [], set inDegree k 0)) as (H1 & H2 & H3 & H4); simpl.
    + rewrite keys_set. apply map_has_false in Hfresh. rewrite Hfresh.
      now rewrite <- app_assoc.
    + rewrite !keys_set. rewrite <- Hk in *.
      assert (E : has inDegree k = has graph k).
      { destruct (has graph k) eqn:E1.
        - apply map_has_true. rewrite <- Hk. now apply map_has_true.
        - apply map_has_false. rewrite <- Hk. now apply map_has_false. }
      rewrite E. destruct (has graph k); congruence.
    + intros u. unfold gr; simpl. destruct (String.eqb_spec k u) as [->|Hne].
      * now rewrite get_set_eq.
      * rewrite get_set_ne by exact Hne. apply Hg.
    + intros v. unfold dg; simpl. destruct (String.eqb_spec k v) as [->|Hne].
      * now rewrite get_set_eq.
      * rewrite get_set_ne by exact Hne. apply Hd.
    + simpl in *. rewrite keys_set in H1, H2.
      apply map_has_false in Hfresh. rewrite Hfresh in H1, H2.
      rewrite <- app_assoc in H1, H2. simpl in H1, H2. auto.
Qed.

Lemma init_maps_spec nodes :
  NoDup (keys nodes) ->
  keys_ok nodes (init_maps nodes) /\
  (forall u, gr (init_maps nodes) u = []) /\ (forall v, dg (init_maps nodes) v = 0).
Proof.
  intros Hnd. unfold init_maps.
  destruct (init_fold_spec (keys nodes) ([], [])) as (H1 & H2 & H3 & H4); simpl; auto.
  split; [split; assumption | split; assumption].
Qed.

End KahnBuild.

(** ** Kahn's algorithm: counting *)

Module KahnCount.
Import JsMap JsMapFacts Topological GraphSpec GraphFacts KahnBuild.

Abbreviation cnt := (count_occ string_dec).

(** Dependencies of [v] that are nodes and not yet in [result]. *)
Definition pending (nodes : depmap) (result : list string) (v : string) : nat :=
length (List.filter (fun d => has nodes d && negb (JsSet.has result d)) (deps_of nodes v)).

Lemma build_maps_spec nodes :
  NoDup (keys nodes) ->
  keys_ok nodes (build_maps nodes) /\
  (forall u, gr (build_maps nodes) u = dependents nodes nodes u) /\
  (forall v, dg (build_maps nodes) v = deg_sum nodes nodes v).
Proof.
  intros Hnd. destruct (init_maps_spec nodes Hnd) as (Hok & Hg & Hd).
  unfold build_maps.
  destruct (build_fold_spec nodes nodes (init_maps nodes)) as (Hok' & Hg' & Hd'); [|exact Hok|].
  - intros v deps H. apply list_elem_of_fmap. now exists (v, deps).
  - split; [exact Hok'|]. split.
    + intros u. now rewrite Hg', Hg.
    + intros v. now rewrite Hd', Hd.
Qed.

Lemma deg_sum_get nodes entries v :
  NoDup (keys entries) ->
  deg_sum nodes entries v =
  Z.of_nat (length (List.filter (has nodes) (default [] (get entries v)))).
Proof.
  induction entries as [|[v0 deps0] r IH]; simpl; intros Hnd; [reflexivity|].
  apply NoDup_cons in Hnd as [Hv0 Hnd]. rewrite (IH Hnd).
  destruct (String.eqb_spec v0 v) as [->|Hne]; simpl; [|lia].
  apply get_None_key in Hv0. rewrite Hv0. simpl. lia.
Qed.

Lemma cnt_entry_dependents nodes u v0 deps v :
  cnt (entry_dependents nodes u v0 deps) v =
  if String.eqb v0 v && has nodes u then cnt deps u else 0%nat.
Proof.
  unfold entry_dependents. induction deps as [|d r IH]; simpl.
  - now destruct (String.eqb v0 v && has nodes u).
  - rewrite count_occ_app, IH. clear IH. cbn [count_occ].
    destruct (String.eqb_spec d u) as [E1|E1], (has nodes d) eqn:E2,
             (String.eqb_spec v0 v) as [E3|E3], (has nodes u) eqn:E4,
             (string_dec d u) as [E5|E5];
      cbn [andb count_occ]; try congruence;
      destruct (string_dec v0 v); try congruence; lia.
Qed.

Lemma cnt_dependents nodes entries u v :
  NoDup (keys entries) ->
  cnt (dependents nodes entries u) v =
  if has nodes u then cnt (default [] (get entries v)) u else 0%nat.
Proof.
  induction entries as [|[v0 deps0] r IH]; simpl; intros Hnd.
  - now destruct (has nodes u).
  - apply NoDup_cons in Hnd as [Hv0 Hnd].
    rewrite count_occ_app, cnt_entry_dependents, (IH Hnd).
    destruct (String.eqb_spec v0 v) as [->|Hne]; simpl.
    + apply get_None_key in Hv0. rewrite Hv0. simpl.
      destruct (has nodes u); lia.
    + reflexivity.
Qed.

Lemma dependents_keys nodes entries u x :
  (forall v deps, (v, deps) ∈ entries -> v ∈ keys nodes) ->
  x ∈ dependents nodes entries u -> x ∈ keys nodes.
Proof.
  induction entries as [|[v0 deps0] r IH]; simpl; intros Hin Hx; [inversion Hx|].
  apply elem_of_app in Hx as [Hx|Hx].
  - unfold entry_dependents in Hx. apply list_elem_of_In, in_flat_map in Hx as (d & _ & Hd).
    destruct (has nodes d && String.eqb d u); [|inversion Hd].
    destruct Hd as [<-|[]]. apply (Hin v0 deps0). left.
  - apply IH; [|exact Hx]. intros v deps H. apply (Hin v deps). now right.
Qed.

Lemma edge_in_iff nodes v d :
  edge_in nodes v d <-> d ∈ deps_of nodes v /\ has nodes d = true.
Proof.
  unfold edge_in, dep_edge, deps_of. rewrite map_has_true. split.
  - intros [(deps & -> & Hd) Hk]. auto.
  - intros [Hd Hk]. split; [|exact Hk].
    destruct (get nodes v) as [deps|]; [eauto | inversion Hd].
Qed.

(** A node has nothing pending exactly when its dependencies are done. *)
Lemma pending_zero nodes result v :
  pending nodes result v = 0%nat <-> (forall d, edge_in nodes v d -> d ∈ result).
Proof.
  unfold pending. split.
  - intros H d Hd. apply edge_in_iff in Hd as [Hd Hk].
    destruct (JsSet.has result d) eqn:E; [now apply JsSetFacts.set_has_true|].
    apply length_zero_iff_nil in H.
    assert (Hin : In d (List.filter (fun d => has nodes d && negb (JsSet.has result d))
                                    (deps_of nodes v))).
    { apply filter_In. split; [now apply list_elem_of_In | now rewrite Hk, E]. }
    rewrite H in Hin. destruct Hin.
  - intros H. apply length_zero_iff_nil.
    destruct (List.filter _ _) as [|d r] eqn:E; [reflexivity|]. exfalso.
    assert (Hin : In d (List.filter (fun d => has nodes d && negb (JsSet.has result d))
                                    (deps_of nodes v))) by (rewrite E; now left).
    apply filter_In in Hin as [Hd Hb]. apply andb_true_iff in Hb as [Hk Hr].
    assert (d ∈ result) by (apply H, edge_in_iff; split; [now apply list_elem_of_In | exact Hk]).
    apply JsSetFacts.set_has_true in H0. rewrite H0 in Hr. discriminate.
Qed.

(** Taking [u] into the result lowers the pending count of [v] by the number
    of times [v] lists [u]. *)
Lemma pending_snoc nodes result u v :
  u ∈ keys nodes -> u ∉ result ->
  (pending nodes (result ++ [u]) v + cnt (deps_of nodes v) u = pending nodes result v)%nat.
Proof.
  intros Hu Hr. unfold pending. induction (deps_of nodes v) as [|d r IH]; [reflexivity|].
  cbn [List.filter count_occ].
  assert (Hhas : JsSet.has (result ++ [u]) d = JsSet.has result d || String.eqb d u).
  { unfold JsSet.has. rewrite existsb_app. simpl. now rewrite orb_false_r. }
  rewrite Hhas. destruct (string_dec d u) as [->|Hne].
  - apply map_has_true in Hu. apply JsSetFacts.set_has_false in Hr.
    rewrite Hu, Hr, String.eqb_refl. cbn [andb orb negb length]. lia.
  - destruct (String.eqb_spec d u); [contradiction|]. rewrite orb_false_r.
    destruct (has nodes d && negb (JsSet.has result d)); cbn [length]; lia.
Qed.

(** *** The inner loop over the dependents of the node taken off the queue *)

Lemma relax_fold (nodes : depmap) (c : string -> nat) (l : list string) :
  forall inDegree queue,
  (forall v, v ∈ l -> v ∈ keys nodes) ->
  (forall v, v ∈ keys nodes -> get inDegree v = Some (Z.of_nat (c v))) ->
  (forall v, v ∈ keys nodes -> (cnt l v <= c v)%nat) ->
  exists inDegree' pushed,
    fold_left relax l (inDegree, queue) = (inDegree', queue ++ pushed) /\
    (forall v, v ∈ keys nodes -> get inDegree' v = Some (Z.of_nat (c v - cnt l v))) /\
    NoDup pushed /\
    (forall v, v ∈ pushed <-> v ∈ l /\ c v = cnt l v).
Proof.
  induction l as [|w p IH] using rev_ind; intros inDegree queue Hl Hdeg Hbound.
  - exists inDegree, []. simpl. rewrite app_nil_r. split; [reflexivity|]. split.
    + intros v Hv. rewrite Nat.sub_0_r. auto.
    + split; [constructor|]. intros v. split; [inversion 1 | intros [H _]; inversion H].
  - assert (Hw : w ∈ keys nodes) by (apply Hl, elem_of_app; right; left).
    assert (Hcw : forall v, cnt (p ++ [w]) v = (cnt p v + if string_dec w v then 1 else 0)%nat).
    { intros v. rewrite count_occ_app. simpl. destruct (string_dec w v); lia. }
    destruct (IH inDegree queue) as (deg1 & pushed1 & Hfold & Hdeg1 & Hnd1 & Hp1).
    { intros v Hv. apply Hl, elem_of_app. now left. }
    { exact Hdeg. }
    { intros v Hv. specialize (Hbound v Hv). rewrite Hcw in Hbound. lia. }
    rewrite fold_left_app, Hfold. cbn [fold_left relax].
    rewrite (Hdeg1 w Hw). cbn [default from_option id].
    pose proof (Hbound w Hw) as Hbw. rewrite Hcw in Hbw.
    destruct (string_dec w w) as [_|]; [|congruence].
    assert (Hnew : Z.of_nat (c w - cnt p w) - 1 = Z.of_nat (c w - cnt (p ++ [w]) w)).
    { rewrite Hcw. destruct (string_dec w w); [lia | congruence]. }
    assert (Hdeg2 : forall v, v ∈ keys nodes ->
              get (set deg1 w (Z.of_nat (c w - cnt p w) - 1)) v
              = Some (Z.of_nat (c v - cnt (p ++ [w]) v))).
    { intros v Hv. destruct (string_dec w v) as [<-|Hne].
      - now rewrite get_set_eq, Hnew.
      - rewrite get_set_ne by exact Hne. rewrite (Hdeg1 v Hv), Hcw.
        destruct (string_dec w v); [contradiction|]. now rewrite Nat.add_0_r. }
    destruct (Z.eqb_spec (Z.of_nat (c w - cnt p w) - 1) 0) as [Hz|Hz].
    + exists (set deg1 w (Z.of_nat (c w - cnt p w) - 1)), (pushed1 ++ [w]).
      rewrite app_assoc. split; [reflexivity|]. split; [exact Hdeg2|].
      assert (Hwp : w ∉ pushed1).
      { intros Hin. apply Hp1 in Hin as [_ Hin]. lia. }
      split.
      * apply NoDup_app. repeat split; [exact Hnd1 | | apply NoDup_singleton].
        intros x Hx Hx'. apply list_elem_of_singleton in Hx' as ->. contradiction.
      * intros v. rewrite !elem_of_app, Hp1, list_elem_of_singleton, Hcw.
        destruct (string_dec w v) as [<-|Hne].
        -- split; [intros _; split; [now right | lia] | intros _; now right].
        -- rewrite Nat.add_0_r. split.
           ++ intros [[H1 H2]|H]; [split; [now left | exact H2] | congruence].
           ++ intros [[H1|H1] H2]; [left; auto | congruence].
    + exists (set deg1 w (Z.of_nat (c w - cnt p w) - 1)), pushed1.
      split; [reflexivity|]. split; [exact Hdeg2|]. split; [exact Hnd1|].
      intros v. rewrite Hp1, elem_of_app, list_elem_of_singleton, Hcw.
      destruct (string_dec w v) as [<-|Hne].
      * split; [intros [_ H]; lia | intros [_ H]; lia].
      * rewrite Nat.add_0_r. split; [intros [H1 H2]; auto | intros [[H1|H1] H2]; [auto | congruence]].
Qed.

End KahnCount.

(** ** Kahn's algorithm: the queue loop *)

Module KahnLoop.
Import JsMap JsMapFacts Topological GraphSpec GraphFacts KahnBuild KahnCount.

(** What holds each time the loop tests its queue. *)
Record kahn_inv (nodes : depmap) (inDegree : list (string * Z))
  (queue result : list string) : Prop := {
  inv_deg : forall v, v ∈ keys nodes ->
            get inDegree v = Some (Z.of_nat (pending nodes result v));
  inv_nodup : NoDup (result ++ queue);
  inv_keys : forall x, x ∈ result ++ queue -> x ∈ keys nodes;
  inv_ready : forall v, v ∈ keys nodes ->
              (v ∈ result ++ queue <-> pending nodes result v = 0%nat);
  inv_order : deps_precede nodes result
}.

(** The reverse adjacency list holds [v] under [u] once per mention of [u]
    among the dependencies of [v]. *)
Definition graph_ok (nodes : depmap) (graph : list (string * list string)) : Prop :=
forall u, u ∈ keys nodes ->
  exists l, get graph u = Some l /\
    (forall v, v ∈ l -> v ∈ keys nodes) /\
    (forall v, v ∈ keys nodes -> cnt l v = cnt (deps_of nodes v) u).

Lemma pending_pos nodes result v :
  pending nodes result v <> 0%nat -> exists d, edge_in nodes v d /\ d ∉ result.
Proof.
  unfold pending. intros H.
  destruct (List.filter _ _) as [|d r] eqn:E; [contradiction|].
  assert (Hin : In d (List.filter (fun d => has nodes d && negb (JsSet.has result d))
                                  (deps_of nodes v))) by (rewrite E; now left).
  apply filter_In in Hin as [Hd Hb]. apply andb_true_iff in Hb as [Hk Hr].
  exists d. split.
  - apply edge_in_iff. split; [now apply list_elem_of_In | exact Hk].
  - apply JsSetFacts.set_has_false. now destruct (JsSet.has result d).
Qed.

Lemma kahn_step nodes graph inDegree u queue result :
  graph_ok nodes graph ->
  kahn_inv nodes inDegree (u :: queue) result ->
  exists inDegree' queue',
    fold_left relax (default [] (get graph u)) (inDegree, queue) = (inDegree', queue') /\
    kahn_inv nodes inDegree' queue' (result ++ [u]).
Proof.
  intros Hg [Hdeg Hnd Hkeys Hready Hord].
  assert (Hu : u ∈ keys nodes) by (apply Hkeys, elem_of_app; right; left).
  assert (Hur : u ∉ result).
  { apply NoDup_app in Hnd as (_ & H & _). intros Hin. apply (H u Hin). left. }
  destruct (Hg u Hu) as (l & Hl & Hlk & Hlc). rewrite Hl. cbn [default from_option id].
  assert (Hsnoc : forall v, v ∈ keys nodes ->
            (pending nodes (result ++ [u]) v + cnt l v = pending nodes result v)%nat).
  { intros v Hv. rewrite (Hlc v Hv). now apply pending_snoc. }
  destruct (relax_fold nodes (pending nodes result) l inDegree queue)
    as (deg' & pushed & Hfold & Hdeg' & Hndp & Hp); [exact Hlk | exact Hdeg | |].
  { intros v Hv. specialize (Hsnoc v Hv). lia. }
  exists deg', (queue ++ pushed). split; [exact Hfold|].
  assert (Hpk : forall x, x ∈ pushed -> x ∈ keys nodes).
  { intros x Hx. apply Hp in Hx as [Hx _]. auto. }
  assert (Hpfresh : forall x, x ∈ pushed -> x ∉ result ++ u :: queue).
  { intros x Hx Hin. pose proof (Hpk x Hx) as Hxk. apply Hp in Hx as [Hx Hc].
    apply (Hready x Hxk) in Hin.
    apply list_elem_of_In, (count_occ_In string_dec) in Hx. lia. }
  assert (Hmove : forall x, x ∈ (result ++ [u]) ++ queue <-> x ∈ result ++ u :: queue).
  { intros x. now rewrite <- app_assoc. }
  constructor.
  - intros v Hv. rewrite (Hdeg' v Hv). specialize (Hsnoc v Hv). do 2 f_equal. lia.
  - rewrite app_assoc. apply NoDup_app. repeat split.
    + rewrite <- app_assoc. exact Hnd.
    + intros x Hx Hxp. apply Hmove in Hx. exact (Hpfresh x Hxp Hx).
    + exact Hndp.
  - intros x. rewrite app_assoc, elem_of_app, Hmove. intros [Hx|Hx]; auto.
  - intros v Hv. rewrite app_assoc, elem_of_app, Hmove. specialize (Hsnoc v Hv). split.
    + intros [Hin|Hin].
      * apply (Hready v Hv) in Hin. lia.
      * apply Hp in Hin as [_ Hc]. lia.
    + intros Hz. destruct (decide (cnt l v = 0%nat)) as [Hc|Hc].
      * left. apply (Hready v Hv). lia.
      * right. apply Hp. split; [|lia].
        apply list_elem_of_In, (count_occ_In string_dec). lia.
  - apply deps_precede_snoc; [exact Hord|].
    apply pending_zero, (Hready u Hu), elem_of_app. right. left.
Qed.

Lemma inv_length nodes inDegree queue result :
  kahn_inv nodes inDegree queue result ->
  (length result + length queue <= length (keys nodes))%nat.
Proof.
  intros [_ Hnd Hkeys _ _]. rewrite <- length_app.
  apply submseteq_length, NoDup_submseteq; assumption.
Qed.

Lemma kahn_loop_spec nodes graph :
  graph_ok nodes graph ->
  forall fuel inDegree queue result,
    kahn_inv nodes inDegree queue result ->
    (length (keys nodes) < fuel + length result)%nat ->
    exists res inDegree',
      kahn_loop fuel graph inDegree queue result = Some res /\
      kahn_inv nodes inDegree' [] res.
Proof.
  intros Hg. induction fuel as [|fuel IH]; intros inDegree queue result Hinv Hfuel.
  - pose proof (inv_length _ _ _ _ Hinv). lia.
  - destruct queue as [|u queue]; simpl; [eauto|].
    destruct (kahn_step _ _ _ _ _ _ Hg Hinv) as (deg' & q' & Hfold & Hinv').
    rewrite Hfold. apply (IH deg' q' _ Hinv').
    rewrite length_app. simpl.
    pose proof (inv_length _ _ _ _ Hinv) as Hlen. simpl in Hlen. lia.
Qed.

(** *** The state before the first iteration *)

Lemma build_graph_ok nodes :
  NoDup (keys nodes) -> graph_ok nodes (build_maps nodes).1.
Proof.
  intros Hnd u Hu. destruct (build_maps_spec nodes Hnd) as ([Hkg _] & Hg & _).
  assert (Hug : u ∈ keys (build_maps nodes).1) by now rewrite Hkg.
  destruct (key_get _ _ Hug) as (l & Hl). exists l. split; [exact Hl|].
  assert (El : l = dependents nodes nodes u).
  { rewrite <- Hg. unfold gr. now rewrite Hl. }
  subst l. split.
  - intros v Hv. eapply dependents_keys; [|exact Hv].
    intros v0 deps H. apply list_elem_of_fmap. now exists (v0, deps).
  - intros v Hv. rewrite (cnt_dependents nodes nodes u v Hnd).
    apply map_has_true in Hu. now rewrite Hu.
Qed.

Lemma initial_queue_elem (inDegree : list (string * Z)) v :
  NoDup (keys inDegree) ->
  (v ∈ initial_queue inDegree <-> get inDegree v = Some 0).
Proof.
  intros Hnd. unfold initial_queue. rewrite list_elem_of_fmap. split.
  - intros ([k d] & -> & Hin). apply list_elem_of_In, filter_In in Hin as [Hin Hz].
    apply Z.eqb_eq in Hz as ->. apply elem_get; [exact Hnd | now apply list_elem_of_In].
  - intros H. exists (v, 0). split; [reflexivity|].
    apply list_elem_of_In, filter_In. split; [|reflexivity].
    now apply list_elem_of_In, get_Some_elem.
Qed.

Lemma initial_queue_NoDup (inDegree : list (string * Z)) :
  NoDup (keys inDegree) -> NoDup (initial_queue inDegree).
Proof.
  unfold initial_queue, keys. induction inDegree as [|[k d] r IH]; simpl; intros Hnd.
  - constructor.
  - apply NoDup_cons in Hnd as [Hk Hnd]. destruct (d =? 0); simpl; [|auto].
    apply NoDup_cons. split; [|auto].
    intros Hin. apply Hk. apply list_elem_of_fmap in Hin as ([k' d'] & -> & Hin).
    apply list_elem_of_In, filter_In in Hin as [Hin _].
    apply list_elem_of_fmap. exists (k', d'). split; [reflexivity | now apply list_elem_of_In].
Qed.

Lemma pending_nil nodes v :
  pending nodes [] v = length (List.filter (has nodes) (deps_of nodes v)).
Proof.
  unfold pending. f_equal. apply List.filter_ext. intros d. simpl. apply andb_true_r.
Qed.

Lemma kahn_initial nodes :
  NoDup (keys nodes) ->
  kahn_inv nodes (build_maps nodes).2 (initial_queue (build_maps nodes).2) [].
Proof.
  intros Hnd. destruct (build_maps_spec nodes Hnd) as ([_ Hki] & _ & Hd).
  assert (Hndi : NoDup (keys (build_maps nodes).2)) by now rewrite Hki.
  assert (Hdeg : forall v, v ∈ keys nodes ->
            get (build_maps nodes).2 v = Some (Z.of_nat (pending nodes [] v))).
  { intros v Hv. rewrite <- Hki in Hv. destruct (key_get _ _ Hv) as (d & Hget).
    rewrite Hget. f_equal. specialize (Hd v). unfold dg in Hd. rewrite Hget in Hd.
    simpl in Hd. rewrite Hd, (deg_sum_get nodes nodes v Hnd), pending_nil. reflexivity. }
  constructor; simpl.
  - exact Hdeg.
  - now apply initial_queue_NoDup.
  - intros x Hx. apply (initial_queue_elem _ _ Hndi) in Hx.
    rewrite <- Hki. eapply get_Some_key; eauto.
  - intros v Hv. rewrite (initial_queue_elem _ _ Hndi), (Hdeg v Hv).
    split; [intros [= H]; lia | intros ->; reflexivity].
  - apply deps_precede_nil.
Qed.

(** The loop ends within its fuel, and its result holds exactly the nodes
    whose dependencies it also holds, dependencies first. *)
Lemma kahn_result nodes :
  NoDup (keys nodes) ->
  exists res,
    kahn_loop (S (size nodes)) (build_maps nodes).1 (build_maps nodes).2
              (initial_queue (build_maps nodes).2) [] = Some res /\
    NoDup res /\
    (forall x, x ∈ res -> x ∈ keys nodes) /\
    (forall v, v ∈ keys nodes -> v ∉ res -> exists d, edge_in nodes v d /\ d ∉ res) /\
    deps_precede nodes res.
Proof.
  intros Hnd.
  destruct (kahn_loop_spec nodes _ (build_graph_ok nodes Hnd) (S (size nodes)) _ _ _
              (kahn_initial nodes Hnd)) as (res & deg' & Hloop & [_ Hnd' Hk Hready Hord]).
  { unfold size, keys. rewrite length_fmap. simpl. lia. }
  rewrite app_nil_r in *. exists res. split; [exact Hloop|].
  split; [exact Hnd'|]. split; [exact Hk|]. split; [|exact Hord].
  intros v Hv Hnot. apply pending_pos. intros Hz. apply Hnot.
  now apply (Hready v Hv).
Qed.

End KahnLoop.

(** ** Parallel levels *)

Module LevelsFacts.
Import JsMap JsMapFacts Topological GraphSpec GraphFacts KahnBuild KahnCount.

(** A non-empty set of nodes, each with a dependency inside the set, closes
    a cycle. *)
Lemma stuck_cycle (nodes : depmap) (S : list string) :
  S <> [] -> (forall x, x ∈ S -> exists d, edge_in nodes x d /\ d ∈ S) -> cyclic nodes.
Proof.
  intros Hne Hs.
  destruct (finite_successor_cycle (length S) (edge_in nodes) S) as (x & Hx); auto.
  - intros x Hx. destruct (Hs x Hx) as (d & Hd & Hin). eauto.
  - exists x. now apply edge_in_dep.
Qed.

Record levels_inv (nodes : depmap) (levels : list (list string))
  (completed remaining : list string) : Prop := {
  linv_nodup : NoDup (concat levels ++ remaining);
  linv_cover : forall x, x ∈ concat levels ++ remaining <-> x ∈ keys nodes;
  linv_completed : forall x, x ∈ completed <-> x ∈ concat levels;
  linv_deps : levels_respect_deps nodes levels;
  linv_nonempty : Forall (fun level => level <> []) levels
}.

Lemma allDepsCompleted_true nodes completed v :
  allDepsCompleted nodes completed v = true <->
  (forall d, edge_in nodes v d -> d ∈ completed).
Proof.
  unfold allDepsCompleted. fold (deps_of nodes v). rewrite forallb_forall. split.
  - intros H d Hd. apply edge_in_iff in Hd as [Hd Hk].
    specialize (H d (proj1 (list_elem_of_In _ _) Hd)). rewrite Hk in H. simpl in H.
    now apply JsSetFacts.set_has_true.
  - intros H d Hd. destruct (has nodes d) eqn:Hk; [simpl | reflexivity].
    apply JsSetFacts.set_has_true, H, edge_in_iff. split; [now apply list_elem_of_In | exact Hk].
Qed.

Lemma forallb_false_elem {A} (f : A -> bool) (l : list A) :
  forallb f l = false -> exists x, x ∈ l /\ f x = false.
Proof.
  induction l as [|a r IH]; simpl; [discriminate|].
  intros H. apply andb_false_iff in H as [H|H].
  - exists a. split; [left | exact H].
  - destruct (IH H) as (x & Hx & Hf). exists x. split; [now right | exact Hf].
Qed.

Lemma allDepsCompleted_false nodes completed v :
  allDepsCompleted nodes completed v = false ->
  exists d, edge_in nodes v d /\ d ∉ completed.
Proof.
  unfold allDepsCompleted. fold (deps_of nodes v). intros H.
  apply forallb_false_elem in H as (d & Hd & Hf).
  apply orb_false_iff in Hf as [Hk Hc]. exists d. split.
  - apply edge_in_iff. split; [exact Hd | now destruct (has nodes d)].
  - now apply JsSetFacts.set_has_false.
Qed.

(** Lines 163-166: the level moves from [remaining] to [completed]. *)
Lemma move_level level : forall completed remaining,
  exists completed' remaining',
    fold_left (fun '(c, r) nodeId => (JsSet.add c nodeId, JsSet.delete r nodeId))
              level (completed, remaining) = (completed', remaining') /\
    (forall x, x ∈ completed' <-> x ∈ completed \/ x ∈ level) /\
    (forall x, x ∈ remaining' <-> x ∈ remaining /\ x ∉ level) /\
    (NoDup remaining -> NoDup remaining') /\
    (length remaining' <= length remaining)%nat /\
    ((exists x, x ∈ level /\ x ∈ remaining) -> (length remaining' < length remaining)%nat).
Proof.
  induction level as [|n r IH]; intros completed remaining; simpl.
  - exists completed, remaining. split; [reflexivity|]. repeat split.
    + auto.
    + intros [H|H]; [exact H | inversion H].
    + tauto.
    + apply not_elem_of_nil.
    + tauto.
    + auto.
    + lia.
    + intros (x & Hx & _). inversion Hx.
  - destruct (IH (JsSet.add completed n) (JsSet.delete remaining n))
      as (c' & r' & Hfold & Hc & Hr & Hnd & Hle & Hlt).
    exists c', r'. split; [exact Hfold|]. split; [|split; [|split; [|split]]].
    + intros x. rewrite Hc, JsSetFacts.elem_of_add, elem_of_cons. tauto.
    + intros x. rewrite Hr, JsSetFacts.elem_of_delete, not_elem_of_cons. tauto.
    + intros H. apply Hnd. now apply JsSetFacts.NoDup_delete.
    + pose proof (JsSetFacts.length_delete_le remaining n). lia.
    + intros (x & Hx & Hxr). apply elem_of_cons in Hx as [->|Hx].
      * pose proof (JsSetFacts.length_delete remaining n Hxr). lia.
      * destruct (decide (x = n)) as [->|Hne].
        -- pose proof (JsSetFacts.length_delete remaining n Hxr). lia.
        -- pose proof (JsSetFacts.length_delete_le remaining n).
           assert (length r' < length (JsSet.delete remaining n))%nat; [|lia].
           apply Hlt. exists x. split; [exact Hx|].
           apply JsSetFacts.elem_of_delete. auto.
Qed.

Lemma levels_respect_snoc nodes levels level :
  levels_respect_deps nodes levels ->
  (forall v d, v ∈ level -> edge_in nodes v d -> d ∈ concat levels) ->
  levels_respect_deps nodes (levels ++ [level]).
Proof.
  intros Hl Hnew earlier lv later v d E Hv Hd.
  destruct later as [|a later'] using rev_ind.
  - apply app_inj_tail in E as [-> ->]. eauto.
  - clear IHlater'. rewrite app_comm_cons, app_assoc in E.
    apply app_inj_tail in E as [-> _]. eapply Hl; eauto.
Qed.

Lemma levels_step nodes levels completed remaining :
  acyclic nodes ->
  levels_inv nodes levels completed remaining -> remaining <> [] ->
  let currentLevel := List.filter (allDepsCompleted nodes completed) remaining in
  currentLevel <> [] /\
  forall completed' remaining',
    fold_left (fun '(c, r) nodeId => (JsSet.add c nodeId, JsSet.delete r nodeId))
              currentLevel (completed, remaining) = (completed', remaining') ->
    levels_inv nodes (levels ++ [currentLevel]) completed' remaining' /\
    (length remaining' < length remaining)%nat.
Proof.
  intros Hacyc [Hnd Hcover Hcomp Hdeps Hne] Hrem currentLevel.
  assert (Hcur : forall x, x ∈ currentLevel <->
            x ∈ remaining /\ allDepsCompleted nodes completed x = true).
  { intros x. unfold currentLevel. now rewrite list_elem_of_In, filter_In, <- list_elem_of_In. }
  assert (Hnonempty : currentLevel <> []).
  { intros E. destruct (stuck_cycle nodes remaining Hrem) as (y & Hy); [|exact (Hacyc y Hy)].
    intros x Hx. destruct (allDepsCompleted nodes completed x) eqn:Ex.
    - assert (Hin : x ∈ currentLevel) by (apply Hcur; auto).
      rewrite E in Hin. inversion Hin.
    - destruct (allDepsCompleted_false _ _ _ Ex) as (d & Hd & Hdc).
      exists d. split; [exact Hd|].
      assert (Hk : d ∈ concat levels ++ remaining) by (apply Hcover, Hd).
      apply elem_of_app in Hk as [Hk|Hk]; [|exact Hk].
      exfalso. apply Hdc. now apply Hcomp. }
  split; [exact Hnonempty|]. intros completed' remaining' Hfold.
  destruct (move_level currentLevel completed remaining)
    as (c' & r' & Hfold' & Hc & Hr & Hndr & _ & Hlt).
  rewrite Hfold in Hfold'. injection Hfold' as <- <-.
  apply NoDup_app in Hnd as (Hnd1 & Hdis & Hnd2).
  split.
  - constructor.
    + rewrite concat_app. simpl. rewrite app_nil_r, <- app_assoc.
      apply NoDup_app. repeat split; [exact Hnd1 | |].
      * intros x Hx Hx'. apply (Hdis x Hx).
        apply elem_of_app in Hx' as [Hx'|Hx'].
        -- now apply Hcur in Hx' as [Hx' _].
        -- now apply Hr in Hx' as [Hx' _].
      * apply NoDup_app. repeat split.
        -- unfold currentLevel. apply NoDup_ListNoDup, List.NoDup_filter.
           now apply NoDup_ListNoDup.
        -- intros x Hx Hx'. now apply Hr in Hx' as [_ Hx'].
        -- auto.
    + intros x. rewrite <- Hcover, concat_app. simpl.
      rewrite app_nil_r, !elem_of_app, Hr, Hcur.
      destruct (decide (x ∈ currentLevel)) as [Hin|Hin].
      * apply Hcur in Hin. tauto.
      * rewrite Hcur in Hin. tauto.
    + intros x. rewrite Hc, concat_app. simpl. rewrite app_nil_r, elem_of_app, Hcomp.
      reflexivity.
    + apply levels_respect_snoc; [exact Hdeps|].
      intros v d Hv Hd. apply Hcomp. apply Hcur in Hv as [_ Hv].
      eapply allDepsCompleted_true; eauto.
    + apply Forall_app. split; [exact Hne | repeat constructor; exact Hnonempty].
  - apply Hlt. clearbody currentLevel. destruct currentLevel as [|x l]; [contradiction|].
    exists x. split; [left|]. apply (Hcur x). left.
Qed.

Lemma levels_loop_spec nodes :
  acyclic nodes ->
  forall fuel levels completed remaining,
    levels_inv nodes levels completed remaining ->
    (length remaining < fuel)%nat ->
    exists res completed',
      levels_loop fuel nodes levels completed remaining = Ok res /\
      levels_inv nodes res completed' [].
Proof.
  intros Hacyc. induction fuel as [|fuel IH]; intros levels completed remaining Hinv Hfuel; [lia|].
  simpl. destruct remaining as [|x rem] eqn:E; [simpl; eauto|].
  rewrite <- E in *. assert (Hrem : remaining <> []) by (rewrite E; discriminate).
  replace (negb (0 <? length remaining)%nat) with false
    by (rewrite E; reflexivity).
  destruct (levels_step nodes levels completed remaining Hacyc Hinv Hrem) as [Hne Hstep].
  destruct (List.filter (allDepsCompleted nodes completed) remaining) as [|y lvl] eqn:Ef;
    [contradiction|].
  cbn [length Nat.eqb].
  destruct (fold_left _ (y :: lvl) (completed, remaining)) as [c' r'] eqn:Efold.
  destruct (Hstep c' r' eq_refl) as [Hinv' Hlt].
  apply (IH _ _ _ Hinv'). lia.
Qed.

Lemma levels_initial nodes :
  NoDup (keys nodes) -> levels_inv nodes [] [] (JsSet.of_list (keys nodes)).
Proof.
  intros Hnd. rewrite (JsSetFacts.of_list_NoDup _ Hnd). constructor; simpl.
  - exact Hnd.
  - reflexivity.
  - reflexivity.
  - intros earlier lv later v d E. destruct earlier; discriminate E.
  - constructor.
Qed.

Lemma getParallelLevels_acyclic nodes :
  NoDup (keys nodes) -> acyclic nodes ->
  exists levels,
    getParallelLevels nodes = Ok levels /\
    levels_partition nodes levels /\ levels_respect_deps nodes levels.
Proof.
  intros Hnd Hacyc. unfold getParallelLevels.
  destruct (levels_loop_spec nodes Hacyc (S (size nodes)) [] []
              (JsSet.of_list (keys nodes)) (levels_initial nodes Hnd))
    as (levels & c' & Hloop & [Hnd' Hcover _ Hdeps Hne]).
  - rewrite (JsSetFacts.of_list_NoDup _ Hnd). unfold size, keys.
    rewrite length_fmap. lia.
  - exists levels. split; [exact Hloop|]. rewrite app_nil_r in *.
    split; [split|]; [|exact Hne | exact Hdeps].
    apply NoDup_Permutation; [exact Hnd' | exact Hnd |].
    intros x. now rewrite <- Hcover.
Qed.

End LevelsFacts.

(** ** topologicalSort: when the queue loop covers every node *)

Module SortFacts.
Import JsMap JsMapFacts Topological GraphSpec GraphFacts KahnBuild KahnCount KahnLoop
       LevelsFacts.

Lemma topologicalSort_unfold nodes res :
  kahn_loop (S (size nodes)) (build_maps nodes).1 (build_maps nodes).2
            (initial_queue (build_maps nodes).2) [] = Some res ->
  topologicalSort nodes =
  if negb (Nat.eqb (length res) (size nodes)) then
    match detectCycle nodes with
    | None => OutOfFuel
    | Some cycle => CyclicDependencyError cycle
    end
  else Ok res.
Proof.
  unfold topologicalSort. destruct (build_maps nodes) as [graph inDegree]. simpl.
  intros ->. reflexivity.
Qed.

Lemma size_keys {V} (m : list (string * V)) : size m = length (keys m).
Proof. unfold size, keys. now rewrite length_fmap. Qed.

(** The loop's result has one entry per node exactly when no node lies on a
    cycle. *)
Lemma kahn_full_iff nodes res :
  NoDup (keys nodes) -> NoDup res ->
  (forall x, x ∈ res -> x ∈ keys nodes) ->
  (forall v, v ∈ keys nodes -> v ∉ res -> exists d, edge_in nodes v d /\ d ∉ res) ->
  deps_precede nodes res ->
  (length res = size nodes <-> acyclic nodes).
Proof.
  intros Hnd Hndr Hsub Hstuck Hord. rewrite size_keys. split.
  - intros Hlen x Hx. apply cycle_edge_in in Hx as [Hx Hk].
    assert (Hperm : res ≡ₚ keys nodes).
    { apply submseteq_length_Permutation; [now apply NoDup_submseteq | lia]. }
    apply (deps_precede_no_cycle nodes res Hndr Hord x); [|exact Hx].
    now rewrite Hperm.
  - intros Hacyc. apply Permutation_length, NoDup_Permutation; [assumption..|].
    intros x. split; [apply Hsub|]. intros Hx.
    destruct (decide (x ∈ res)) as [Hin|Hout]; [exact Hin | exfalso].
    set (S := filter (fun y => y ∉ res) (keys nodes)).
    destruct (stuck_cycle nodes S) as (y & Hy); [| |exact (Hacyc y Hy)].
    + intros E. assert (Hin : x ∈ S) by (apply list_elem_of_filter; auto).
      rewrite E in Hin. inversion Hin.
    + intros y Hy. apply list_elem_of_filter in Hy as [Hy Hk].
      destruct (Hstuck y Hk Hy) as (d & Hd & Hdr). exists d. split; [exact Hd|].
      apply list_elem_of_filter. split; [exact Hdr | apply Hd].
Qed.

Lemma topologicalSort_acyclic nodes :
  NoDup (keys nodes) -> acyclic nodes ->
  exists order, topologicalSort nodes = Ok order /\ topological_order nodes order.
Proof.
  intros Hnd Hacyc.
  destruct (kahn_result nodes Hnd) as (res & Hloop & Hndr & Hsub & Hstuck & Hord).
  pose proof (proj2 (kahn_full_iff nodes res Hnd Hndr Hsub Hstuck Hord) Hacyc) as Hlen.
  exists res. rewrite (topologicalSort_unfold nodes res Hloop), Hlen, Nat.eqb_refl. simpl.
  split; [reflexivity|]. split; [|exact Hord].
  apply submseteq_length_Permutation; [now apply NoDup_submseteq|].
  rewrite Hlen, size_keys. lia.
Qed.

(** Conversely an [Ok] answer certifies that the map has no cycle. *)
Lemma topologicalSort_Ok_acyclic nodes order :
  NoDup (keys nodes) -> topologicalSort nodes = Ok order -> acyclic nodes.
Proof.
  intros Hnd Hsort.
  destruct (kahn_result nodes Hnd) as (res & Hloop & Hndr & Hsub & Hstuck & Hord).
  apply (kahn_full_iff nodes res Hnd Hndr Hsub Hstuck Hord).
  rewrite (topologicalSort_unfold nodes res Hloop) in Hsort.
  destruct (Nat.eqb_spec (length res) (size nodes)) as [E|E]; [exact E|].
  simpl in Hsort. destruct (detectCycle nodes); discriminate Hsort.
Qed.

(** C1: for an acyclic dependency map, [topologicalSort] returns a
    topological order of the nodes (each dependency that is a node comes
    before the task), and [getParallelLevels] returns a partition of the
    nodes into non-empty levels in which a task of level [k] depends only on
    tasks of levels before [k]; dependencies that are not nodes are ignored. *)
Theorem dag_soundness (nodes : depmap) :
  NoDup (keys nodes) -> acyclic nodes ->
  exists order levels,
    topologicalSort nodes = Ok order /\ topological_order nodes order /\
    getParallelLevels nodes = Ok levels /\
    levels_partition nodes levels /\ levels_respect_deps nodes levels.
Proof.
  intros Hnd Hacyc.
  destruct (topologicalSort_acyclic nodes Hnd Hacyc) as (order & Hsort & Htopo).
  destruct (getParallelLevels_acyclic nodes Hnd Hacyc) as (levels & Hlev & Hpart & Hdeps).
  exists order, levels. auto.
Qed.

Lemma e1_nodes_NoDup : NoDup (keys e1_nodes).
Proof. apply (bool_decide_unpack _). vm_compute. exact I. Qed.

Lemma e1_nodes_acyclic : acyclic e1_nodes.
Proof.
  apply (topologicalSort_Ok_acyclic e1_nodes ["core:build"; "utils:build"; "web:build"]).
  - exact e1_nodes_NoDup.
  - vm_compute. reflexivity.
Qed.

Lemma dag_soundness_witness :
  exists order levels,
    topologicalSort e1_nodes = Ok order /\ topological_order e1_nodes order /\
    getParallelLevels e1_nodes = Ok levels /\
    levels_partition e1_nodes levels /\ levels_respect_deps e1_nodes levels.
Proof.
  apply (dag_soundness e1_nodes).
  - exact e1_nodes_NoDup.
  - exact e1_nodes_acyclic.
Defined.

End SortFacts.

(** ** detectCycle: the depth-first search *)

Module DfsFacts.
Import JsMap JsMapFacts Topological GraphSpec GraphFacts KahnBuild KahnCount.

(** *** Arrays and walks *)

Lemma indexOf_from_split l x : forall i,
  x ∈ l ->
  exists pre suf, l = pre ++ x :: suf /\
    JsArray.indexOf_from l x i = i + Z.of_nat (length pre).
Proof.
  induction l as [|y r IH]; intros i Hx; [inversion Hx|]. simpl.
  destruct (String.eqb_spec y x) as [->|Hne].
  - exists [], r. simpl. split; [reflexivity | lia].
  - apply elem_of_cons in Hx as [->|Hx]; [contradiction|].
    destruct (IH (i + 1) Hx) as (pre & suf & -> & Hi).
    exists (y :: pre), suf. split; [reflexivity|]. rewrite Hi. simpl length. lia.
Qed.

(** [path.slice(path.indexOf(dep))] is the part of the path from [dep] on. *)
Lemma slice_indexOf l x :
  x ∈ l -> exists pre suf, l = pre ++ x :: suf /\ JsArray.slice l (JsArray.indexOf l x) = x :: suf.
Proof.
  intros Hx. destruct (indexOf_from_split l x 0 Hx) as (pre & suf & E & Hi).
  exists pre, suf. split; [exact E|]. unfold JsArray.indexOf, JsArray.slice. rewrite Hi.
  destruct (Z.ltb_spec (0 + Z.of_nat (length pre)) 0) as [H|_]; [lia|].
  replace (Z.to_nat (0 + Z.of_nat (length pre))) with (length pre) by lia.
  rewrite E. now rewrite drop_app_length.
Qed.

Lemma walk_tail nodes u w : walk nodes (u :: w) -> walk nodes w.
Proof. destruct w as [|v w']; simpl; [auto | intros [_ H]; exact H]. Qed.

Lemma walk_app_r nodes a b : walk nodes (a ++ b) -> walk nodes b.
Proof.
  induction a as [|x a IH]; simpl app; [auto|]. intros H. apply IH. eapply walk_tail; eauto.
Qed.

Lemma walk_app_l nodes a b : walk nodes (a ++ b) -> walk nodes a.
Proof.
  induction a as [|x a IH]; [simpl; auto|]. intros H.
  destruct a as [|y a']; [simpl; auto|].
  simpl in H |- *. destruct H as [Hxy H]. split; [exact Hxy | apply IH; exact H].
Qed.

Lemma walk_snoc nodes l u v :
  walk nodes (l ++ [u]) -> dep_edge nodes u v -> walk nodes (l ++ [u; v]).
Proof.
  induction l as [|a l IH]; intros H Huv.
  - simpl. auto.
  - destruct l as [|b l'].
    + simpl in H |- *. destruct H as [Hau _]. auto.
    + simpl in H |- *. destruct H as [Hab H]. split; [exact Hab|]. apply IH; auto.
Qed.

(** *** The search invariant *)

Record dfs_inv (nodes : depmap) (st : dfs_state) : Prop := {
  dinv_stack : forall x, x ∈ recursionStack st <-> x ∈ path st;
  dinv_path : forall x, x ∈ path st -> x ∈ visited st;
  dinv_walk : walk nodes (path st);
  dinv_closed : forall u d, u ∈ visited st -> u ∉ path st -> edge_in nodes u d ->
                d ∈ visited st /\ d ∉ path st;
  dinv_nocycle : forall u, u ∈ visited st -> u ∉ path st -> ~ tc (edge_in nodes) u u;
  dinv_keys : forall x, x ∈ visited st -> x ∈ keys nodes
}.

(** Number of nodes not yet visited: the search cannot nest deeper. *)
Definition unvisited (nodes : depmap) (st : dfs_state) : nat :=
length (filter (fun k => k ∉ visited st) (keys nodes)).

Lemma unvisited_mono_list (ks V V' : list string) :
  (forall x, x ∈ V -> x ∈ V') ->
  (length (filter (fun k => k ∉ V') ks) <= length (filter (fun k => k ∉ V) ks))%nat.
Proof.
  intros Hsub. induction ks as [|k r IH]; [reflexivity|].
  rewrite !filter_cons. destruct (decide (k ∉ V')) as [H'|H'], (decide (k ∉ V)) as [H|H];
    simpl; try lia.
  exfalso. apply H'. apply Hsub. destruct (decide (k ∈ V)); [assumption | contradiction].
Qed.

Lemma unvisited_strict_list (ks V V' : list string) n :
  (forall x, x ∈ V -> x ∈ V') -> n ∈ ks -> n ∉ V -> n ∈ V' ->
  (length (filter (fun k => k ∉ V') ks) < length (filter (fun k => k ∉ V) ks))%nat.
Proof.
  intros Hsub Hn HV HV'. induction ks as [|k r IH]; [inversion Hn|].
  rewrite !filter_cons. pose proof (unvisited_mono_list r V V' Hsub) as Hle.
  destruct (decide (k = n)) as [->|Hne].
  - destruct (decide (n ∉ V')) as [H'|_]; [contradiction|].
    destruct (decide (n ∉ V)) as [_|H]; [simpl; lia | contradiction].
  - apply elem_of_cons in Hn as [->|Hn]; [contradiction|]. specialize (IH Hn).
    destruct (decide (k ∉ V')) as [H'|H'], (decide (k ∉ V)) as [H|H]; simpl; try lia.
    exfalso. apply H'. apply Hsub. destruct (decide (k ∈ V)); [assumption | contradiction].
Qed.

Lemma black_tc_closed nodes st u d :
  dfs_inv nodes st -> u ∈ visited st -> u ∉ path st -> tc (edge_in nodes) u d ->
  d ∈ visited st /\ d ∉ path st.
Proof.
  intros Hinv Hu Hp Hud. induction Hud as [u d Hr|u m d Hr _ IH].
  - eapply dinv_closed; eauto.
  - destruct (dinv_closed _ _ Hinv u m Hu Hp Hr) as [Hm Hmp]. auto.
Qed.

(** What a call [dfs(n)] yields: a closed walk, or a state in which [n] is
    finished and the path is as before. *)
Definition dfs_post (nodes : depmap) (st : dfs_state) (n : string) (res : dfs_result) : Prop :=
exists st' r, res = Some (st', r) /\
  match r with
  | Some cycle => closed_walk nodes cycle
  | None => dfs_inv nodes st' /\ path st' = path st /\
            (forall x, x ∈ visited st -> x ∈ visited st') /\ n ∈ visited st'
  end.

Definition rec_ok (nodes : depmap) (fuel : nat)
  (rec : dfs_state -> string -> dfs_result) : Prop :=
forall st n,
  dfs_inv nodes st -> n ∈ keys nodes -> n ∉ visited st ->
  walk nodes (path st ++ [n]) -> (unvisited nodes st <= fuel)%nat ->
  dfs_post nodes st n (rec st n).

Lemma back_edge_walk nodes p n dep :
  walk nodes (p ++ [n]) -> dep_edge nodes n dep -> dep ∈ p ++ [n] ->
  closed_walk nodes (JsArray.slice (p ++ [n]) (JsArray.indexOf (p ++ [n]) dep) ++ [dep]).
Proof.
  intros Hw Hedge Hin. destruct (slice_indexOf _ _ Hin) as (pre & suf & E & ->).
  assert (Hshape : exists q, dep :: suf = q ++ [n]).
  { destruct suf as [|a suf'] using rev_ind.
    - exists []. simpl. apply (f_equal last) in E.
      rewrite !last_snoc in E. now injection E as ->.
    - exists (dep :: suf'). rewrite app_comm_cons, app_assoc in E.
      apply app_inj_tail in E as [_ ->]. reflexivity. }
  destruct Hshape as (q & Hq). split; [|split].
  - simpl. rewrite length_app. simpl. lia.
  - rewrite Hq, <- app_assoc. apply walk_snoc; [|exact Hedge].
    rewrite <- Hq. rewrite E in Hw. eapply walk_app_r; eauto.
  - simpl. now rewrite app_comm_cons, last_snoc.
Qed.

(** The loop over the dependencies of the node [n] on top of the path. *)
Lemma dfs_deps_spec nodes fuel rec p n :
  rec_ok nodes fuel rec -> n ∈ keys nodes ->
  forall deps st,
    dfs_inv nodes st -> path st = p ++ [n] ->
    (forall d, d ∈ deps -> dep_edge nodes n d) ->
    (unvisited nodes st <= fuel)%nat ->
    exists st' r, dfs_deps rec nodes st deps = Some (st', r) /\
      match r with
      | Some cycle => closed_walk nodes cycle
      | None => dfs_inv nodes st' /\ path st' = path st /\
                (forall x, x ∈ visited st -> x ∈ visited st') /\
                (forall d, d ∈ deps -> d ∈ keys nodes -> d ∈ visited st' /\ d ∉ path st')
      end.
Proof.
  intros Hrec Hn. induction deps as [|d rest IH]; intros st Hinv Hpath Hdeps Hfuel.
  - exists st, None. simpl. split; [reflexivity|]. split; [exact Hinv|].
    split; [reflexivity|]. split; [auto|]. intros d Hd. inversion Hd.
  - assert (Hrest : forall d', d' ∈ rest -> dep_edge nodes n d')
      by (intros d' Hd'; apply Hdeps; now right).
    assert (Hnd : dep_edge nodes n d) by (apply Hdeps; left).
    (* what remains once [d] is known to be finished *)
    assert (Hcont : forall st1,
              dfs_inv nodes st1 -> path st1 = path st ->
              (forall x, x ∈ visited st -> x ∈ visited st1) ->
              (d ∈ keys nodes -> d ∈ visited st1 /\ d ∉ path st1) ->
              exists st' r, dfs_deps rec nodes st1 rest = Some (st', r) /\
                match r with
                | Some cycle => closed_walk nodes cycle
                | None => dfs_inv nodes st' /\ path st' = path st /\
                          (forall x, x ∈ visited st -> x ∈ visited st') /\
                          (forall d', d' ∈ d :: rest -> d' ∈ keys nodes ->
                                      d' ∈ visited st' /\ d' ∉ path st')
                end).
    { intros st1 Hinv1 Hpath1 Hmono1 Hblack1.
      destruct (IH st1 Hinv1) as (st' & r & Hrun & Hpost); [congruence | exact Hrest | |].
      { pose proof (unvisited_mono_list (keys nodes) _ _ Hmono1). unfold unvisited in *. lia. }
      exists st', r. split; [exact Hrun|]. destruct r as [c|]; [exact Hpost|].
      destruct Hpost as (Hinv' & Hpath' & Hmono' & Hblack').
      split; [exact Hinv'|]. split; [congruence|]. split; [auto|].
      intros d' Hd' Hk. apply elem_of_cons in Hd' as [->|Hd']; [|auto].
      destruct (Hblack1 Hk) as [Hv Hp]. split; [auto | congruence]. }
    simpl. destruct (has nodes d) eqn:Hk; simpl.
    + apply map_has_true in Hk.
      destruct (JsSet.has (visited st) d) eqn:Hv; simpl.
      * apply JsSetFacts.set_has_true in Hv.
        destruct (JsSet.has (recursionStack st) d) eqn:Hs.
        -- apply JsSetFacts.set_has_true, (dinv_stack _ _ Hinv) in Hs.
           eexists st, (Some _). split; [reflexivity|].
           rewrite Hpath in *. apply back_edge_walk; auto.
           rewrite <- Hpath. apply (dinv_walk _ _ Hinv).
        -- apply JsSetFacts.set_has_false in Hs. apply Hcont; auto.
           intros _. split; [exact Hv|]. intros Hp. apply Hs. now apply (dinv_stack _ _ Hinv).
      * apply JsSetFacts.set_has_false in Hv.
        destruct (Hrec st d Hinv Hk Hv) as (st1 & r & -> & Hpost); [|exact Hfuel|].
        { rewrite Hpath, <- app_assoc. apply walk_snoc; [|exact Hnd].
          rewrite <- Hpath. apply (dinv_walk _ _ Hinv). }
        destruct r as [c|]; [eauto|].
        destruct Hpost as (Hinv1 & Hpath1 & Hmono1 & Hd1).
        apply Hcont; auto. intros _. split; [exact Hd1|].
        rewrite Hpath1. intros Hp. apply Hv. now apply (dinv_path _ _ Hinv).
    + apply map_has_false in Hk. apply Hcont; auto. intros Hk'. contradiction.
Qed.

Lemma dfs_inv_push nodes st n :
  dfs_inv nodes st -> n ∈ keys nodes -> n ∉ visited st ->
  walk nodes (path st ++ [n]) ->
  dfs_inv nodes (mkDfs (JsSet.add (visited st) n) (JsSet.add (recursionStack st) n)
                       (path st ++ [n])).
Proof.
  intros [Hs Hp Hw Hc Hnc Hk] Hn Hv Hwalk. constructor; simpl.
  - intros x. rewrite JsSetFacts.elem_of_add, elem_of_app, list_elem_of_singleton, Hs.
    reflexivity.
  - intros x. rewrite JsSetFacts.elem_of_add, elem_of_app, list_elem_of_singleton.
    intros [H|H]; auto.
  - exact Hwalk.
  - intros u d. rewrite !JsSetFacts.elem_of_add, !elem_of_app, !list_elem_of_singleton.
    intros [Hu|Hu] Hup Hud; [|tauto].
    destruct (Hc u d Hu) as [Hd Hdp]; [tauto | exact Hud |].
    split; [now left|]. intros [H|H]; [contradiction | congruence].
  - intros u. rewrite JsSetFacts.elem_of_add, elem_of_app, list_elem_of_singleton.
    intros [Hu|Hu] Hup; [|tauto]. apply Hnc; tauto.
  - intros x. rewrite JsSetFacts.elem_of_add. intros [H| ->]; auto.
Qed.

(** Leaving [n] after all its dependencies are finished. *)
Lemma dfs_inv_pop nodes st st2 n :
  dfs_inv nodes st -> n ∉ visited st ->
  dfs_inv nodes st2 -> path st2 = path st ++ [n] -> n ∈ visited st2 ->
  (forall d, dep_edge nodes n d -> d ∈ keys nodes -> d ∈ visited st2 /\ d ∉ path st2) ->
  dfs_inv nodes (mkDfs (visited st2) (JsSet.delete (recursionStack st2) n)
                       (removelast (path st2))).
Proof.
  intros Hinv Hv Hinv2 Hpath Hn2 Hdeps.
  assert (Hnp : n ∉ path st) by (intros H; apply Hv; now apply (dinv_path _ _ Hinv)).
  assert (Hin2 : forall x, x ∈ path st2 <-> x ∈ path st \/ x = n).
  { intros x. now rewrite Hpath, elem_of_app, list_elem_of_singleton. }
  assert (Hblack : forall u, u ∈ visited st2 -> u ∉ path st -> u <> n -> u ∉ path st2).
  { intros u _ Hup Hne H. apply Hin2 in H. tauto. }
  assert (Hnblack : forall d, edge_in nodes n d -> d ∈ visited st2 /\ d ∉ path st2).
  { intros d [Hd Hk]. auto. }
  destruct Hinv2 as [Hs2 Hp2 Hw2 Hc2 Hnc2 Hk2].
  constructor; simpl; rewrite ?Hpath, ?removelast_last.
  - intros x. rewrite JsSetFacts.elem_of_delete, Hs2, Hin2. split; [tauto|].
    intros H. split; [now left | congruence].
  - intros x Hx. apply Hp2, Hin2. now left.
  - rewrite Hpath in Hw2. eapply walk_app_l; eauto.
  - intros u d Hu Hup Hud. destruct (decide (u = n)) as [->|Hne].
    + destruct (Hnblack d Hud) as [Hd Hdp]. split; [exact Hd|].
      intros H. apply Hdp, Hin2. now left.
    + destruct (Hc2 u d Hu (Hblack u Hu Hup Hne) Hud) as [Hd Hdp].
      split; [exact Hd|]. intros H. apply Hdp, Hin2. now left.
  - intros u Hu Hup. destruct (decide (u = n)) as [->|Hne]; [|apply Hnc2; auto].
    intros Hcyc.
    assert (Hinv2 : dfs_inv nodes st2) by (constructor; assumption).
    assert (Hbad : n ∈ visited st2 /\ n ∉ path st2).
    { inversion Hcyc as [? ? Hr|? d ? Hr Hdn]; subst.
      - now apply Hnblack.
      - destruct (Hnblack d Hr) as [Hd Hdp]. eapply black_tc_closed; eauto. }
    destruct Hbad as [_ Hbad]. apply Hbad, Hin2. now right.
  - exact Hk2.
Qed.

Lemma dfs_spec nodes : forall fuel, rec_ok nodes fuel (dfs fuel nodes).
Proof.
  induction fuel as [|fuel IH]; intros st n Hinv Hn Hv Hwalk Hfuel.
  - exfalso. unfold unvisited in Hfuel.
    assert (Hin : n ∈ filter (fun k => k ∉ visited st) (keys nodes))
      by (apply list_elem_of_filter; auto).
    destruct (filter _ _); [inversion Hin | simpl in Hfuel; lia].
  - simpl.
    set (st1 := mkDfs (JsSet.add (visited st) n) (JsSet.add (recursionStack st) n)
                      (path st ++ [n])).
    pose proof (dfs_inv_push nodes st n Hinv Hn Hv Hwalk) as Hinv1. fold st1 in Hinv1.
    assert (Hmono1 : forall x, x ∈ visited st -> x ∈ visited st1).
    { intros x Hx. simpl. apply JsSetFacts.elem_of_add. now left. }
    assert (Hn1 : n ∈ visited st1) by (simpl; apply JsSetFacts.elem_of_add; now right).
    destruct (dfs_deps_spec nodes fuel (dfs fuel nodes) (path st) n IH Hn
                (default [] (get nodes n)) st1 Hinv1 eq_refl)
      as (st2 & r & -> & Hpost).
    { intros d Hd. destruct (key_get _ _ Hn) as (deps & Hget). rewrite Hget in Hd.
      exists deps. auto. }
    { pose proof (unvisited_strict_list (keys nodes) _ _ n Hmono1 Hn Hv Hn1).
      unfold unvisited in *. lia. }
    destruct r as [c|]; [exists st2, (Some c); auto|].
    destruct Hpost as (Hinv2 & Hpath2 & Hmono2 & Hblack2).
    eexists _, None. split; [reflexivity|]. simpl in Hpath2.
    split; [|split; [|split]].
    + apply (dfs_inv_pop nodes st st2 n); auto.
      intros d (deps & Hget & Hd) Hk. apply Hblack2; [|exact Hk]. now rewrite Hget.
    + simpl. rewrite Hpath2. apply removelast_last.
    + simpl. auto.
    + simpl. auto.
Qed.

(** The outer loop: a closed walk, or every node tried is finished. *)
Lemma detect_loop_spec nodes fuel :
  (length (keys nodes) <= fuel)%nat ->
  forall ks st,
    dfs_inv nodes st -> path st = [] -> (forall k, k ∈ ks -> k ∈ keys nodes) ->
    exists cycle, detect_loop fuel nodes st ks = Some cycle /\
      (closed_walk nodes cycle \/
       exists st', dfs_inv nodes st' /\ path st' = [] /\
                   (forall x, x ∈ visited st -> x ∈ visited st') /\
                   (forall k, k ∈ ks -> k ∈ visited st')).
Proof.
  intros Hfuel. induction ks as [|k rest IH]; intros st Hinv Hpath Hks; simpl.
  - eexists. split; [reflexivity|]. right. exists st.
    split; [exact Hinv|]. split; [exact Hpath|]. split; [auto|].
    intros k Hk. inversion Hk.
  - assert (Hrest : forall k', k' ∈ rest -> k' ∈ keys nodes) by (intros k' H; apply Hks; now right).
    assert (Hcont : forall st1, dfs_inv nodes st1 -> path st1 = [] ->
              (forall x, x ∈ visited st -> x ∈ visited st1) -> k ∈ visited st1 ->
              exists cycle, detect_loop fuel nodes st1 rest = Some cycle /\
                (closed_walk nodes cycle \/
                 exists st', dfs_inv nodes st' /\ path st' = [] /\
                   (forall x, x ∈ visited st -> x ∈ visited st') /\
                   (forall k', k' ∈ k :: rest -> k' ∈ visited st'))).
    { intros st1 Hinv1 Hpath1 Hmono1 Hk1.
      destruct (IH st1 Hinv1 Hpath1 Hrest) as (c & Hrun & Hc). exists c. split; [exact Hrun|].
      destruct Hc as [Hc|(st' & Hinv' & Hpath' & Hmono' & Hall)]; [now left | right].
      exists st'. split; [exact Hinv'|]. split; [exact Hpath'|]. split; [auto|].
      intros k' Hk'. apply elem_of_cons in Hk' as [->|Hk']; auto. }
    destruct (JsSet.has (visited st) k) eqn:Hv; simpl.
    + apply JsSetFacts.set_has_true in Hv. apply Hcont; auto.
    + apply JsSetFacts.set_has_false in Hv.
      destruct (dfs_spec nodes fuel st k Hinv) as (st1 & r & -> & Hpost).
      * apply Hks. left.
      * exact Hv.
      * rewrite Hpath. simpl. exact I.
      * unfold unvisited. pose proof (length_filter (fun k => k ∉ visited st) (keys nodes)). lia.
      * destruct r as [c|]; [exists c; auto|].
        destruct Hpost as (Hinv1 & Hpath1 & Hmono1 & Hk1). apply Hcont; auto. congruence.
Qed.

Lemma dfs_inv_initial nodes : dfs_inv nodes (mkDfs [] [] []).
Proof.
  constructor; simpl; try (intros; match goal with H : _ ∈ [] |- _ => inversion H end).
  - reflexivity.
  - exact I.
Qed.

(** On a map with a cycle the search returns a closed walk, never the
    fallback of line 126. *)
Lemma detectCycle_cyclic nodes :
  cyclic nodes -> exists cycle, detectCycle nodes = Some cycle /\ closed_walk nodes cycle.
Proof.
  intros (x & Hx). unfold detectCycle.
  destruct (detect_loop_spec nodes (S (size nodes))) with (ks := keys nodes)
    (st := mkDfs [] [] []) as (c & Hrun & Hc).
  - unfold size, keys. rewrite length_fmap. lia.
  - apply dfs_inv_initial.
  - reflexivity.
  - auto.
  - exists c. split; [exact Hrun|].
    destruct Hc as [Hc|(st' & Hinv' & Hpath' & _ & Hall)]; [exact Hc | exfalso].
    apply cycle_edge_in in Hx as [Hcyc Hk].
    apply (dinv_nocycle _ _ Hinv' x); [now apply Hall | | exact Hcyc].
    rewrite Hpath'. apply not_elem_of_nil.
Qed.

End DfsFacts.

(** ** topologicalSort on a map with a cycle *)

Module CycleFacts.
Import JsMap JsMapFacts Topological GraphSpec GraphFacts KahnLoop SortFacts DfsFacts.

Definition e2_nodes : depmap := [("a", ["b"]); ("b", ["a"])].

Lemma e2_nodes_NoDup : NoDup (keys e2_nodes).
Proof. apply (bool_decide_unpack _). vm_compute. exact I. Qed.

Lemma e2_nodes_cyclic : cyclic e2_nodes.
Proof.
  exists "a". apply (tc_l _ _ "b").
  - exists ["b"]. split; [reflexivity | left].
  - apply tc_once. exists ["a"]. split; [reflexivity | left].
Qed.

(** C2: on a dependency map with a cycle, [topologicalSort] (the first step
    of graph construction) raises [CyclicDependencyError] with a witness of
    length at least 2 in which each consecutive pair is a dependency edge and
    the first node equals the last. *)
Theorem cycle_completeness (nodes : depmap) :
  NoDup (keys nodes) -> cyclic nodes ->
  exists cycle,
    topologicalSort nodes = CyclicDependencyError cycle /\ closed_walk nodes cycle.
Proof.
  intros Hnd Hcyc.
  destruct (kahn_result nodes Hnd) as (res & Hloop & Hndr & Hsub & Hstuck & Hord).
  destruct (detectCycle_cyclic nodes Hcyc) as (cycle & Hdet & Hwalk).
  exists cycle. split; [|exact Hwalk].
  rewrite (topologicalSort_unfold nodes res Hloop), Hdet.
  destruct (Nat.eqb_spec (length res) (size nodes)) as [E|E]; [exfalso | reflexivity].
  apply (kahn_full_iff nodes res Hnd Hndr Hsub Hstuck Hord) in E.
  destruct Hcyc as (x & Hx). exact (E x Hx).
Qed.

Lemma cycle_completeness_witness :
  exists cycle,
    topologicalSort e2_nodes = CyclicDependencyError cycle /\ closed_walk e2_nodes cycle.
Proof.
  apply (cycle_completeness e2_nodes).
  - exact e2_nodes_NoDup.
  - exact e2_nodes_cyclic.
Defined.

End CycleFacts.

(** ** src/types: the task model consumed by the core *)

Module Types.

(** [CommandSpec]: a shell string, a list of shell strings, or a record. *)
Inductive CommandSpec :=
| CmdString (s : string)
| CmdList (l : list string)
| CmdObject (command : string) (args : option (list string))
            (cwd : option string) (shell : option bool).

Record TaskDefinition := mkTaskDefinition {
  td_command : CommandSpec;
  td_dependsOn : option (list Resolver.TaskDependency);
  td_env : option (list (string * string));   (* own keys in insertion order *)
  td_inputs : option (list string);
  td_outputs : option (list string);
  td_cache : option bool;
  td_cwd : option string;
  td_allowFailure : option bool;
  td_timeout : option Z
}.

Record ResolvedTask := mkResolvedTask {
  rt_id : string;
  rt_workspaceId : string;
  rt_name : string;
  rt_definition : TaskDefinition;
  rt_dependencies : list string
}.

(** [CockpitConfig]: the task table of one workspace; [tasks] is an object
    whose keys are the task names. *)
Record CockpitConfig := mkCockpitConfig {
  cc_tasks : list (string * TaskDefinition);
  cc_env : option (list (string * string))
}.

End Types.

(** ** The file system and the host libraries

    A path is the list of the segments handed to [path.join]; a relative
    path returned by the glob library counts as one segment.  What node:fs,
    fast-glob, JSON and node:crypto compute is not part of the repository:
    the [Host] class names those operations, and the statements say which of
    their laws they rely on. *)

Module Fs.

Definition path := list string.

Inductive node (Data : Type) :=
| Dir
| File (content : Data).
Arguments Dir {Data}.
Arguments File {Data} content.

Definition FS (Data : Type) := path -> option (node Data).

Fixpoint is_prefix (p q : path) : bool :=
match p, q with
| [], _ => true
| _ :: _, [] => false
| a :: p', b :: q' => String.eqb a b && is_prefix p' q'
end.

Fixpoint path_eqb (p q : path) : bool :=
match p, q with
| [], [] => true
| a :: p', b :: q' => String.eqb a b && path_eqb p' q'
| _, _ => false
end.

Section Ops.
Context {Data : Type}.

Definition empty : FS Data := fun _ => None.

(** [existsSync(p)] *)
Definition existsSync (fs : FS Data) (p : path) : bool :=
match fs p with Some _ => true | None => false end.

(** [rmSync(p, { recursive: true, force: true })] *)
Definition rmSync (p : path) (fs : FS Data) : FS Data :=
fun q => if is_prefix p q then None else fs q.

(** [mkdirSync(p, { recursive: true })]: missing ancestors become
    directories, existing nodes stay. *)
Definition mkdirSync (p : path) (fs : FS Data) : FS Data :=
fun q => if is_prefix q p then match fs q with None => Some Dir | n => n end else fs q.

(** [writeFileSync(p, d)], also the destination side of [cpSync]. *)
Definition writeFileSync (p : path) (d : Data) (fs : FS Data) : FS Data :=
fun q => if path_eqb q p then Some (File d) else fs q.

(** [readFileSync(p)]; [None] when it throws. *)
Definition readFileSync (fs : FS Data) (p : path) : option Data :=
match fs p with Some (File d) => Some d | _ => None end.

End Ops.
End Fs.

(** ** src/core/cache/store.ts *)

Module Cache.
Import Fs Types.

Record CachedFile := mkCachedFile {
  cf_relativePath : string;
  cf_size : Z
}.

Record RegistryEntry := mkRegistryEntry {
  re_inputHash : string;
  re_timestamp : Z;
  re_outputs : list string;
  re_cachedFiles : list CachedFile
}.

Inductive Stream := stdout | stderr.

Record OutputChunk := mkOutputChunk {
  oc_stream : Stream;
  oc_data : string
}.

Record CacheStoreOptions := mkCacheStoreOptions {
  opt_taskId : string;
  opt_inputHash : string;
  opt_outputs : list string;
  opt_workspacePath : path;
  opt_outputChunks : option (list OutputChunk)
}.

(** The libraries the cache and the hasher call. *)
Class Host (Data : Type) := {
  (** [fg.sync(patterns, { cwd, dot, ignore })]: relative paths of files *)
  fg : list string -> path -> bool -> list string -> FS Data -> list string;
  (** [statSync(p)]: modification time as ISO string and size; [None] when
      it throws *)
  statSync : FS Data -> path -> option (string * Z);
  (** [JSON.stringify] / [JSON.parse] at the three types stored on disk *)
  stringify_chunks : list OutputChunk -> Data;
  parse_chunks : Data -> option (list OutputChunk);
  stringify_registry : gmap string RegistryEntry -> Data;
  parse_registry : Data -> option (gmap string RegistryEntry);
  stringify_manifest : gmap string string -> Data;
  parse_manifest : Data -> option (gmap string string);
  (** [JSON.stringify] of the hashed task fields *)
  json_command : CommandSpec -> string;
  json_strings : list string -> string;
  json_env : list (string * string) -> string;
  (** [createHash("sha256").update(s).digest("hex")] *)
  sha256_hex : string -> string;
  (** [n.toString()] *)
  number_toString : Z -> string
}.

(** [JSON.parse(JSON.stringify(v))] gives [v] back for the plain data the
    store writes. *)
Record JsonLaws {Data} (H : Host Data) : Prop := {
  parse_stringify_chunks : forall c, parse_chunks (stringify_chunks c) = Some c;
  parse_stringify_registry : forall r, parse_registry (stringify_registry r) = Some r;
  parse_stringify_manifest : forall m, parse_manifest (stringify_manifest m) = Some m
}.

(** [taskId.replace(/:/g, "__")] *)
Fixpoint taskIdToDir (taskId : string) : string :=
match taskId with
| EmptyString => EmptyString
| String c r =>
  if Ascii.eqb c ":"%char then String "_"%char (String "_"%char (taskIdToDir r))
  else String c (taskIdToDir r)
end.

Section Store.
Context {Data : Type} {H : Host Data}.

(** The store object: its directory, the manifest held in memory, and the
    file system it works on. *)
Record CacheStore := mkCacheStore {
  cacheDir : path;
  manifest : gmap string string;
  fsys : FS Data
}.

Definition resultsDir (s : CacheStore) : path := cacheDir s ++ ["results"].
Definition manifestPath (s : CacheStore) : path := cacheDir s ++ ["manifest.json"].

Definition with_fs (s : CacheStore) (fs : FS Data) : CacheStore :=
mkCacheStore (cacheDir s) (manifest s) fs.

Definition with_manifest (s : CacheStore) (m : gmap string string) : CacheStore :=
mkCacheStore (cacheDir s) m (fsys s).

(** Lines 317-328 of the store, called by the constructor. *)
Definition loadManifest (s : CacheStore) : CacheStore :=
if negb (existsSync (fsys s) (manifestPath s)) then s
else match readFileSync (fsys s) (manifestPath s) with
     | Some d => match parse_manifest d with
                 | Some m => with_manifest s m
                 | None => with_manifest s ∅
                 end
     | None => with_manifest s ∅
     end.

(** [new CacheStore(rootDir)] *)
Definition new (rootDir : path) (fs : FS Data) : CacheStore :=
loadManifest (mkCacheStore (rootDir ++ [".cockpit"; ".cache"]) ∅ fs).

Definition saveManifest (s : CacheStore) : CacheStore :=
let fs1 := if negb (existsSync (fsys s) (cacheDir s))
           then mkdirSync (cacheDir s) (fsys s) else fsys s in
with_fs s (writeFileSync (manifestPath s) (stringify_manifest (manifest s)) fs1).

Definition getTaskDir (s : CacheStore) (taskId : string) : path :=
resultsDir s ++ [taskIdToDir taskId].

Definition getRegistryPath (s : CacheStore) (taskId : string) : path :=
getTaskDir s taskId ++ ["registry.json"].

Definition getHashDir (s : CacheStore) (taskId inputHash : string) : path :=
getTaskDir s taskId ++ [inputHash].

Definition loadRegistry (s : CacheStore) (taskId : string) : gmap string RegistryEntry :=
let registryPath := getRegistryPath s taskId in
if negb (existsSync (fsys s) registryPath) then ∅
else match readFileSync (fsys s) registryPath with
     | Some d => match parse_registry d with Some r => r | None => ∅ end
     | None => ∅
     end.

Definition saveRegistry (s : CacheStore) (taskId : string)
  (registry : gmap string RegistryEntry) : CacheStore :=
let taskDir := getTaskDir s taskId in
let fs1 := if negb (existsSync (fsys s) taskDir)
           then mkdirSync taskDir (fsys s) else fsys s in
with_fs s (writeFileSync (getRegistryPath s taskId) (stringify_registry registry) fs1).

(** [inputHash in registry.entries] *)
Definition has (s : CacheStore) (taskId inputHash : string) : bool :=
match loadRegistry s taskId !! inputHash with Some _ => true | None => false end.

Record CacheLookupResult := mkCacheLookupResult {
  found : bool;
  entry : option RegistryEntry;
  isActive : bool
}.

Definition lookup (s : CacheStore) (taskId inputHash : string) : CacheLookupResult :=
let entry := loadRegistry s taskId !! inputHash in
let activeHash := manifest s !! taskId in
mkCacheLookupResult (match entry with Some _ => true | None => false end) entry
                    (bool_decide (activeHash = Some inputHash)).

Definition getActiveHash (s : CacheStore) (taskId : string) : option string :=
manifest s !! taskId.

(** Lines 499-519 of [saveOutputFiles]: one matched file. A file that cannot
    be copied is skipped. *)
Definition saveOutputFile (outputsDir workspacePath : path)
  (st : list CachedFile * FS Data) (file : string) : list CachedFile * FS Data :=
let '(cachedFiles, fs) := st in
let sourcePath := workspacePath ++ [file] in
let destPath := outputsDir ++ [file] in
match readFileSync fs sourcePath with
| None => (cachedFiles, fs)
| Some d =>
  let destDir := removelast destPath in
  let fs1 := if negb (existsSync fs destDir) then mkdirSync destDir fs else fs in
  let fs2 := writeFileSync destPath d fs1 in
  match statSync fs2 sourcePath with
  | None => (cachedFiles, fs2)
  | Some (_, sz) => (cachedFiles ++ [mkCachedFile file sz], fs2)
  end
end.

Definition saveOutputFiles (outputsDir : path) (outputPatterns : list string)
  (workspacePath : path) (fs : FS Data) : list CachedFile * FS Data :=
if Nat.eqb (length outputPatterns) 0 then ([], fs)
else
  let files := fg outputPatterns workspacePath true
                  ["**/node_modules/**"; "**/.git/**"] fs in
  fold_left (saveOutputFile outputsDir workspacePath) files ([], fs).

(** [set(options)]; [now] is the value of [Date.now()]. *)
Definition set (now : Z) (options : CacheStoreOptions) (s : CacheStore) : CacheStore :=
let taskId := opt_taskId options in
let inputHash := opt_inputHash options in
let hashDir := getHashDir s taskId inputHash in
let outputsDir := hashDir ++ ["outputs"] in
let fs1 := if existsSync (fsys s) hashDir then rmSync hashDir (fsys s) else fsys s in
let fs2 := mkdirSync outputsDir fs1 in
let fs3 := match opt_outputChunks options with
           | Some chunks =>
             if (0 <? length chunks)%nat
             then writeFileSync (hashDir ++ ["output.json"]) (stringify_chunks chunks) fs2
             else fs2
           | None => fs2
           end in
let '(cachedFiles, fs4) :=
  saveOutputFiles outputsDir (opt_outputs options) (opt_workspacePath options) fs3 in
let s4 := with_fs s fs4 in
let registry := loadRegistry s4 taskId in
let registry' :=
  <[inputHash := mkRegistryEntry inputHash now (opt_outputs options) cachedFiles]> registry in
let s5 := saveRegistry s4 taskId registry' in
saveManifest (with_manifest s5 (<[taskId := inputHash]> (manifest s5))).


(** [hasOutputsOnDisk(taskId, inputHash, workspacePath)] *)
Definition hasOutputsOnDisk (s : CacheStore) (taskId inputHash : string)
  (workspacePath : path) : bool :=
let entry := loadRegistry s taskId !! inputHash in
match entry with
| None => true
| Some e =>
  if Nat.eqb (length (re_cachedFiles e)) 0 then true
  else forallb (fun file => existsSync (fsys s) (workspacePath ++ [cf_relativePath file]))
               (re_cachedFiles e)
end.

(** One file of the loop of [restoreOutputs]. *)
Definition restoreOutputFile (outputsDir workspacePath : path)
  (st : Z * FS Data) (file : CachedFile) : Z * FS Data :=
let '(restored, fs) := st in
let sourcePath := outputsDir ++ [cf_relativePath file] in
let destPath := workspacePath ++ [cf_relativePath file] in
if negb (existsSync fs sourcePath) then (restored, fs)
else match readFileSync fs sourcePath with
     | None => (restored, fs)
     | Some d =>
       let destDir := removelast destPath in
       let fs1 := if negb (existsSync fs destDir) then mkdirSync destDir fs else fs in
       (restored + 1, writeFileSync destPath d fs1)
     end.

(** [restoreOutputs(taskId, inputHash, workspacePath)] *)
Definition restoreOutputs (s : CacheStore) (taskId inputHash : string)
  (workspacePath : path) : Z * CacheStore :=
match loadRegistry s taskId !! inputHash with
| None => (-1, s)
| Some e =>
  if Nat.eqb (length (re_cachedFiles e)) 0 then (-1, s)
  else
    let outputsDir := getHashDir s taskId inputHash ++ ["outputs"] in
    if negb (existsSync (fsys s) outputsDir) then (-1, s)
    else
      let '(restored, fs1) :=
        fold_left (restoreOutputFile outputsDir workspacePath) (re_cachedFiles e)
                  (0, fsys s) in
      let s1 := with_fs s fs1 in
      if 0 <? restored
      then (restored, saveManifest (with_manifest s1 (<[taskId := inputHash]> (manifest s1))))
      else (restored, s1)
end.

(** [getOutputChunks(taskId, inputHash)]; [None] is [undefined]. *)
Definition getOutputChunks (s : CacheStore) (taskId inputHash : string)
  : option (list OutputChunk) :=
let outputPath := getHashDir s taskId inputHash ++ ["output.json"] in
if negb (existsSync (fsys s) outputPath) then None
else match readFileSync (fsys s) outputPath with
     | Some d => parse_chunks d
     | None => None
     end.

Definition clear (s : CacheStore) : CacheStore :=
let s1 := with_manifest s ∅ in
if existsSync (fsys s1) (cacheDir s1) then with_fs s1 (rmSync (cacheDir s1) (fsys s1)) else s1.

Definition listEntries (s : CacheStore) (taskId : string) : list RegistryEntry :=
(map_to_list (loadRegistry s taskId)).*2.

End Store.
Arguments CacheStore Data : clear implicits.
End Cache.

(** ** Facts about the file system operations *)

Module FsFacts.
Import Fs.

Lemma path_eqb_eq (p q : path) : path_eqb p q = true <-> p = q.
Proof.
  revert q. induction p as [|a p IH]; intros [|b q]; simpl; try (split; congruence).
  rewrite andb_true_iff, String.eqb_eq, IH. split; [intros [-> ->]; reflexivity|].
  intros [= -> ->]. auto.
Qed.

Lemma path_eqb_refl (p : path) : path_eqb p p = true.
Proof. now apply path_eqb_eq. Qed.

Lemma path_eqb_neq (p q : path) : p <> q -> path_eqb p q = false.
Proof.
  intros Hne. destruct (path_eqb p q) eqn:E; [|reflexivity].
  apply path_eqb_eq in E. contradiction.
Qed.

Lemma is_prefix_spec (p q : path) : is_prefix p q = true <-> exists r, q = p ++ r.
Proof.
  revert q. induction p as [|a p IH]; intros q; simpl.
  - split; [intros _; now exists q | reflexivity].
  - destruct q as [|b q]; [split; [discriminate | intros (r & E); discriminate E]|].
    rewrite andb_true_iff, String.eqb_eq, IH. split.
    + intros [-> (r & ->)]. now exists r.
    + intros (r & [= -> ->]). split; [reflexivity | now exists r].
Qed.

Lemma is_prefix_refl (p : path) : is_prefix p p = true.
Proof. apply is_prefix_spec. exists []. now rewrite app_nil_r. Qed.

Lemma is_prefix_app (p r : path) : is_prefix p (p ++ r) = true.
Proof. apply is_prefix_spec. now exists r. Qed.

Lemma is_prefix_longer (p q : path) : (length q < length p)%nat -> is_prefix p q = false.
Proof.
  intros Hlen. destruct (is_prefix p q) eqn:E; [|reflexivity].
  apply is_prefix_spec in E as (r & ->). rewrite length_app in Hlen. lia.
Qed.

(** Two different children of one directory: neither lies under the other. *)
Lemma is_prefix_sibling (d : path) (a b : string) (r : path) :
  a <> b -> is_prefix (d ++ [a]) (d ++ b :: r) = false.
Proof.
  intros Hne. destruct (is_prefix _ _) eqn:E; [|reflexivity].
  apply is_prefix_spec in E as (r' & E). rewrite <- app_assoc in E.
  apply app_inv_head in E. simpl in E. congruence.
Qed.

Section Ops.
Context {Data : Type}.
Implicit Types (fs : FS Data) (p q : path).

Lemma write_same fs p d : writeFileSync p d fs p = Some (File d).
Proof. unfold writeFileSync. now rewrite path_eqb_refl. Qed.

Lemma write_other fs p q d : q <> p -> writeFileSync p d fs q = fs q.
Proof. intros Hne. unfold writeFileSync. now rewrite path_eqb_neq. Qed.

Lemma mkdir_other fs p q : is_prefix q p = false -> mkdirSync p fs q = fs q.
Proof. intros Hp. unfold mkdirSync. now rewrite Hp. Qed.


Lemma rm_other fs p q : is_prefix p q = false -> rmSync p fs q = fs q.
Proof. intros Hp. unfold rmSync. now rewrite Hp. Qed.



End Ops.
End FsFacts.

(** ** A host for running the model

    File contents are tagged with the type they were serialised from, so
    parsing is the inverse of serialising by construction; the glob matches
    literal file names only; the digest is a constant.  Used to evaluate the
    operations on concrete stores. *)

Module RefHost.
Import Fs Types Cache.

Inductive data :=
| DChunks (c : list OutputChunk)
| DRegistry (r : gmap string RegistryEntry)
| DManifest (m : gmap string string)
| DRaw (s : string).

Definition zero_digest : string :=
"0000000000000000000000000000000000000000000000000000000000000000".

#[export] Instance host : Host data := {|
  fg := fun patterns cwd _ _ fs =>
          List.filter (fun f => existsSync fs (cwd ++ [f])) patterns;
  statSync := fun fs p => match fs p with
                          | Some (File _) => Some ("1970-01-01T00:00:00.000Z", 0)
                          | _ => None
                          end;
  stringify_chunks := DChunks;
  parse_chunks := fun d => match d with DChunks c => Some c | _ => None end;
  stringify_registry := DRegistry;
  parse_registry := fun d => match d with DRegistry r => Some r | _ => None end;
  stringify_manifest := DManifest;
  parse_manifest := fun d => match d with DManifest m => Some m | _ => None end;
  json_command := fun _ => "";
  json_strings := fun _ => "";
  json_env := fun _ => "";
  sha256_hex := fun _ => zero_digest;
  number_toString := fun _ => ""
|}.

Lemma host_laws : JsonLaws host.
Proof. constructor; reflexivity. Qed.

(** An empty cache below the repository root [/repo]. *)
Definition store0 : CacheStore data := Cache.new ["repo"] Fs.empty.

End RefHost.

(** ** Facts about the cache store *)

Module CacheFacts.
Import Fs FsFacts Types Cache.

Ltac by_length :=
  let E := fresh in
  intros E; apply (f_equal (@length string)) in E;
  repeat (rewrite ?length_app in E; simpl in E); lia.

(** An input hash as [hashTaskInputs] produces it: 16 hexadecimal digits. *)
Definition is_hex_digit (c : ascii) : bool :=
let n := nat_of_ascii c in
((48 <=? n) && (n <=? 57) || (97 <=? n) && (n <=? 102))%nat.

Fixpoint all_hex (s : string) : bool :=
match s with
| EmptyString => true
| String c r => is_hex_digit c && all_hex r
end.

Definition is_input_hash (h : string) : bool :=
Nat.eqb (String.length h) 16 && all_hex h.

Lemma is_input_hash_plain h : is_input_hash h = true -> h <> "" /\ h <> "registry.json".
Proof.
  unfold is_input_hash. intros Hh. apply andb_true_iff in Hh as [Hlen _].
  apply Nat.eqb_eq in Hlen. split; intros ->; discriminate Hlen.
Qed.

Section Store.
Context {Data : Type} {H : Host Data}.
Implicit Types (s : CacheStore Data) (fs : FS Data) (P : path).

Lemma saveManifest_frame s P :
  is_prefix P (cacheDir s) = false -> P <> manifestPath s ->
  fsys (saveManifest s) P = fsys s P.
Proof.
  intros Hp Hne. unfold saveManifest. simpl. rewrite write_other by exact Hne.
  destruct (existsSync (fsys s) (cacheDir s)); simpl; [reflexivity | now apply mkdir_other].
Qed.





Lemma loadRegistry_read s t reg :
  JsonLaws H ->
  fsys s (getRegistryPath s t) = Some (File (stringify_registry reg)) ->
  loadRegistry s t = reg.
Proof.
  intros Hlaws Hfile. unfold loadRegistry, existsSync, readFileSync. rewrite Hfile. simpl.
  now rewrite (parse_stringify_registry _ Hlaws).
Qed.


End Store.
End CacheFacts.

(** ** The cache store: replay, invalidation, outputs on disk *)

Module CacheCorrect.
Import Fs FsFacts Types Cache CacheFacts.

Section Store.
Context {Data : Type} {H : Host Data}.
Implicit Types (s : CacheStore Data).





(** C10: [hasOutputsOnDisk] answers [true] for a hash that has no registry
    entry, just as for an entry whose [cachedFiles] list is empty. *)
Theorem hasOutputsOnDisk_without_entry s (taskId inputHash : string) (workspacePath : path) :
  (has s taskId inputHash = false ->
   hasOutputsOnDisk s taskId inputHash workspacePath = true) /\
  (forall e, loadRegistry s taskId !! inputHash = Some e -> re_cachedFiles e = [] ->
   hasOutputsOnDisk s taskId inputHash workspacePath = true).
Proof.
  unfold has, hasOutputsOnDisk. split.
  - destruct (loadRegistry s taskId !! inputHash); [discriminate | reflexivity].
  - intros e -> ->. reflexivity.
Qed.

End Store.

(** *** Concrete stores *)

Import RefHost.


Definition hi_chunks : list OutputChunk :=
[mkOutputChunk stdout "hi"; mkOutputChunk stderr "warn"; mkOutputChunk stdout "done"].





Lemma hasOutputsOnDisk_without_entry_witness :
  has RefHost.store0 "web:build" "0123456789abcdef" = false /\
  hasOutputsOnDisk RefHost.store0 "web:build" "0123456789abcdef" ["repo"; "web"] = true.
Proof.
  split; [reflexivity|].
  apply (proj1 (hasOutputsOnDisk_without_entry RefHost.store0 "web:build"
                  "0123456789abcdef" ["repo"; "web"])).
  reflexivity.
Defined.

End CacheCorrect.

(** ** src/core/cache/hash.ts *)

Module Hash.
Import Fs Types Cache.

(** The order of [Array.prototype.sort] on strings: by code unit. *)
Definition string_le (a b : string) : Prop := String.leb a b = true.

#[export] Instance string_le_dec : RelDecision string_le.
Proof. intros a b. unfold string_le. apply _. Defined.

Section Hashing.
Context {Data : Type} {H : Host Data}.

Definition hash_ignore : list string :=
["**/node_modules/**"; "**/.git/**"; "**/dist/**"; "**/.cache/**"].

(** Lines 784-797: what one file feeds into the digest; a file that cannot
    be read is skipped. *)
Definition feed_file (baseDir : path) (fs : FS Data) (acc : string) (file : string) : string :=
match statSync fs (baseDir ++ [file]) with
| Some (mtime, size) => acc ++ file ++ mtime ++ number_toString size
| None => acc
end.

Definition hashFiles (patterns : list string) (baseDir : path) (fs : FS Data) : string :=
let files := fg patterns baseDir false hash_ignore fs in
let files := merge_sort string_le files in
sha256_hex (fold_left (feed_file baseDir fs) files "").

Definition hashTaskInputs (task : ResolvedTask) (workspacePath : path)
  (extraArgs : option (list string)) (fs : FS Data) : string :=
let definition := rt_definition task in
let command := json_command (td_command definition) in
let args := match extraArgs with
            | Some a => if (0 <? length a)%nat then json_strings a else ""
            | None => ""
            end in
let env := match td_env definition with
           | Some e => json_env e
           | None => ""
           end in
let inputHash :=
  match td_inputs definition with
  | Some inputs =>
    if (0 <? length inputs)%nat then hashFiles inputs workspacePath fs
    else hashFiles ["**/*"] workspacePath fs
  | None => hashFiles ["**/*"] workspacePath fs
  end in
JsString.take 16 (sha256_hex (command ++ args ++ env ++ inputHash)).

Definition hashString (value : string) : string :=
JsString.take 16 (sha256_hex value).

End Hashing.
End Hash.

Module HashFacts.
Import Fs Types Cache CacheFacts Hash.

Lemma ascii_compare_spec a b :
  match Ascii.compare a b with
  | Eq => a = b
  | Lt => (N_of_ascii a < N_of_ascii b)%N
  | Gt => (N_of_ascii b < N_of_ascii a)%N
  end.
Proof.
  unfold Ascii.compare.
  destruct (N.compare_spec (N_of_ascii a) (N_of_ascii b)) as [E|E|E]; auto.
  rewrite <- (ascii_N_embedding a), <- (ascii_N_embedding b). now rewrite E.
Qed.

Lemma string_leb_trans s1 : forall s2 s3,
  String.leb s1 s2 = true -> String.leb s2 s3 = true -> String.leb s1 s3 = true.
Proof.
  unfold String.leb.
  induction s1 as [|a1 r1 IH]; intros [|a2 r2] [|a3 r3]; simpl; try congruence.
  pose proof (ascii_compare_spec a1 a2) as H12.
  pose proof (ascii_compare_spec a2 a3) as H23.
  pose proof (ascii_compare_spec a1 a3) as H13.
  destruct (Ascii.compare a1 a2) eqn:E12, (Ascii.compare a2 a3) eqn:E23,
           (Ascii.compare a1 a3) eqn:E13; subst; try congruence; try lia;
    try (rewrite E13 in *; congruence); try (intros; reflexivity).
  apply IH.
Qed.

#[export] Instance string_le_trans : Transitive string_le.
Proof. intros a b c. apply string_leb_trans. Qed.

#[export] Instance string_le_total : Total string_le.
Proof. intros a b. apply String.leb_total. Qed.

#[export] Instance string_le_antisym : AntiSymm eq string_le.
Proof. intros a b. apply String.leb_antisym. Qed.





Section Hashing.
Context {Data : Type} {H : Host Data}.







End Hashing.

(** *** Two tasks that list the same input files in a different order *)

Import RefHost.





End HashFacts.

(** ** src/core/executor/process.ts and runner.ts *)

Module Runner.
Import Fs Types Cache Hash.

Record ProcessResult := mkProcessResult {
  pr_exitCode : option Z;   (* [null] when the child was killed by a signal *)
  pr_stdout : string;
  pr_stderr : string;
  pr_killed : bool
}.

Inductive Status := success | failed | skipped | cached.

#[export] Instance Status_eq_dec : EqDecision Status.
Proof. solve_decision. Defined.

Inductive TaskError :=
| TaskTimeoutError (taskId : string) (timeoutMs : Z)
| TaskExecutionError (taskId : string) (exitCode : option Z) (stderr : string)
| WorkspaceNotFound (workspaceId : string).

Record TaskResult := mkTaskResult {
  tr_taskId : string;
  tr_status : Status;
  tr_duration : Z;
  tr_output : option string;
  tr_error : option TaskError
}.

(** What the runner tells the logger; the message is kept structured. *)
Inductive LogMessage :=
| MsgTimeoutAfter (ms : Z)
| MsgExitAllowed (exitCode : option Z)
| MsgExit (exitCode : option Z)
| MsgIn (ms : Z)
| MsgRestored (files : Z)
| MsgDryRun.

Inductive LogEvent :=
| LogTask (taskId : string) (status : string) (message : option LogMessage)
| LogTaskStdout (taskId data : string)
| LogTaskStderr (taskId data : string)
| LogTaskOutput (taskId data : string).

Definition DEFAULT_TIMEOUT : Z := 300000.

(** [normalizeCommand(spec, extraArgs)] *)
Definition join_with (sep : string) (l : list string) : string :=
match l with
| [] => ""
| x :: r => fold_left (fun acc y : string => (acc ++ sep ++ y)%string) r x
end.

Definition normalizeCommand (spec : CommandSpec) (extraArgs : option (list string))
  : string * list string * bool :=
let extraArgsStr :=
  match extraArgs with
  | Some a => if (0 <? length a)%nat then (" " ++ join_with " " a)%string else ""
  | None => ""
  end in
match spec with
| CmdString s => ((s ++ extraArgsStr)%string, [], true)
| CmdList l =>
  let commands :=
    if (0 <? length l)%nat && negb (String.eqb extraArgsStr "")
    then removelast l ++ [(List.last l "" ++ extraArgsStr)%string] else l in
  (join_with " && " commands, [], true)
| CmdObject command args _ shell =>
  match extraArgs with
  | Some a =>
    if (0 <? length a)%nat
    then (command, default [] args ++ a, default true shell)
    else (command, default [] args, default true shell)
  | None => (command, default [] args, default true shell)
  end
end.

(** The child process itself: exit status, the chunks its two pipes
    delivered in order, and what it did to the files and the clock. *)
Class ProcessHost (Data : Type) := {
  child_process : string -> list string -> bool -> path -> list (string * string) -> Z ->
                  FS Data -> Z -> ProcessResult * list OutputChunk * FS Data * Z
}.

Record WorkspaceContext := mkWorkspaceContext {
  wc_root : path;                                   (* config.root.root *)
  wc_workspaces : list (string * path);             (* workspaces: id -> path *)
  wc_taskConfigs : list (string * CockpitConfig)    (* config.taskConfigs *)
}.

Record ExecutionContext := mkExecutionContext {
  ctx_workspaceContext : WorkspaceContext;
  ctx_env : list (string * string);
  ctx_force : bool;
  ctx_dryRun : bool;
  ctx_verbose : bool;
  ctx_cacheDir : option path;            (* the cache store, when there is one *)
  ctx_extraArgs : option (list string);
  ctx_mainTaskIds : option (list string)
}.

(** Everything a task run can change. *)
Record World (Data : Type) := mkWorld {
  w_fs : FS Data;
  w_manifest : gmap string string;   (* the manifest held by the cache store *)
  w_clock : Z;                       (* [Date.now()] *)
  w_log : list LogEvent
}.
Arguments mkWorld {Data}.
Arguments w_fs {Data}.
Arguments w_manifest {Data}.
Arguments w_clock {Data}.
Arguments w_log {Data}.

Section Run.
Context {Data : Type} {H : Host Data} {P : ProcessHost Data}.

Definition log (e : LogEvent) (w : World Data) : World Data :=
mkWorld (w_fs w) (w_manifest w) (w_clock w) (w_log w ++ [e]).

Definition store_of (cacheDir : path) (w : World Data) : CacheStore Data :=
mkCacheStore cacheDir (w_manifest w) (w_fs w).

Definition with_store (w : World Data) (s : CacheStore Data) : World Data :=
mkWorld (fsys s) (manifest s) (w_clock w) (w_log w).

(** Object spread [{ ...a, ...b }]. *)
Definition spread (a b : list (string * string)) : list (string * string) :=
fold_left (fun m '(k, v) => JsMap.set m k v) b a.

Definition chunk_event (taskId : string) (chunk : OutputChunk) : LogEvent :=
match oc_stream chunk with
| stdout => LogTaskStdout taskId (oc_data chunk)
| stderr => LogTaskStderr taskId (oc_data chunk)
end.

Definition log_chunks (taskId : string) (chunks : list OutputChunk) (w : World Data)
  : World Data :=
fold_left (fun w chunk => log (chunk_event taskId chunk) w) chunks w.

Definition replayCachedOutput (cacheDir : path) (taskId inputHash : string)
  (w : World Data) : World Data :=
match getOutputChunks (store_of cacheDir w) taskId inputHash with
| Some chunks => log_chunks taskId chunks w
| None => w
end.

(** [spawnProcess(spec, options)] *)
Definition spawnProcess (spec : CommandSpec) (cwd : path) (env : list (string * string))
  (timeout : Z) (extraArgs : option (list string)) (w : World Data)
  : ProcessResult * list OutputChunk * World Data :=
let '(command, args, shell) := normalizeCommand spec extraArgs in
let '(result, chunks, fs', clock') :=
  child_process command args shell cwd env timeout (w_fs w) (w_clock w) in
(result, chunks, mkWorld fs' (w_manifest w) clock' (w_log w)).

Definition handleProcessResult (task : ResolvedTask) (result : ProcessResult)
  (startTime : Z) (w : World Data) : TaskResult * World Data :=
let duration := w_clock w - startTime in
let output := Some (pr_stdout result ++ pr_stderr result)%string in
if pr_killed result then
  let error := TaskTimeoutError (rt_id task)
                 (default DEFAULT_TIMEOUT (td_timeout (rt_definition task))) in
  (mkTaskResult (rt_id task) failed duration output (Some error),
   log (LogTask (rt_id task) "failed" (Some (MsgTimeoutAfter duration))) w)
else if negb (bool_decide (pr_exitCode result = Some 0)) then
  if default false (td_allowFailure (rt_definition task)) then
    (mkTaskResult (rt_id task) success duration output None,
     log (LogTask (rt_id task) "success" (Some (MsgExitAllowed (pr_exitCode result)))) w)
  else
    let error := TaskExecutionError (rt_id task) (pr_exitCode result) (pr_stderr result) in
    (mkTaskResult (rt_id task) failed duration output (Some error),
     log (LogTask (rt_id task) "failed" (Some (MsgExit (pr_exitCode result)))) w)
else
  (mkTaskResult (rt_id task) success duration output None,
   log (LogTask (rt_id task) "success" (Some (MsgIn duration))) w).

(** Lines 155-204 of [runTask]: from "starting" on. *)
Definition execute (task : ResolvedTask) (context : ExecutionContext)
  (workspacePath cwd : path) (env : list (string * string)) (cacheEnabled : bool)
  (shouldAppendExtraArgs : bool) (inputHash : option string) (startTime : Z)
  (w : World Data) : TaskResult * World Data :=
let w := log (LogTask (rt_id task) "starting" None) w in
if ctx_dryRun context then
  (mkTaskResult (rt_id task) skipped (w_clock w - startTime) None None,
   log (LogTask (rt_id task) "skipped" (Some MsgDryRun)) w)
else
  let '(result, outputChunks, w) :=
    spawnProcess (td_command (rt_definition task)) cwd env
                 (default DEFAULT_TIMEOUT (td_timeout (rt_definition task)))
                 (if shouldAppendExtraArgs then ctx_extraArgs context else None) w in
  let w := log_chunks (rt_id task) outputChunks w in
  let '(taskResult, w) := handleProcessResult task result startTime w in
  match ctx_cacheDir context, inputHash with
  | Some cacheDir, Some h =>
    if cacheEnabled && bool_decide (tr_status taskResult = success) && negb (String.eqb h "")
    then
      (taskResult,
       with_store w
         (Cache.set (w_clock w)
            (mkCacheStoreOptions (rt_id task) h
               (default [] (td_outputs (rt_definition task))) workspacePath
               (Some outputChunks))
            (store_of cacheDir w)))
    else (taskResult, w)
  | _, _ => (taskResult, w)
  end.

Definition runTask (task : ResolvedTask) (context : ExecutionContext) (w : World Data)
  : TaskResult * World Data :=
let workspaceContext := ctx_workspaceContext context in
let shouldAppendExtraArgs :=
  match ctx_extraArgs context, ctx_mainTaskIds context with
  | Some extraArgs, Some mainTaskIds =>
    (0 <? length extraArgs)%nat && JsSet.has mainTaskIds (rt_id task)
  | _, _ => false
  end in
let startTime := w_clock w in
let workspacePath :=
  if negb (String.eqb (rt_workspaceId task) "")
  then JsMap.get (wc_workspaces workspaceContext) (rt_workspaceId task)
  else Some (wc_root workspaceContext) in
match workspacePath with
| None =>
  (mkTaskResult (rt_id task) failed 0 None (Some (WorkspaceNotFound (rt_workspaceId task))), w)
| Some workspacePath =>
  let cwd := match td_cwd (rt_definition task) with
             | Some c => if negb (String.eqb c "") then workspacePath ++ [c] else workspacePath
             | None => workspacePath
             end in
  let env :=
    spread (spread (ctx_env context)
                   (match JsMap.get (wc_taskConfigs workspaceContext) (rt_workspaceId task) with
                    | Some config => default [] (cc_env config)
                    | None => []
                    end))
           (default [] (td_env (rt_definition task))) in
  let cacheEnabled := negb (bool_decide (td_cache (rt_definition task) = Some false)) in
  let argsForHash := if shouldAppendExtraArgs then ctx_extraArgs context else None in
  match ctx_cacheDir context with
  | Some cacheDir =>
    if cacheEnabled then
      let inputHash := hashTaskInputs task workspacePath argsForHash (w_fs w) in
      if negb (ctx_force context) && Cache.has (store_of cacheDir w) (rt_id task) inputHash then
        if hasOutputsOnDisk (store_of cacheDir w) (rt_id task) inputHash workspacePath then
          let w := log (LogTask (rt_id task) "cached" None) w in
          let w := replayCachedOutput cacheDir (rt_id task) inputHash w in
          (mkTaskResult (rt_id task) cached (w_clock w - startTime) None None, w)
        else
          let '(restored, s) :=
            restoreOutputs (store_of cacheDir w) (rt_id task) inputHash workspacePath in
          let w := with_store w s in
          if 0 <? restored then
            let w := log (LogTask (rt_id task) "restored" (Some (MsgRestored restored))) w in
            let w := replayCachedOutput cacheDir (rt_id task) inputHash w in
            (mkTaskResult (rt_id task) cached (w_clock w - startTime) None None, w)
          else
            let w := if ctx_verbose context
                     then log (LogTaskOutput (rt_id task)
                                 "Cache hit but outputs missing, rebuilding...") w
                     else w in
            execute task context workspacePath cwd env cacheEnabled shouldAppendExtraArgs
                    (Some inputHash) startTime w
      else
        execute task context workspacePath cwd env cacheEnabled shouldAppendExtraArgs
                (Some inputHash) startTime w
    else
      execute task context workspacePath cwd env cacheEnabled shouldAppendExtraArgs
              None startTime w
  | None =>
    execute task context workspacePath cwd env cacheEnabled shouldAppendExtraArgs
            None startTime w
  end
end.

End Run.
End Runner.

(** ** The runner's reading of a process result *)

Module RunnerFacts.
Import Fs Types Cache Hash Runner.

Section Run.
Context {Data : Type} {H : Host Data} {P : ProcessHost Data}.

(** C7: [handleProcessResult] reads the process result in this order: killed
    gives [failed] with [TaskTimeoutError]; otherwise a non-zero exit code
    with [allowFailure] gives [success]; otherwise a non-zero exit code gives
    [failed] with [TaskExecutionError] carrying the exit code; exit code 0
    gives [success]. *)
Theorem handleProcessResult_cases (task : ResolvedTask) (result : ProcessResult)
  (startTime : Z) (w : World Data) :
  let r := (handleProcessResult task result startTime w).1 in
  tr_taskId r = rt_id task /\
  (pr_killed result = true ->
   tr_status r = failed /\
   tr_error r = Some (TaskTimeoutError (rt_id task)
                        (default DEFAULT_TIMEOUT (td_timeout (rt_definition task))))) /\
  (pr_killed result = false -> pr_exitCode result <> Some 0 ->
   td_allowFailure (rt_definition task) = Some true ->
   tr_status r = success /\ tr_error r = None) /\
  (pr_killed result = false -> pr_exitCode result <> Some 0 ->
   td_allowFailure (rt_definition task) <> Some true ->
   tr_status r = failed /\
   tr_error r = Some (TaskExecutionError (rt_id task) (pr_exitCode result) (pr_stderr result))) /\
  (pr_killed result = false -> pr_exitCode result = Some 0 ->
   tr_status r = success /\ tr_error r = None).
Proof.
  unfold handleProcessResult.
  destruct (pr_killed result) eqn:Hk; simpl.
  - repeat split; intros; congruence.
  - destruct (bool_decide (pr_exitCode result = Some 0)) eqn:Hz; simpl.
    + apply bool_decide_eq_true in Hz. repeat split; intros; congruence.
    + apply bool_decide_eq_false in Hz.
      destruct (td_allowFailure (rt_definition task)) as [[|]|] eqn:Ha; simpl;
        repeat split; intros; congruence.
Qed.

Lemma handleProcessResult_taskId task result startTime (w : World Data) :
  tr_taskId (handleProcessResult task result startTime w).1 = rt_id task.
Proof.
  unfold handleProcessResult. destruct (pr_killed result); [reflexivity|].
  destruct (negb _); [|reflexivity].
  destruct (default false _); reflexivity.
Qed.

Lemma execute_taskId task context workspacePath cwd env cacheEnabled append inputHash
  startTime (w : World Data) :
  tr_taskId (execute task context workspacePath cwd env cacheEnabled append inputHash
               startTime w).1 = rt_id task.
Proof.
  unfold execute. destruct (ctx_dryRun context); [reflexivity|].
  destruct (spawnProcess _ _ _ _ _ _) as [[result chunks] w1].
  pose proof (handleProcessResult_taskId task result startTime
                (log_chunks (rt_id task) chunks w1)) as Hid.
  destruct (handleProcessResult _ _ _ _) as [taskResult w2]. simpl in Hid.
  destruct (ctx_cacheDir context), inputHash; try exact Hid.
  destruct (_ && _); exact Hid.
Qed.

(** Every result of [runTask] carries the id of the task it ran. *)
Lemma runTask_taskId task context (w : World Data) :
  tr_taskId (runTask task context w).1 = rt_id task.
Proof.
  unfold runTask.
  destruct (if negb _ then _ else _) as [workspacePath|]; [|reflexivity].
  destruct (ctx_cacheDir context) as [cacheDir|]; [|apply execute_taskId].
  destruct (negb (bool_decide _)); [|apply execute_taskId].
  destruct (_ && _); [|apply execute_taskId].
  destruct (hasOutputsOnDisk _ _ _ _); [reflexivity|].
  destruct (restoreOutputs _ _ _ _) as [restored s].
  destruct (0 <? restored); [reflexivity | apply execute_taskId].
Qed.

End Run.

Definition killed_result : ProcessResult := mkProcessResult None "partial" "" true.

Definition sleep_task : ResolvedTask :=
mkResolvedTask ":sleep" "" "sleep"
  (mkTaskDefinition (CmdString "sleep 10") None None None None None None None (Some 50)) [].

Lemma handleProcessResult_cases_witness :
  pr_killed killed_result = true /\
  tr_status (handleProcessResult sleep_task killed_result 0
               (mkWorld (@Fs.empty RefHost.data) ∅ 60 [])).1 = failed /\
  tr_error (handleProcessResult sleep_task killed_result 0
              (mkWorld (@Fs.empty RefHost.data) ∅ 60 [])).1
  = Some (TaskTimeoutError ":sleep" 50).
Proof.
  split; [reflexivity|].
  apply (proj1 (proj2 (handleProcessResult_cases sleep_task killed_result 0
                         (mkWorld (@Fs.empty RefHost.data) ∅ 60 [])))).
  reflexivity.
Defined.

End RunnerFacts.

(** ** src/core/task/resolver.ts (with a context) and src/core/task/graph.ts *)

Module GraphBuilder.
Import Fs Types Resolver Runner Topological.

(** [getTaskDefinition]: [null] is [None]. *)
Definition getTaskDefinition (context : WorkspaceContext) (workspaceId taskName : string)
  : option TaskDefinition :=
match JsMap.get (wc_taskConfigs context) workspaceId with
| None => None
| Some config => JsMap.get (cc_tasks config) taskName
end.

Definition getAvailableTasks (context : WorkspaceContext) (workspaceId : string)
  : list string :=
match JsMap.get (wc_taskConfigs context) workspaceId with
| None => []
| Some config => JsMap.keys (cc_tasks config)
end.

(** Lines 171-189 of [resolveDependencies], one reference. *)
Definition resolveDependency (context : WorkspaceContext) (currentWorkspace : string)
  (acc : outcome (list string)) (dep : TaskDependency) : outcome (list string) :=
bind acc (fun resolved =>
  let ref := parseTaskReference dep currentWorkspace in
  let taskId := createTaskId (ref_workspaceId ref) (ref_taskName ref) in
  match getTaskDefinition context (ref_workspaceId ref) (ref_taskName ref) with
  | None => if negb (ref_optional ref) then TaskNotFoundError taskId None else Ok resolved
  | Some _ => Ok (resolved ++ [taskId])
  end).

Definition resolveDependencies (context : WorkspaceContext) (currentWorkspace : string)
  (deps : list TaskDependency) : outcome (list string) :=
fold_left (resolveDependency context currentWorkspace) deps (Ok []).

Definition resolveTask (context : WorkspaceContext) (workspaceId taskName : string)
  : outcome ResolvedTask :=
match getTaskDefinition context workspaceId taskName with
| None =>
  TaskNotFoundError (createTaskId workspaceId taskName)
                    (Some (getAvailableTasks context workspaceId))
| Some definition =>
  bind (resolveDependencies context workspaceId (default [] (td_dependsOn definition)))
       (fun dependencies =>
          Ok (mkResolvedTask (createTaskId workspaceId taskName) workspaceId taskName
                             definition dependencies))
end.

Record TaskGraph := mkTaskGraph {
  tasks : list (string * ResolvedTask);
  executionOrder : list string;
  parallelLevels : list (list string);
  rootTasks : list string
}.

(** Lines 45-64 of [buildTaskGraph]: the breadth-first collection of the
    tasks; [OutOfFuel] when the fuel is spent. *)
Fixpoint collect (fuel : nat) (context : WorkspaceContext)
  (tasks : list (string * ResolvedTask)) (visited queue : list string)
  : outcome (list (string * ResolvedTask)) :=
match fuel with
| O => OutOfFuel
| S fuel' =>
  match queue with
  | [] => Ok tasks
  | taskId :: queue' =>
    if JsSet.has visited taskId then collect fuel' context tasks visited queue'
    else
      let visited' := JsSet.add visited taskId in
      let '(workspaceId, taskName) := parseTaskId taskId in
      bind (resolveTask context workspaceId taskName) (fun resolved =>
        let tasks' := JsMap.set tasks taskId resolved in
        let queue'' :=
          fold_left (fun q depId => if negb (JsSet.has visited' depId) then q ++ [depId] else q)
                    (rt_dependencies resolved) queue' in
        collect fuel' context tasks' visited' queue'')
  end
end.

(** Lines 67-70 of [buildTaskGraph]: the dependency map of the task map. *)
Definition depMapOf (tasks : list (string * ResolvedTask)) : depmap :=
fold_left (fun depMap '(id, task) => JsMap.set depMap id (rt_dependencies task)) tasks [].

(** Lines 66-80: what the graph constructors do once the task map is
    collected. *)
Definition assemble (tasks : list (string * ResolvedTask)) (rootTasks : list string)
  : outcome TaskGraph :=
let depMap := depMapOf tasks in
bind (topologicalSort depMap) (fun executionOrder =>
bind (getParallelLevels depMap) (fun parallelLevels =>
Ok (mkTaskGraph tasks executionOrder parallelLevels rootTasks))).

(** [buildTaskGraph(context, targetWorkspace, targetTask)] *)
Definition buildTaskGraph (fuel : nat) (context : WorkspaceContext)
  (targetWorkspace targetTask : string) : outcome TaskGraph :=
let rootTaskId := createTaskId targetWorkspace targetTask in
bind (collect fuel context [] [] [rootTaskId]) (fun tasks => assemble tasks [rootTaskId]).

(** [buildMultiWorkspaceTaskGraph(context, workspaceIds, taskName)] *)
Definition buildMultiWorkspaceTaskGraph (fuel : nat) (context : WorkspaceContext)
  (workspaceIds : list string) (taskName : string) : outcome TaskGraph :=
let rootTasks :=
  map (fun wsId => createTaskId wsId taskName)
      (List.filter (fun wsId => match getTaskDefinition context wsId taskName with
                                | Some _ => true
                                | None => false
                                end) workspaceIds) in
bind (collect fuel context [] [] rootTasks) (fun tasks => assemble tasks rootTasks).

End GraphBuilder.

(** ** What the graph constructors return *)

Module GraphBuilderFacts.
Import Fs Types Resolver Runner Topological GraphBuilder JsString JsMapFacts.

(** A graph put together by lines 66-80 from a task map whose keys are the
    ids of its tasks. *)
Definition assembled (graph : TaskGraph) : Prop :=
NoDup (JsMap.keys (tasks graph)) /\
Forall (fun '(k, t) => rt_id t = k) (tasks graph) /\
assemble (tasks graph) (rootTasks graph) = Ok graph.

Lemma indexOf_from_found c s : forall i,
  contains c s = true -> 0 <= i -> i <= indexOf_from c s i.
Proof.
  induction s as [|a r IH]; intros i Hc Hi; simpl in *; [discriminate|].
  destruct (Ascii.eqb a c); [lia|]. simpl in Hc. specialize (IH (i + 1) Hc). lia.
Qed.

(** Cutting a string at its first [c] and gluing the parts with [c] gives the
    string back. *)
Lemma take_drop_indexOf c s :
  contains c s = true ->
  (take (Z.to_nat (indexOf s c)) s ++ String c (drop (Z.to_nat (indexOf s c + 1)) s))%string = s.
Proof.
  unfold indexOf. induction s as [|a r IH]; intros Hc; simpl in *; [discriminate|].
  destruct (Ascii.eqb_spec a c) as [->|Hne]; [reflexivity|]. simpl in Hc.
  rewrite indexOf_from_shift by lia.
  pose proof (indexOf_from_found c r 0 Hc) as Hpos.
  destruct (Z.eqb_spec (indexOf_from c r 0) (-1)) as [E|_]; [lia|].
  replace (Z.to_nat (indexOf_from c r 0 + (0 + 1))) with (S (Z.to_nat (indexOf_from c r 0))) by lia.
  replace (Z.to_nat (indexOf_from c r 0 + (0 + 1) + 1))
    with (S (Z.to_nat (indexOf_from c r 0 + 1))) by lia.
  cbn [take drop]. etransitivity; [|apply (f_equal (String a) (IH Hc))]. reflexivity.
Qed.

Lemma createTaskId_colon ws name : contains colon (createTaskId ws name) = true.
Proof.
  unfold createTaskId. induction ws as [|a r IH]; simpl; [reflexivity|].
  rewrite IH. apply orb_true_r.
Qed.

(** For an id that holds a colon, [resolveTask] on its parsed parts builds
    the same id again. *)
Lemma createTaskId_parseTaskId taskId :
  contains colon taskId = true ->
  createTaskId (parseTaskId taskId).1 (parseTaskId taskId).2 = taskId.
Proof.
  intros Hc. unfold parseTaskId.
  pose proof (indexOf_from_found colon taskId 0 Hc) as Hpos. fold (indexOf taskId colon) in Hpos.
  destruct (Z.eqb_spec (indexOf taskId colon) (-1)) as [E|_]; [lia|].
  simpl. unfold createTaskId, slice_to, slice_from. now apply take_drop_indexOf.
Qed.

Lemma resolveDependencies_colon context ws deps : forall acc l,
  (forall l0, acc = Ok l0 -> Forall (fun id => contains colon id = true) l0) ->
  fold_left (resolveDependency context ws) deps acc = Ok l ->
  Forall (fun id => contains colon id = true) l.
Proof.
  induction deps as [|d r IH]; intros acc l Hacc Hfold; simpl in Hfold; [now apply Hacc|].
  apply (IH _ l) in Hfold; [exact Hfold|].
  intros l0 Hl0. destruct acc as [resolved| | |]; simpl in Hl0; try discriminate.
  specialize (Hacc resolved eq_refl).
  destruct (getTaskDefinition _ _ _).
  - injection Hl0 as <-. apply Forall_app. split; [exact Hacc|].
    repeat constructor. apply createTaskId_colon.
  - destruct (negb _); [discriminate | injection Hl0 as <-; exact Hacc].
Qed.

Lemma resolveTask_spec context ws name t :
  resolveTask context ws name = Ok t ->
  rt_id t = createTaskId ws name /\
  Forall (fun id => contains colon id = true) (rt_dependencies t).
Proof.
  unfold resolveTask. destruct (getTaskDefinition context ws name) as [definition|]; [|discriminate].
  destruct (resolveDependencies _ _ _) as [deps| | |] eqn:Hdeps; simpl; try discriminate.
  intros [= <-]. simpl. split; [reflexivity|].
  apply (resolveDependencies_colon _ _ _ (Ok []) deps) in Hdeps; [exact Hdeps|].
  intros l0 [= <-]. constructor.
Qed.

Lemma set_NoDup {V} (m : list (string * V)) k v :
  NoDup (JsMap.keys m) -> NoDup (JsMap.keys (JsMap.set m k v)).
Proof.
  intros Hnd. rewrite keys_set. destruct (JsMap.has m k) eqn:E; [exact Hnd|].
  apply map_has_false in E. apply NoDup_app. repeat split; [exact Hnd | | apply NoDup_singleton].
  intros x Hx Hx'. apply list_elem_of_singleton in Hx' as ->. contradiction.
Qed.

Lemma set_Forall {V} (Q : string -> V -> Prop) (m : list (string * V)) k v :
  Forall (fun '(k, v) => Q k v) m -> Q k v ->
  Forall (fun '(k, v) => Q k v) (JsMap.set m k v).
Proof.
  intros Hm Hkv. induction m as [|[k' v'] r IH]; simpl.
  - repeat constructor. exact Hkv.
  - apply Forall_cons in Hm as [Hh Ht].
    destruct (String.eqb_spec k' k) as [->|Hne]; constructor; auto.
Qed.

Lemma collect_spec context : forall fuel tasks visited queue result,
  NoDup (JsMap.keys tasks) -> Forall (fun '(k, t) => rt_id t = k) tasks ->
  Forall (fun id => contains colon id = true) queue ->
  collect fuel context tasks visited queue = Ok result ->
  NoDup (JsMap.keys result) /\ Forall (fun '(k, t) => rt_id t = k) result.
Proof.
  induction fuel as [|fuel IH]; intros tasks visited queue result Hnd Hids Hq Hrun;
    simpl in Hrun; [discriminate|].
  destruct queue as [|taskId queue']; [injection Hrun as <-; auto|].
  apply Forall_cons in Hq as [Hc Hq].
  destruct (JsSet.has visited taskId); [eapply IH; eauto|].
  pose proof (createTaskId_parseTaskId taskId Hc) as Hid.
  destruct (parseTaskId taskId) as [workspaceId taskName]. simpl in Hid.
  destruct (resolveTask context workspaceId taskName) as [resolved| | |] eqn:Hres;
    simpl in Hrun; try discriminate.
  apply resolveTask_spec in Hres as [Hrid Hdeps].
  eapply IH; [| | |exact Hrun].
  - now apply set_NoDup.
  - apply (set_Forall (fun k t => rt_id t = k)); [exact Hids | congruence].
  - clear Hrun. revert Hq. generalize queue' as q.
    induction Hdeps as [|d ds Hd Hds IHd]; intros q Hq; simpl; [exact Hq|].
    apply IHd. destruct (negb _); [|exact Hq].
    apply Forall_app. split; [exact Hq | repeat constructor; exact Hd].
Qed.

Lemma assemble_fields tasks rootTasks graph :
  assemble tasks rootTasks = Ok graph ->
  GraphBuilder.tasks graph = tasks /\ GraphBuilder.rootTasks graph = rootTasks.
Proof.
  unfold assemble. destruct (topologicalSort _); simpl; try discriminate.
  destruct (getParallelLevels _); simpl; try discriminate.
  intros [= <-]. auto.
Qed.

Lemma collected_assembled fuel context rootTasks graph :
  Forall (fun id => contains colon id = true) rootTasks ->
  bind (collect fuel context [] [] rootTasks) (fun tasks => assemble tasks rootTasks) = Ok graph ->
  assembled graph.
Proof.
  intros Hroots Hrun.
  destruct (collect fuel context [] [] rootTasks) as [tasks| | |] eqn:Hcol;
    simpl in Hrun; try discriminate.
  apply collect_spec in Hcol as [Hnd Hids]; [|constructor | constructor | exact Hroots].
  destruct (assemble_fields _ _ _ Hrun) as [Ht Hr]. unfold assembled. rewrite Ht, Hr. auto.
Qed.

(** The graphs of [buildTaskGraph] and [buildMultiWorkspaceTaskGraph] are
    assembled from a task map keyed by the ids of its tasks. *)
Lemma buildTaskGraph_assembled fuel context targetWorkspace targetTask graph :
  buildTaskGraph fuel context targetWorkspace targetTask = Ok graph -> assembled graph.
Proof.
  apply collected_assembled. repeat constructor. apply createTaskId_colon.
Qed.

Lemma buildMultiWorkspaceTaskGraph_assembled fuel context workspaceIds taskName graph :
  buildMultiWorkspaceTaskGraph fuel context workspaceIds taskName = Ok graph ->
  assembled graph.
Proof.
  apply collected_assembled. apply Forall_forall. intros id Hid.
  apply list_elem_of_fmap in Hid as (ws & -> & _). apply createTaskId_colon.
Qed.

End GraphBuilderFacts.

(** ** src/core/executor/scheduler.ts *)

Module Scheduler.
Import Fs Types Cache Hash Runner Topological GraphBuilder.

(** [concurrency] is the size of the limiter, a count of at least one. *)
Record SchedulerOptions := mkSchedulerOptions {
  concurrency : positive;
  continueOnError : bool
}.

Definition skippedResult (taskId : string) : TaskResult :=
mkTaskResult taskId skipped 0 None None.

Section Schedule.
Context {Data : Type}.

(** The locals of [scheduleTasks] together with the world. *)
Record sched := mkSched {
  results : list TaskResult;
  completedTasks : list string;
  failedTasks : list string;
  world : World Data
}.

(** The task runner the scheduler awaits. *)
Variable run : ResolvedTask -> ExecutionContext -> World Data -> TaskResult * World Data.

Variable graph : TaskGraph.
Variable context : ExecutionContext.
Variable options : SchedulerOptions.

(** Lines 52-63, one task of the level; [None] when [graph.tasks.get]
    yields [undefined] and the next property access throws. *)
Definition classify (failed : list string) (acc : option (list string * list string))
  (taskId : string) : option (list string * list string) :=
match acc with
| None => None
| Some (runnableTasks, skippedTasks) =>
  match JsMap.get (tasks graph) taskId with
  | None => None
  | Some task =>
    let hasFailedDep := existsb (JsSet.has failed) (rt_dependencies task) in
    if hasFailedDep && negb (continueOnError options)
    then Some (runnableTasks, skippedTasks ++ [taskId])
    else Some (runnableTasks ++ [taskId], skippedTasks)
  end
end.

(** Lines 75-88, one runnable task.  The limiter starts the tasks in this
    order and [Promise.all] reports their results in this order.  With a
    limiter larger than one the children overlap in time; what a run then
    sees and leaves behind is part of what [run] stands for.  The result list
    and the two sets depend on the results only. *)
Definition run_one (acc : option (list TaskResult * sched)) (taskId : string)
  : option (list TaskResult * sched) :=
match acc with
| None => None
| Some (levelResults, st) =>
  match JsMap.get (tasks graph) taskId with
  | None => None
  | Some task =>
    let '(result, w) := run task context (world st) in
    let completed :=
      if bool_decide (tr_status result = success) || bool_decide (tr_status result = cached)
      then JsSet.add (completedTasks st) taskId else completedTasks st in
    let failedSet :=
      if bool_decide (tr_status result = success) || bool_decide (tr_status result = cached)
      then failedTasks st
      else if bool_decide (tr_status result = failed)
           then JsSet.add (failedTasks st) taskId else failedTasks st in
    Some (levelResults ++ [result], mkSched (results st) completed failedSet w)
  end
end.

Definition push_results (st : sched) (new : list TaskResult) : sched :=
mkSched (results st ++ new) (completedTasks st) (failedTasks st) (world st).

(** Lines 34-92: the loop over the levels. *)
Fixpoint schedule_levels (levels : list (list string)) (st : sched) : option sched :=
match levels with
| [] => Some st
| level :: rest =>
  if negb (continueOnError options) && (0 <? length (failedTasks st))%nat then
    schedule_levels rest (push_results st (map skippedResult level))
  else
    match fold_left (classify (failedTasks st)) level (Some ([], [])) with
    | None => None
    | Some (runnableTasks, skippedTasks) =>
      let st := push_results st (map skippedResult skippedTasks) in
      match fold_left run_one runnableTasks (Some ([], st)) with
      | None => None
      | Some (levelResults, st) => schedule_levels rest (push_results st levelResults)
      end
    end
end.

Definition schedule_with (w : World Data) : option (list TaskResult * World Data) :=
match schedule_levels (parallelLevels graph) (mkSched [] [] [] w) with
| None => None
| Some st => Some (results st, world st)
end.

End Schedule.

(** [scheduleTasks(graph, context, options)] *)
Definition scheduleTasks {Data : Type} {H : Host Data} {P : ProcessHost Data}
  (graph : TaskGraph) (context : ExecutionContext) (options : SchedulerOptions)
  (w : World Data) : option (list TaskResult * World Data) :=
schedule_with runTask graph context options w.

End Scheduler.

(** ** Facts about the scheduler *)

Module SchedulerFacts.
Import Fs Types Cache Hash Runner Topological GraphBuilder Scheduler.
Import JsMapFacts GraphSpec GraphFacts KahnCount LevelsFacts SortFacts.

(** *** The dependency map of a task map *)

Lemma set_fresh {V} (m : list (string * V)) k v :
  k ∉ JsMap.keys m -> JsMap.set m k v = m ++ [(k, v)].
Proof.
  induction m as [|[k' v'] r IH]; simpl; intros Hk; [reflexivity|].
  apply not_elem_of_cons in Hk as [Hne Hk].
  destruct (String.eqb_spec k' k); [congruence|]. now rewrite IH.
Qed.

Lemma depMap_fold (l : list (string * ResolvedTask)) : forall acc : depmap,
  NoDup (JsMap.keys acc ++ JsMap.keys l) ->
  fold_left (fun depMap '(id, task) => JsMap.set depMap id (rt_dependencies task)) l acc
  = acc ++ map (fun '(id, task) => (id, rt_dependencies task)) l.
Proof.
  induction l as [|[k t] r IH]; intros acc Hnd; simpl.
  - now rewrite app_nil_r.
  - assert (Hk : k ∉ JsMap.keys acc).
    { apply NoDup_app in Hnd as (_ & Hd & _). intros Hin. apply (Hd k Hin). left. }
    rewrite (set_fresh acc k _ Hk), IH.
    + now rewrite <- app_assoc.
    + unfold JsMap.keys in *. rewrite fmap_app. simpl. now rewrite <- app_assoc.
Qed.

Lemma depMapOf_map tasks :
  NoDup (JsMap.keys tasks) ->
  depMapOf tasks = map (fun '(id, task) => (id, rt_dependencies task)) tasks.
Proof. intros Hnd. unfold depMapOf. now rewrite depMap_fold. Qed.

Lemma depMapOf_keys tasks :
  NoDup (JsMap.keys tasks) -> JsMap.keys (depMapOf tasks) = JsMap.keys tasks.
Proof.
  intros Hnd. rewrite (depMapOf_map tasks Hnd). unfold JsMap.keys.
  rewrite <- list_fmap_compose. apply list_fmap_ext. intros i [k t] _. reflexivity.
Qed.

(** *** The level of a task *)

Fixpoint level_index (levels : list (list string)) (x : string) : nat :=
match levels with
| [] => 0
| level :: rest => if JsSet.has level x then 0 else S (level_index rest x)
end.

Lemma level_index_prefix e rest x :
  x ∈ concat e -> (level_index (e ++ rest) x < length e)%nat.
Proof.
  induction e as [|lv e IH]; simpl; intros Hx; [inversion Hx|].
  destruct (JsSet.has lv x) eqn:E; [lia|].
  apply JsSetFacts.set_has_false in E. apply elem_of_app in Hx as [Hx|Hx]; [contradiction|].
  specialize (IH Hx). lia.
Qed.

Lemma level_index_split levels x :
  x ∈ concat levels ->
  exists e lv la, levels = e ++ lv :: la /\ x ∈ lv /\ level_index levels x = length e.
Proof.
  induction levels as [|lv rest IH]; simpl; intros Hx; [inversion Hx|].
  destruct (JsSet.has lv x) eqn:E.
  - apply JsSetFacts.set_has_true in E. now exists [], lv, rest.
  - apply JsSetFacts.set_has_false in E. apply elem_of_app in Hx as [Hx|Hx]; [contradiction|].
    destruct (IH Hx) as (e & lv' & la & Hs & Hin & Hidx).
    exists (lv :: e), lv', la.
    split; [simpl; now rewrite <- Hs | split; [exact Hin | simpl; now rewrite Hidx]].
Qed.

Lemma level_index_edge nodes levels v d :
  levels_respect_deps nodes levels -> v ∈ concat levels -> edge_in nodes v d ->
  (level_index levels d < level_index levels v)%nat.
Proof.
  intros Hresp Hv Hedge.
  destruct (level_index_split levels v Hv) as (e & lv & la & -> & Hin & ->).
  apply level_index_prefix. eapply Hresp; eauto.
Qed.

(** A task lies in a strictly later level than each of its transitive
    dependencies. *)
Lemma level_index_tc nodes levels y x :
  levels_respect_deps nodes levels ->
  (forall k, k ∈ JsMap.keys nodes -> k ∈ concat levels) ->
  tc (edge_in nodes) y x ->
  (level_index levels x < level_index levels y)%nat.
Proof.
  intros Hresp Hcover Hyx. induction Hyx as [y x Hr|y m x Hr _ IH].
  - apply (level_index_edge nodes); auto. apply Hcover. eapply dep_edge_source, Hr.
  - assert (level_index levels m < level_index levels y)%nat; [|lia].
    apply (level_index_edge nodes); auto. apply Hcover. eapply dep_edge_source, Hr.
Qed.

Lemma add_nonempty s x : JsSet.add s x <> [].
Proof.
  unfold JsSet.add. destruct (JsSet.has s x) eqn:E.
  - apply JsSetFacts.set_has_true in E. intros ->. inversion E.
  - destruct s; discriminate.
Qed.

(** *** One level *)

Section Schedule.
Context {Data : Type}.
Variable run : ResolvedTask -> ExecutionContext -> World Data -> TaskResult * World Data.
Hypothesis run_taskId : forall task context w, tr_taskId (run task context w).1 = rt_id task.
Variable graph : TaskGraph.
Variable context : ExecutionContext.
Variable options : SchedulerOptions.

(** Every id of the list is a key whose task carries that id. *)
Definition known (ids : list string) : Prop :=
forall x, x ∈ ids -> exists t, JsMap.get (tasks graph) x = Some t /\ rt_id t = x.

Lemma classify_spec failed level : forall runnable skippedTasks,
  known level ->
  exists runnable' skipped',
    fold_left (classify graph options failed) level (Some (runnable, skippedTasks))
    = Some (runnable ++ runnable', skippedTasks ++ skipped') /\
    runnable' ++ skipped' ≡ₚ level.
Proof.
  induction level as [|x r IH]; intros runnable skippedTasks Hk; simpl.
  - exists [], []. now rewrite !app_nil_r.
  - destruct (Hk x) as (t & Ht & _); [left|]. rewrite Ht.
    assert (Hr : known r) by (intros y Hy; apply Hk; now right).
    destruct (_ && _).
    + destruct (IH runnable (skippedTasks ++ [x]) Hr) as (r' & s' & -> & Hp).
      exists r', (x :: s'). rewrite <- app_assoc. split; [reflexivity|].
      rewrite <- Hp. now rewrite Permutation_middle.
    + destruct (IH (runnable ++ [x]) skippedTasks Hr) as (r' & s' & -> & Hp).
      exists (x :: r'), s'. rewrite <- app_assoc. split; [reflexivity|].
      simpl. now rewrite Hp.
Qed.

Lemma run_level_spec runnable : forall levelResults st,
  known runnable ->
  exists new st',
    fold_left (run_one run graph context) runnable (Some (levelResults, st))
    = Some (levelResults ++ new, st') /\
    results st' = results st /\
    map tr_taskId new = runnable /\
    (failedTasks st <> [] -> failedTasks st' <> []) /\
    (forall r, r ∈ new -> tr_status r = failed -> failedTasks st' <> []).
Proof.
  induction runnable as [|x r IH]; intros levelResults st Hk; simpl.
  - exists [], st. rewrite app_nil_r. repeat split; auto. intros r Hr. inversion Hr.
  - destruct (Hk x) as (t & Ht & Hid); [left|]. rewrite Ht.
    assert (Hr : known r) by (intros y Hy; apply Hk; now right).
    pose proof (run_taskId t context (world st)) as Hrun.
    destruct (run t context (world st)) as [result w]. simpl in Hrun.
    match goal with
    | |- context [fold_left _ r (Some (_, ?s))] =>
      destruct (IH (levelResults ++ [result]) s Hr)
        as (new & st' & -> & Hres & Hids & Hmono & Hfail);
      assert (Hstep : tr_status result = failed -> failedTasks s <> [])
    end.
    { intros Hf. simpl. rewrite Hf. simpl. apply add_nonempty. }
    assert (Hkeep : failedTasks st <> [] ->
              (if bool_decide (tr_status result = success) || bool_decide (tr_status result = cached)
               then failedTasks st
               else if bool_decide (tr_status result = failed)
                    then JsSet.add (failedTasks st) x else failedTasks st) <> []).
    { intros Hne. destruct (_ || _); [exact Hne|].
      destruct (bool_decide _); [apply add_nonempty | exact Hne]. }
    exists (result :: new), st'. rewrite <- app_assoc. split; [reflexivity|].
    split; [exact Hres|]. split; [simpl; congruence|]. split.
    + intros Hne. apply Hmono. simpl. now apply Hkeep.
    + intros r0 Hr0 Hf. apply elem_of_cons in Hr0 as [->|Hr0]; [|eauto].
      apply Hmono, Hstep, Hf.
Qed.

Lemma skip_all levels : forall st,
  continueOnError options = false -> failedTasks st <> [] ->
  exists st',
    schedule_levels run graph context options levels st = Some st' /\
    results st' = results st ++ map skippedResult (concat levels).
Proof.
  induction levels as [|lv rest IH]; intros st Hc Hf; simpl.
  - exists st. now rewrite app_nil_r.
  - rewrite Hc. simpl.
    replace (0 <? length (failedTasks st))%nat with true
      by (destruct (failedTasks st); [contradiction | reflexivity]).
    destruct (IH (push_results st (map skippedResult lv)) Hc Hf) as (st' & -> & Hres).
    exists st'. split; [reflexivity|]. rewrite Hres. simpl.
    now rewrite map_app, app_assoc.
Qed.

Lemma skippedResult_ids l : map tr_taskId (map skippedResult l) = l.
Proof. induction l as [|x r IH]; simpl; congruence. Qed.

(** The loop over the levels: one result per task of each level, and once a
    task has failed (without [continueOnError]) the tasks of every later
    level are reported as skipped. *)
Lemma schedule_levels_spec levels : forall st,
  NoDup (concat levels) -> known (concat levels) ->
  exists st' new,
    schedule_levels run graph context options levels st = Some st' /\
    results st' = results st ++ new /\
    map tr_taskId new ≡ₚ concat levels /\
    (continueOnError options = false ->
     forall r r', r ∈ new -> r' ∈ new -> tr_status r = failed ->
       (level_index levels (tr_taskId r) < level_index levels (tr_taskId r'))%nat ->
       r' = skippedResult (tr_taskId r')).
Proof.
  induction levels as [|lv rest IH]; intros st Hnd Hk.
  - exists st, []. simpl. rewrite app_nil_r. repeat split; auto.
    intros _ r r' Hr. inversion Hr.
  - simpl in Hnd, Hk. apply NoDup_app in Hnd as (Hndl & Hdis & Hndr).
    assert (Hkl : known lv) by (intros x Hx; apply Hk, elem_of_app; now left).
    assert (Hkr : known (concat rest)) by (intros x Hx; apply Hk, elem_of_app; now right).
    simpl schedule_levels.
    destruct (negb (continueOnError options) && (0 <? length (failedTasks st))%nat) eqn:Eskip.
    + (* a task failed earlier: the whole level is skipped *)
      apply andb_true_iff in Eskip as [Hc Hf]. apply negb_true_iff in Hc.
      assert (Hne : failedTasks st <> []) by (destruct (failedTasks st); [discriminate | discriminate]).
      destruct (skip_all rest (push_results st (map skippedResult lv)) Hc Hne)
        as (st' & -> & Hres).
      exists st', (map skippedResult (lv ++ concat rest)). split; [reflexivity|].
      split; [rewrite Hres; simpl; now rewrite map_app, app_assoc|].
      split; [now rewrite skippedResult_ids|].
      intros _ r r' Hr _ Hfail. apply list_elem_of_fmap in Hr as (x & -> & _). discriminate Hfail.
    + destruct (classify_spec (failedTasks st) lv [] [] Hkl) as (runnable & skp & -> & Hperm).
      simpl.
      assert (Hkrun : known runnable).
      { intros x Hx. apply Hkl. rewrite <- Hperm. apply elem_of_app. now left. }
      destruct (run_level_spec runnable [] (push_results st (map skippedResult skp)) Hkrun)
        as (lvres & st1 & -> & Hres1 & Hids1 & _ & Hfail1).
      simpl. destruct (IH (push_results st1 lvres) Hndr Hkr) as (st' & new' & Hrun' & Hres' & Hids' & Hcasc').
      rewrite Hrun'.
      set (chunk := map skippedResult skp ++ lvres).
      assert (Hchunk : map tr_taskId chunk ≡ₚ lv).
      { unfold chunk. rewrite map_app, skippedResult_ids, Hids1, <- Hperm.
        apply Permutation_app_comm. }
      assert (Hin_chunk : forall r, r ∈ chunk -> tr_taskId r ∈ lv).
      { intros r Hr. rewrite <- Hchunk. apply list_elem_of_fmap. now exists r. }
      assert (Hin_new : forall r, r ∈ new' -> tr_taskId r ∈ concat rest).
      { intros r Hr. rewrite <- Hids'. apply list_elem_of_fmap. now exists r. }
      exists st', (chunk ++ new'). split; [reflexivity|].
      split; [rewrite Hres'; simpl; rewrite Hres1; simpl; unfold chunk; now rewrite <- !app_assoc|].
      split; [rewrite map_app, Hchunk, Hids'; reflexivity|].
      intros Hc r r' Hr Hr' Hfail Hlt.
      change (level_index (lv :: rest) (tr_taskId r) < level_index (lv :: rest) (tr_taskId r'))%nat in Hlt.
      assert (Hidx_chunk : forall r0, r0 ∈ chunk -> level_index (lv :: rest) (tr_taskId r0) = 0%nat).
      { intros r0 Hr0. simpl. apply Hin_chunk, JsSetFacts.set_has_true in Hr0. now rewrite Hr0. }
      assert (Hidx_new : forall r0, r0 ∈ new' ->
                level_index (lv :: rest) (tr_taskId r0) = S (level_index rest (tr_taskId r0))).
      { intros r0 Hr0. simpl. destruct (JsSet.has lv (tr_taskId r0)) eqn:E; [|reflexivity].
        apply JsSetFacts.set_has_true in E. exfalso. exact (Hdis _ E (Hin_new _ Hr0)). }
      apply elem_of_app in Hr as [Hr|Hr], Hr' as [Hr'|Hr'].
      * rewrite (Hidx_chunk r Hr), (Hidx_chunk r' Hr') in Hlt. lia.
      * (* a failure in this level: later levels run in skip mode *)
        assert (Hfailed : failedTasks (push_results st1 lvres) <> []).
        { simpl. apply (Hfail1 r); [|exact Hfail].
          unfold chunk in Hr. apply elem_of_app in Hr as [Hr|Hr]; [|exact Hr].
          apply list_elem_of_fmap in Hr as (x & -> & _). discriminate Hfail. }
        destruct (skip_all rest (push_results st1 lvres) Hc Hfailed) as (st'' & Hrun'' & Hres'').
        assert (Enew : new' = map skippedResult (concat rest)).
        { rewrite Hrun' in Hrun''. injection Hrun'' as <-.
          rewrite Hres' in Hres''. now apply app_inv_head in Hres''. }
        rewrite Enew in Hr'. apply list_elem_of_fmap in Hr' as (x & -> & _). reflexivity.
      * rewrite (Hidx_new r Hr), (Hidx_chunk r' Hr') in Hlt. lia.
      * rewrite (Hidx_new r Hr), (Hidx_new r' Hr') in Hlt.
        apply (Hcasc' Hc r r' Hr Hr' Hfail). lia.
Qed.

End Schedule.
End SchedulerFacts.

(** ** The scheduler on a graph assembled by the graph builder *)

Module SchedulerCorrect.
Import Fs Types Cache Hash Runner RunnerFacts Topological GraphBuilder GraphBuilderFacts.
Import Scheduler SchedulerFacts.
Import JsMapFacts GraphSpec GraphFacts KahnCount LevelsFacts SortFacts.

(** The levels of an assembled graph split the task map and follow its
    dependencies. *)
Lemma assembled_levels graph :
  assembled graph ->
  levels_partition (depMapOf (tasks graph)) (parallelLevels graph) /\
  levels_respect_deps (depMapOf (tasks graph)) (parallelLevels graph).
Proof.
  intros (Hnd & _ & Hasm). unfold assemble in Hasm.
  assert (Hndm : NoDup (JsMap.keys (depMapOf (tasks graph)))) by now rewrite depMapOf_keys.
  destruct (topologicalSort (depMapOf (tasks graph))) as [order| | |] eqn:Hsort;
    try discriminate.
  pose proof (topologicalSort_Ok_acyclic _ _ Hndm Hsort) as Hacyc.
  destruct (getParallelLevels_acyclic _ Hndm Hacyc) as (levels & Hlev & Hpart & Hresp).
  simpl in Hasm. rewrite Hlev in Hasm. simpl in Hasm. injection Hasm as Hgraph.
  assert (Elev : parallelLevels graph = levels) by (rewrite <- Hgraph; reflexivity).
  rewrite Elev. auto.
Qed.

Lemma assembled_known graph :
  assembled graph ->
  NoDup (concat (parallelLevels graph)) /\
  known graph (concat (parallelLevels graph)) /\
  concat (parallelLevels graph) ≡ₚ JsMap.keys (tasks graph).
Proof.
  intros Hasm. destruct (assembled_levels graph Hasm) as ([Hperm _] & _).
  destruct Hasm as (Hnd & Hids & _).
  rewrite (depMapOf_keys _ Hnd) in Hperm.
  split; [now rewrite Hperm|]. split; [|exact Hperm].
  intros x Hx. rewrite Hperm in Hx.
  destruct (key_get _ _ Hx) as (t & Hget). exists t. split; [exact Hget|].
  apply get_Some_elem in Hget. rewrite Forall_forall in Hids. exact (Hids _ Hget).
Qed.

Section Run.
Context {Data : Type} {H : Host Data} {P : ProcessHost Data}.


(** C3: with [continueOnError = false], when the result list holds a failed
    result for a task [X], every task [Y] that has [X] among its transitive
    dependencies has a result in the list, and each result of [Y] is
    ['skipped'] with duration 0. *)
Theorem failure_cascade (graph : TaskGraph) (context : ExecutionContext)
  (options : SchedulerOptions) (w w' : World Data) (results : list TaskResult)
  (r : TaskResult) (Y : string) :
  assembled graph ->
  continueOnError options = false ->
  scheduleTasks graph context options w = Some (results, w') ->
  r ∈ results -> tr_status r = failed ->
  tc (dep_edge (depMapOf (tasks graph))) Y (tr_taskId r) ->
  (exists r', r' ∈ results /\ tr_taskId r' = Y) /\
  (forall r', r' ∈ results -> tr_taskId r' = Y ->
     tr_status r' = skipped /\ tr_duration r' = 0).
Proof.
  intros Hasm Hc Hrun Hr Hfail Hdep.
  destruct (assembled_known graph Hasm) as (Hndl & Hk & Hperm).
  destruct (assembled_levels graph Hasm) as ([Hpart _] & Hresp).
  destruct (schedule_levels_spec runTask runTask_taskId graph context options
              (parallelLevels graph) (mkSched [] [] [] w) Hndl Hk)
    as (st' & new & Hrun' & Hres & Hnew & Hcasc).
  unfold scheduleTasks, schedule_with in Hrun. rewrite Hrun' in Hrun.
  injection Hrun as Hresults _. rewrite Hres in Hresults. simpl in Hresults. subst new.
  assert (HX : tr_taskId r ∈ JsMap.keys (depMapOf (tasks graph))).
  { rewrite <- Hpart, <- Hnew. apply list_elem_of_fmap. now exists r. }
  assert (HY : Y ∈ concat (parallelLevels graph)).
  { rewrite Hpart. destruct (tc_source_edge _ _ _ Hdep) as (z & Hz).
    eapply dep_edge_source; eauto. }
  assert (Hlt : (level_index (parallelLevels graph) (tr_taskId r)
                 < level_index (parallelLevels graph) Y)%nat).
  { apply (level_index_tc (depMapOf (tasks graph))); [exact Hresp | |].
    - intros k Hk'. now rewrite Hpart.
    - now apply tc_dep_edge_in. }
  split.
  - rewrite <- Hnew in HY. apply list_elem_of_fmap in HY as (r' & -> & Hr'). eauto.
  - intros r' Hr' <-. rewrite (Hcasc Hc r r' Hr Hr' Hfail Hlt). split; reflexivity.
Qed.

End Run.

(** *** Scenario E7: [a] fails and [b] depends on [a] *)

Import RefHost.

(** A child that fails exactly when its command is ["false"]. *)
#[export] Instance ref_process : ProcessHost data := {|
  child_process := fun command _ _ _ _ _ fs clock =>
    (mkProcessResult (if String.eqb command "false" then Some 1 else Some 0) "" "" false,
     [mkOutputChunk stdout command], fs, clock + 1)
|}.

Definition simple_definition (command : string) (dependsOn : list Resolver.TaskDependency)
  : TaskDefinition :=
mkTaskDefinition (CmdString command) (Some dependsOn) None (Some ["src.ts"])
                 None None None None None.

(** Workspace [x] with three tasks: [c] depends on [b], [b] on [a]. *)
Definition e7_workspaces : WorkspaceContext :=
mkWorkspaceContext ["repo"] [("x", ["repo"; "x"])]
  [("x", mkCockpitConfig
           [("a", simple_definition "false" []);
            ("b", simple_definition "true" [Resolver.DepString "a"]);
            ("c", simple_definition "true" [Resolver.DepObject "x:b" (Some false)])]
           None)].

Definition e7_graph : TaskGraph :=
mkTaskGraph
  [("x:c", mkResolvedTask "x:c" "x" "c"
             (simple_definition "true" [Resolver.DepObject "x:b" (Some false)]) ["x:b"]);
   ("x:b", mkResolvedTask "x:b" "x" "b"
             (simple_definition "true" [Resolver.DepString "a"]) ["x:a"]);
   ("x:a", mkResolvedTask "x:a" "x" "a" (simple_definition "false" []) [])]
  ["x:a"; "x:b"; "x:c"] [["x:a"]; ["x:b"]; ["x:c"]] ["x:c"].

Example e7_built : buildTaskGraph 10 e7_workspaces "x" "c" = Ok e7_graph.
Proof. vm_compute. reflexivity. Qed.

Definition e7_context : ExecutionContext :=
mkExecutionContext e7_workspaces [] false false false
                   (Some ["repo"; ".cockpit"; ".cache"]) None None.

Definition e7_world : World data := mkWorld Fs.empty ∅ 0 [].

Lemma e7_assembled : assembled e7_graph.
Proof. exact (buildTaskGraph_assembled _ _ _ _ _ e7_built). Qed.


Lemma failure_cascade_witness :
  exists results w' r,
    scheduleTasks e7_graph e7_context (mkSchedulerOptions 4 false) e7_world
    = Some (results, w') /\
    r ∈ results /\ tr_taskId r = "x:a" /\ tr_status r = failed /\
    (exists r', r' ∈ results /\ tr_taskId r' = "x:c") /\
    (forall r', r' ∈ results -> tr_taskId r' = "x:c" ->
       tr_status r' = skipped /\ tr_duration r' = 0).
Proof.
  destruct (scheduleTasks e7_graph e7_context (mkSchedulerOptions 4 false) e7_world)
    as [[results w']|] eqn:E; [|vm_compute in E; discriminate E].
  pose proof E as E'. vm_compute in E'. injection E' as E' _.
  exists results, w', (mkTaskResult "x:a" failed 1 (Some "") (Some (TaskExecutionError "x:a" (Some 1) ""))).
  assert (Hr : mkTaskResult "x:a" failed 1 (Some "")
                 (Some (TaskExecutionError "x:a" (Some 1) "")) ∈ results)
    by (rewrite <- E'; left).
  split; [reflexivity|]. split; [exact Hr|]. split; [reflexivity|]. split; [reflexivity|].
  apply (failure_cascade e7_graph e7_context (mkSchedulerOptions 4 false)
           e7_world w' results _ "x:c" e7_assembled eq_refl E Hr eq_refl).
  apply (tc_l _ _ "x:b").
  - exists ["x:b"]. split; [reflexivity | left].
  - apply tc_once. exists ["x:a"]. split; [reflexivity | left].
Defined.

End SchedulerCorrect.

(** ** The cache store as a dictionary on disk

    What [set], [invalidate] and [clear] leave behind, read through [has],
    [lookup], [getActiveHash], and through a store opened afresh on the same
    files. *)

Module StoreFacts.
Import Fs FsFacts Types Cache CacheFacts.

(** Two paths that part ways below [d]: neither lies under the other. *)
Lemma is_prefix_fork (d : path) (a b : string) (r1 r2 : path) :
  a <> b -> is_prefix (d ++ a :: r1) (d ++ b :: r2) = false.
Proof.
  intros Hne. destruct (is_prefix _ _) eqn:E; [|reflexivity].
  apply is_prefix_spec in E as (r' & E). rewrite <- !app_assoc in E.
  apply app_inv_head in E. simpl in E. congruence.
Qed.

Lemma is_prefix_trans (p q r : path) :
  is_prefix p q = true -> is_prefix q r = true -> is_prefix p r = true.
Proof.
  rewrite !is_prefix_spec. intros (a & ->) (b & ->). exists (a ++ b). now rewrite app_assoc.
Qed.

(** Two ancestors of one path are comparable. *)
Lemma is_prefix_comparable (p q r : path) :
  is_prefix p r = true -> is_prefix q r = true ->
  is_prefix p q = true \/ is_prefix q p = true.
Proof.
  revert q r. induction p as [|a p IH]; intros q r Hp Hq; [now left|].
  destruct q as [|b q]; [now right|].
  destruct r as [|c r]; [discriminate Hp|]. simpl in *.
  apply andb_true_iff in Hp as [Ha Hp]. apply andb_true_iff in Hq as [Hb Hq].
  apply String.eqb_eq in Ha as ->. apply String.eqb_eq in Hb as ->.
  rewrite !String.eqb_refl. simpl. eauto.
Qed.


Section Store.
Context {Data : Type} {H : Host Data}.
Implicit Types (s : CacheStore Data) (fs : FS Data) (P p q : path).

(** *** Steps that only add *)

Definition grows fs fs' : Prop :=
forall q, existsSync fs q = true -> existsSync fs' q = true.

Lemma grows_refl fs : grows fs fs.
Proof. intros q Hq. exact Hq. Qed.

Lemma grows_trans fs1 fs2 fs3 : grows fs1 fs2 -> grows fs2 fs3 -> grows fs1 fs3.
Proof. intros H12 H23 q Hq. apply H23, H12, Hq. Qed.

Lemma grows_write fs p d : grows fs (writeFileSync p d fs).
Proof.
  intros q Hq. unfold existsSync, writeFileSync in *. destruct (path_eqb q p); [reflexivity | exact Hq].
Qed.

Lemma grows_mkdir fs p : grows fs (mkdirSync p fs).
Proof.
  intros q Hq. unfold existsSync, mkdirSync in *.
  destruct (is_prefix q p); [|exact Hq]. destruct (fs q); [reflexivity | discriminate Hq].
Qed.

Lemma grows_mkdir_if fs p (b : bool) : grows fs (if b then mkdirSync p fs else fs).
Proof. destruct b; [apply grows_mkdir | apply grows_refl]. Qed.

(** *** Steps that stay inside a directory

    Outside [D] a path keeps its node, or it was missing, lies above [D] and
    has become a directory. *)

Definition same_outside (D : path) fs fs' : Prop :=
forall P, is_prefix D P = false ->
  fs' P = fs P \/ (fs P = None /\ fs' P = Some Dir /\ is_prefix P D = true).

Lemma same_outside_refl D fs : same_outside D fs fs.
Proof. intros P _. now left. Qed.

Lemma same_outside_trans D fs1 fs2 fs3 :
  same_outside D fs1 fs2 -> same_outside D fs2 fs3 -> same_outside D fs1 fs3.
Proof.
  intros H12 H23 P HP.
  destruct (H12 P HP) as [E12|(N1 & D2 & Hp)], (H23 P HP) as [E23|(N2 & D3 & Hp')].
  - left. congruence.
  - right. rewrite <- E12. auto.
  - right. rewrite E23. auto.
  - congruence.
Qed.

Lemma same_outside_up D D' fs fs' :
  is_prefix D' D = true -> same_outside D fs fs' -> same_outside D' fs fs'.
Proof.
  intros Hup Hsame P HP.
  assert (HP' : is_prefix D P = false).
  { destruct (is_prefix D P) eqn:E; [|reflexivity].
    now rewrite (is_prefix_trans D' D P Hup E) in HP. }
  destruct (Hsame P HP') as [E|(N & Dn & Hp)]; [now left|]. right.
  split; [exact N|]. split; [exact Dn|].
  destruct (is_prefix_comparable P D' D Hp Hup) as [E|E]; [exact E | congruence].
Qed.

Lemma same_outside_rm D p fs : is_prefix D p = true -> same_outside D fs (rmSync p fs).
Proof.
  intros Hp P HP. left. apply rm_other.
  destruct (is_prefix p P) eqn:E; [|reflexivity].
  now rewrite (is_prefix_trans D p P Hp E) in HP.
Qed.

Lemma same_outside_mkdir D p fs : is_prefix D p = true -> same_outside D fs (mkdirSync p fs).
Proof.
  intros Hp P HP. unfold mkdirSync. destruct (is_prefix P p) eqn:E; [|now left].
  destruct (fs P) eqn:EP; [now left|]. right.
  split; [reflexivity|]. split; [reflexivity|].
  destruct (is_prefix_comparable P D p E Hp) as [E'|E']; [exact E' | congruence].
Qed.

Lemma same_outside_write D p d fs : is_prefix D p = true -> same_outside D fs (writeFileSync p d fs).
Proof.
  intros Hp P HP. left. apply write_other. intros ->. congruence.
Qed.

Lemma same_outside_if D (b : bool) fs fs' :
  same_outside D fs fs' -> same_outside D fs (if b then fs' else fs).
Proof. destruct b; [auto | intros _; apply same_outside_refl]. Qed.

(** *** Paths of the store *)



Lemma taskDir_hashDir s t h : is_prefix (getTaskDir s t) (getHashDir s t h) = true.
Proof. apply is_prefix_app. Qed.

Lemma getTaskDir_cacheDir s s' t : cacheDir s' = cacheDir s -> getTaskDir s' t = getTaskDir s t.
Proof. intros E. unfold getTaskDir, resultsDir. now rewrite E. Qed.

Lemma getRegistryPath_cacheDir s s' t :
  cacheDir s' = cacheDir s -> getRegistryPath s' t = getRegistryPath s t.
Proof. intros E. unfold getRegistryPath. now rewrite (getTaskDir_cacheDir s s' t E). Qed.


(** The registry of a task is a function of the node at its registry path. *)
Lemma loadRegistry_agree s s' t :
  cacheDir s' = cacheDir s ->
  fsys s' (getRegistryPath s t) = fsys s (getRegistryPath s t) ->
  loadRegistry s' t = loadRegistry s t.
Proof.
  intros Hc Hfs. unfold loadRegistry, existsSync, readFileSync.
  rewrite (getRegistryPath_cacheDir s s' t Hc), Hfs. reflexivity.
Qed.


(** *** The primitive savers *)

Lemma saveManifest_fields s :
  cacheDir (saveManifest s) = cacheDir s /\ manifest (saveManifest s) = manifest s.
Proof. split; reflexivity. Qed.

Lemma saveManifest_grows s : grows (fsys s) (fsys (saveManifest s)).
Proof.
  unfold saveManifest. simpl. eapply grows_trans; [|apply grows_write].
  apply grows_mkdir_if.
Qed.


Lemma saveRegistry_grows s t reg : grows (fsys s) (fsys (saveRegistry s t reg)).
Proof.
  unfold saveRegistry. simpl. eapply grows_trans; [|apply grows_write].
  apply grows_mkdir_if.
Qed.


Lemma saveOutputFile_outside outputsDir ws st file :
  same_outside outputsDir st.2 (saveOutputFile outputsDir ws st file).2.
Proof.
  destruct st as [cf fs]. unfold saveOutputFile. simpl.
  destruct (readFileSync fs (ws ++ [file])) as [d|]; [|apply same_outside_refl].
  assert (E : same_outside outputsDir fs
            (writeFileSync (outputsDir ++ [file]) d
               (if negb (existsSync fs (removelast (outputsDir ++ [file])))
                then mkdirSync (removelast (outputsDir ++ [file])) fs else fs))).
  { rewrite removelast_last. eapply same_outside_trans.
    - apply same_outside_if, same_outside_mkdir, is_prefix_refl.
    - apply same_outside_write, is_prefix_app. }
  destruct (statSync _ _) as [[m sz]|]; exact E.
Qed.

Lemma saveOutputFile_grows outputsDir ws st file :
  grows st.2 (saveOutputFile outputsDir ws st file).2.
Proof.
  destruct st as [cf fs]. unfold saveOutputFile. simpl.
  destruct (readFileSync fs (ws ++ [file])) as [d|]; [|apply grows_refl].
  assert (E : grows fs
            (writeFileSync (outputsDir ++ [file]) d
               (if negb (existsSync fs (removelast (outputsDir ++ [file])))
                then mkdirSync (removelast (outputsDir ++ [file])) fs else fs))).
  { eapply grows_trans; [apply grows_mkdir_if | apply grows_write]. }
  destruct (statSync _ _) as [[m sz]|]; exact E.
Qed.

(** Every file recorded by [saveOutputFile] was read from the workspace. *)
Definition recorded (ws : path) (st : list CachedFile * FS Data) : Prop :=
Forall (fun file => existsSync st.2 (ws ++ [cf_relativePath file]) = true) st.1.

Lemma saveOutputFile_recorded outputsDir ws st file :
  recorded ws st -> recorded ws (saveOutputFile outputsDir ws st file).
Proof.
  intros Hrec. pose proof (saveOutputFile_grows outputsDir ws st file) as Hgrow.
  assert (Hold : Forall (fun f => existsSync (saveOutputFile outputsDir ws st file).2
                                    (ws ++ [cf_relativePath f]) = true) st.1).
  { eapply Forall_impl; [exact Hrec|]. intros f Hf. now apply Hgrow. }
  destruct st as [cf fs]. unfold recorded, saveOutputFile in *. simpl in *.
  destruct (readFileSync fs (ws ++ [file])) as [d|] eqn:Hread; [|exact Hrec].
  destruct (statSync _ _) as [[m sz]|]; simpl in *; [|exact Hold].
  apply Forall_app. split; [exact Hold|]. repeat constructor. simpl.
  apply Hgrow. unfold readFileSync in Hread. unfold existsSync.
  destruct (fs (ws ++ [file])); [reflexivity | discriminate Hread].
Qed.

Lemma saveOutputFiles_spec outputsDir pats ws fs :
  let r := saveOutputFiles outputsDir pats ws fs in
  same_outside outputsDir fs r.2 /\ grows fs r.2 /\ recorded ws r.
Proof.
  unfold saveOutputFiles.
  destruct (Nat.eqb (length pats) 0).
  { simpl. split; [apply same_outside_refl|]. split; [apply grows_refl | constructor]. }
  generalize (fg pats ws true ["**/node_modules/**"; "**/.git/**"] fs) as files. intros files.
  assert (Hgen : forall st,
            same_outside outputsDir st.2 (fold_left (saveOutputFile outputsDir ws) files st).2 /\
            grows st.2 (fold_left (saveOutputFile outputsDir ws) files st).2 /\
            (recorded ws st -> recorded ws (fold_left (saveOutputFile outputsDir ws) files st))).
  { induction files as [|f r IH]; intros st; simpl.
    - split; [apply same_outside_refl|]. split; [apply grows_refl | auto].
    - destruct (IH (saveOutputFile outputsDir ws st f)) as (Ho & Hg & Hr).
      split; [eapply same_outside_trans; [apply saveOutputFile_outside | exact Ho]|].
      split; [eapply grows_trans; [apply saveOutputFile_grows | exact Hg]|].
      intros Hrec. apply Hr. now apply saveOutputFile_recorded. }
  destruct (Hgen ([], fs)) as (Ho & Hg & Hr). simpl in *.
  split; [exact Ho|]. split; [exact Hg|]. apply Hr. constructor.
Qed.

(** *** [set], step by step *)

(** Lines 441-455 of [set]: the hash directory is emptied, [outputs] is
    created in it and the chunks are written. *)
Definition prepare (options : CacheStoreOptions) s : FS Data :=
let hashDir := getHashDir s (opt_taskId options) (opt_inputHash options) in
let fs1 := if existsSync (fsys s) hashDir then rmSync hashDir (fsys s) else fsys s in
let fs2 := mkdirSync (hashDir ++ ["outputs"]) fs1 in
match opt_outputChunks options with
| Some chunks =>
  if (0 <? length chunks)%nat
  then writeFileSync (hashDir ++ ["output.json"]) (stringify_chunks chunks) fs2
  else fs2
| None => fs2
end.

(** Lines 458: the copy of the output files. *)
Definition copied (options : CacheStoreOptions) s : list CachedFile * FS Data :=
saveOutputFiles (getHashDir s (opt_taskId options) (opt_inputHash options) ++ ["outputs"])
                (opt_outputs options) (opt_workspacePath options) (prepare options s).

Definition stored_entry (now : Z) (options : CacheStoreOptions) s : RegistryEntry :=
mkRegistryEntry (opt_inputHash options) now (opt_outputs options) (copied options s).1.

Lemma set_eq now options s :
  set now options s =
  let s4 := with_fs s (copied options s).2 in
  let s5 := saveRegistry s4 (opt_taskId options)
              (<[opt_inputHash options := stored_entry now options s]>
                 (loadRegistry s4 (opt_taskId options))) in
  saveManifest (with_manifest s5 (<[opt_taskId options := opt_inputHash options]> (manifest s5))).
Proof.
  unfold set, stored_entry, copied, prepare.
  destruct (saveOutputFiles _ _ _ _) as [cachedFiles fs4]. reflexivity.
Qed.

Lemma prepare_outside options s :
  same_outside (getHashDir s (opt_taskId options) (opt_inputHash options))
               (fsys s) (prepare options s).
Proof.
  unfold prepare. set (hashDir := getHashDir s _ _).
  eapply same_outside_trans; [apply same_outside_if, same_outside_rm, is_prefix_refl|].
  eapply same_outside_trans; [apply same_outside_mkdir, is_prefix_app|].
  destruct (opt_outputChunks options) as [chunks|]; [|apply same_outside_refl].
  destruct (0 <? length chunks)%nat; [|apply same_outside_refl].
  apply same_outside_write, is_prefix_app.
Qed.

Lemma copied_outside options s :
  same_outside (getHashDir s (opt_taskId options) (opt_inputHash options))
               (fsys s) (copied options s).2.
Proof.
  eapply same_outside_trans; [apply prepare_outside|].
  eapply same_outside_up; [|apply saveOutputFiles_spec]. apply is_prefix_app.
Qed.


(** The node at the registry path of a task is out of reach of everything
    [set] does before it saves the registry, for a hash that is not the
    name of the registry file. *)
Lemma copied_registry options s t' :
  opt_inputHash options <> "registry.json" ->
  (copied options s).2 (getRegistryPath s t') = fsys s (getRegistryPath s t').
Proof.
  intros Hh.
  destruct (copied_outside options s (getRegistryPath s t')) as [E|(_ & _ & Hp)]; [|exact E|].
  - unfold getHashDir, getRegistryPath, getTaskDir.
    destruct (decide (taskIdToDir (opt_taskId options) = taskIdToDir t')) as [->|Hne].
    + now apply is_prefix_sibling.
    + rewrite <- !app_assoc. simpl. now apply is_prefix_fork.
  - exfalso. unfold getHashDir, getRegistryPath, getTaskDir in Hp.
    destruct (decide (taskIdToDir (opt_taskId options) = taskIdToDir t')) as [E|Hne].
    + rewrite E in Hp. rewrite is_prefix_sibling in Hp; [discriminate | congruence].
    + rewrite <- !app_assoc in Hp. simpl in Hp.
      rewrite is_prefix_fork in Hp; [discriminate | congruence].
Qed.

Lemma set_fields now options s :
  cacheDir (set now options s) = cacheDir s /\
  manifest (set now options s) = <[opt_taskId options := opt_inputHash options]> (manifest s).
Proof. rewrite set_eq. split; reflexivity. Qed.

(** The registry of the task after [set]. *)
Lemma set_registry now options s :
  JsonLaws H -> opt_inputHash options <> "registry.json" ->
  loadRegistry (set now options s) (opt_taskId options) =
  <[opt_inputHash options := stored_entry now options s]> (loadRegistry s (opt_taskId options)).
Proof.
  intros Hlaws Hh. set (t := opt_taskId options).
  assert (Hload4 : loadRegistry (with_fs s (copied options s).2) t = loadRegistry s t).
  { apply loadRegistry_agree; [reflexivity|]. simpl. now apply copied_registry. }
  rewrite set_eq. cbv zeta. fold t. rewrite Hload4.
  set (reg := <[opt_inputHash options := _]> _).
  set (s4 := with_fs s (copied options s).2).
  apply loadRegistry_read; [exact Hlaws|].
  match goal with |- fsys ?s6 (getRegistryPath ?s6 t) = _ =>
    replace (getRegistryPath s6 t) with (getRegistryPath s4 t) by reflexivity end.
  rewrite saveManifest_frame; simpl.
  - apply write_same.
  - apply is_prefix_longer. unfold getRegistryPath, getTaskDir, resultsDir.
    rewrite !length_app. simpl. lia.
  - unfold manifestPath, getRegistryPath, getTaskDir, resultsDir. simpl. by_length.
Qed.


(** *** Well-formed file systems stay well-formed *)













End Store.
End StoreFacts.

(** ** The cache store: entries, frames and persistence *)

Module StoreCorrect.
Import Fs FsFacts Types Cache CacheFacts StoreFacts.

Lemma str_app_assoc (x y z : string) : ((x ++ y) ++ z = x ++ y ++ z)%string.
Proof. induction x as [|c r IH]; [reflexivity | exact (f_equal (String c) IH)]. Qed.

(** [taskIdToDir] works character by character. *)
Lemma taskIdToDir_app (x y : string) :
  taskIdToDir (x ++ y) = (taskIdToDir x ++ taskIdToDir y)%string.
Proof.
  induction x as [|c r IH]; simpl; [reflexivity|].
  destruct (Ascii.eqb c ":"%char); simpl; now rewrite IH.
Qed.

Section Store.
Context {Data : Type} {H : Host Data}.
Implicit Types (s : CacheStore Data) (fs : FS Data) (P : path).

(** The store opened afresh on the files of [s]: what [new CacheStore(root)]
    builds when [s] lives below [root]. *)
Definition reopen s : CacheStore Data :=
loadManifest (mkCacheStore (cacheDir s) ∅ (fsys s)).


Lemma new_reopen (rootDir : path) fs m :
  Cache.new rootDir fs = reopen (mkCacheStore (rootDir ++ [".cockpit"; ".cache"]) m fs).
Proof. reflexivity. Qed.






Lemma restoreOutputFile_idle outputsDir ws (st : Z * FS Data) file :
  (restoreOutputFile outputsDir ws st file).1 = st.1 ->
  restoreOutputFile outputsDir ws st file = st.
Proof.
  destruct st as [n fs]. unfold restoreOutputFile.
  destruct (negb _); [reflexivity|]. destruct (readFileSync _ _); [|reflexivity].
  simpl. lia.
Qed.

Lemma restoreOutputFile_counts outputsDir ws (st : Z * FS Data) file :
  st.1 <= (restoreOutputFile outputsDir ws st file).1.
Proof.
  destruct st as [n fs]. unfold restoreOutputFile.
  destruct (negb _); [simpl; lia|]. destruct (readFileSync _ _); simpl; lia.
Qed.

Lemma restore_fold_counts outputsDir ws files : forall st : Z * FS Data,
  st.1 <= (fold_left (restoreOutputFile outputsDir ws) files st).1.
Proof.
  induction files as [|f r IH]; intros st; simpl; [lia|].
  pose proof (restoreOutputFile_counts outputsDir ws st f).
  specialize (IH (restoreOutputFile outputsDir ws st f)). lia.
Qed.

Lemma restore_fold_idle outputsDir ws files : forall st : Z * FS Data,
  (fold_left (restoreOutputFile outputsDir ws) files st).1 = st.1 ->
  fold_left (restoreOutputFile outputsDir ws) files st = st.
Proof.
  induction files as [|f r IH]; intros st Hst; simpl in *; [reflexivity|].
  pose proof (restoreOutputFile_counts outputsDir ws st f).
  pose proof (restore_fold_counts outputsDir ws r (restoreOutputFile outputsDir ws st f)).
  rewrite IH by lia. apply restoreOutputFile_idle. rewrite IH in Hst by lia. exact Hst.
Qed.

(** X1: after [set], [has] answers true for the stored hash, the hash is the
    active one of its task, and [lookup] finds an entry that carries the
    hash, the time of the call and the output patterns. *)
Theorem set_then_lookup s (now : Z) (options : CacheStoreOptions) :
  JsonLaws H -> is_input_hash (opt_inputHash options) = true ->
  let s' := set now options s in
  has s' (opt_taskId options) (opt_inputHash options) = true /\
  getActiveHash s' (opt_taskId options) = Some (opt_inputHash options) /\
  exists cachedFiles,
    lookup s' (opt_taskId options) (opt_inputHash options) =
    mkCacheLookupResult true
      (Some (mkRegistryEntry (opt_inputHash options) now (opt_outputs options) cachedFiles))
      true.
Proof.
  intros Hlaws Hh s'. apply is_input_hash_plain in Hh as [_ Hreg].
  pose proof (set_registry now options s Hlaws Hreg) as Hload.
  destruct (set_fields now options s) as [_ Hman].
  unfold has, getActiveHash, lookup. subst s'. rewrite Hload, Hman, !lookup_insert_eq.
  split; [reflexivity|]. split; [reflexivity|].
  exists (copied options s).1. rewrite bool_decide_eq_true_2 by reflexivity. reflexivity.
Qed.




Lemma set_recorded_on_disk s (now : Z) (options : CacheStoreOptions) :
  JsonLaws H -> opt_inputHash options <> "registry.json" ->
  hasOutputsOnDisk (set now options s) (opt_taskId options) (opt_inputHash options)
                   (opt_workspacePath options) = true.
Proof.
  intros Hlaws Hreg.
  unfold hasOutputsOnDisk. rewrite (set_registry now options s Hlaws Hreg), lookup_insert_eq.
  unfold stored_entry. simpl.
  destruct (Nat.eqb _ 0); [reflexivity|].
  apply forallb_forall. intros file Hfile.
  destruct (saveOutputFiles_spec
              (getHashDir s (opt_taskId options) (opt_inputHash options) ++ ["outputs"])
              (opt_outputs options) (opt_workspacePath options) (prepare options s))
    as (_ & _ & Hrec).
  fold (copied options s) in Hrec. unfold recorded in Hrec. rewrite Forall_forall in Hrec.
  assert (Hin : file ∈ (copied options s).1) by now apply list_elem_of_In.
  specialize (Hrec file Hin).
  rewrite set_eq. cbv zeta.
  set (s4 := with_fs s (copied options s).2).
  set (s5 := saveRegistry s4 _ _).
  pose proof (saveManifest_grows
                (with_manifest s5 (<[opt_taskId options := opt_inputHash options]> (manifest s5))))
    as Hg2.
  apply Hg2. simpl. apply (saveRegistry_grows s4). exact Hrec.
Qed.

(** X4: right after [set], every output file it recorded is on disk in the
    workspace, so [hasOutputsOnDisk] answers true for the stored hash. *)
Theorem set_outputs_on_disk s (now : Z) (options : CacheStoreOptions) :
  JsonLaws H -> is_input_hash (opt_inputHash options) = true ->
  hasOutputsOnDisk (set now options s) (opt_taskId options) (opt_inputHash options)
                   (opt_workspacePath options) = true.
Proof.
  intros Hlaws Hh. apply is_input_hash_plain in Hh as [_ Hreg].
  now apply set_recorded_on_disk.
Qed.





(** X8: the directory of a task is its id with [":"] written as ["__"], so
    the ids [a:b__c] and [a__b:c] are different ids of one directory: what
    [set] stores for the first is found by [has] under the second. *)
Theorem set_visible_under_colliding_id s (now : Z) (options : CacheStoreOptions)
  (a b c : string) :
  JsonLaws H -> is_input_hash (opt_inputHash options) = true ->
  opt_taskId options = Resolver.createTaskId a (b ++ "__" ++ c) ->
  Resolver.createTaskId a (b ++ "__" ++ c) <> Resolver.createTaskId (a ++ "__" ++ b) c /\
  has (set now options s) (Resolver.createTaskId (a ++ "__" ++ b) c) (opt_inputHash options)
  = true.
Proof.
  intros Hlaws Hh Hid. split.
  - unfold Resolver.createTaskId. clear. induction a as [|x a IH]; simpl.
    + discriminate.
    + intros [= E]. exact (IH E).
  - apply is_input_hash_plain in Hh as [_ Hreg].
    pose proof (set_registry now options s Hlaws Hreg) as Hload.
    assert (Hdir : taskIdToDir (Resolver.createTaskId (a ++ "__" ++ b) c)
                   = taskIdToDir (opt_taskId options)).
    { rewrite Hid. unfold Resolver.createTaskId, Resolver.colon.
      change (String ":" ?x) with (":" ++ x)%string.
      rewrite !taskIdToDir_app. simpl. now rewrite !str_app_assoc. }
    unfold has, loadRegistry, getRegistryPath, getTaskDir in *. rewrite Hdir, Hload.
    now rewrite lookup_insert_eq.
Qed.

End Store.
End StoreCorrect.

Module StoreExamples.
Import Fs FsFacts Types Cache CacheFacts StoreFacts StoreCorrect RefHost.

(** A workspace [/repo/web] that holds one built file, and the options that
    cache it together with three chunks of output. *)
Definition built_fs : FS data :=
writeFileSync ["repo"; "web"; "out.js"] (DRaw "js") (mkdirSync ["repo"; "web"] Fs.empty).

Definition built_store : CacheStore data := Cache.new ["repo"] built_fs.

Definition out_options : CacheStoreOptions :=
mkCacheStoreOptions "web:build" "0123456789abcdef" ["out.js"] ["repo"; "web"]
                    (Some CacheCorrect.hi_chunks).

Definition cached_store : CacheStore data := Cache.set 5 out_options built_store.

Example cached_store_entries :
  listEntries cached_store "web:build" =
  [mkRegistryEntry "0123456789abcdef" 5 ["out.js"] [mkCachedFile "out.js" 0]].
Proof. vm_compute. reflexivity. Qed.



Lemma set_then_lookup_witness :
  has cached_store "web:build" "0123456789abcdef" = true /\
  getActiveHash cached_store "web:build" = Some "0123456789abcdef" /\
  exists cachedFiles,
    lookup cached_store "web:build" "0123456789abcdef" =
    mkCacheLookupResult true
      (Some (mkRegistryEntry "0123456789abcdef" 5 ["out.js"] cachedFiles)) true.
Proof.
  apply (set_then_lookup built_store 5 out_options host_laws). reflexivity.
Defined.




Lemma set_outputs_on_disk_witness :
  hasOutputsOnDisk cached_store "web:build" "0123456789abcdef" ["repo"; "web"] = true.
Proof. apply (set_outputs_on_disk built_store 5 out_options host_laws). reflexivity. Defined.




Definition colliding_options : CacheStoreOptions :=
mkCacheStoreOptions "a:b__c" "0123456789abcdef" [] ["repo"; "a"] None.

Lemma set_visible_under_colliding_id_witness :
  "a:b__c" <> "a__b:c" /\
  has (Cache.set 1 colliding_options store0) "a__b:c" "0123456789abcdef" = true.
Proof.
  exact (set_visible_under_colliding_id store0 1 colliding_options "a" "b" "c"
           host_laws eq_refl eq_refl).
Defined.

End StoreExamples.

(** ** src/commands/cleanup.ts: the cache id of a cleaned task *)

Module Cleanup.


End Cleanup.

Module CleanupFacts.
Import Fs FsFacts Types Cache CacheFacts StoreFacts StoreCorrect Resolver Cleanup.

Lemma taskIdToDir_length (x : string) :
  (String.length x <= String.length (taskIdToDir x))%nat.
Proof.
  induction x as [|c r IH]; simpl; [lia|].
  destruct (Ascii.eqb c ":"%char); simpl; lia.
Qed.

Section Store.
Context {Data : Type} {H : Host Data}.


End Store.
End CleanupFacts.

(** ** Restoring cached output files *)

Module RestoreFacts.
Import Fs FsFacts Types Cache CacheFacts StoreFacts.

Section Store.
Context {Data : Type} {H : Host Data}.
Implicit Types (s : CacheStore Data) (fs : FS Data) (P p q : path).











End Store.
End RestoreFacts.

Module RestoreCorrect.
Import Fs FsFacts Types Cache CacheFacts StoreFacts RestoreFacts.

Section Store.
Context {Data : Type} {H : Host Data}.


End Store.
End RestoreCorrect.

Module RestoreExamples.
Import Fs FsFacts Types Cache CacheFacts StoreFacts RestoreCorrect RefHost StoreExamples.




End RestoreExamples.

(** ** References, ids and dependency lists (src/core/task/resolver.ts) *)

Module ResolverFacts.
Import Fs Types Resolver Runner Topological GraphBuilder JsString JsMapFacts GraphBuilderFacts.

Lemma indexOf_from_absent c s : forall i, contains c s = false -> indexOf_from c s i = -1.
Proof.
  induction s as [|a r IH]; intros i Hc; simpl in *; [reflexivity|].
  apply orb_false_iff in Hc as [Ha Hr]. rewrite Ha. now apply IH.
Qed.

Lemma indexOf_contains c s :
  Z.eqb (indexOf s c) (-1) = negb (contains c s).
Proof.
  destruct (contains c s) eqn:E; simpl.
  - pose proof (indexOf_from_found c s 0 E). unfold indexOf.
    destruct (Z.eqb_spec (indexOf_from c s 0) (-1)); [lia | reflexivity].
  - unfold indexOf. now rewrite indexOf_from_absent.
Qed.

(** The string of a dependency. *)
Definition refString (ref : TaskDependency) : string :=
match ref with DepString s => s | DepObject t _ => t end.

(** The id [resolveDependencies] computes for one dependency, and whether
    the task it names is defined. *)
Definition dep_id (currentWorkspace : string) (dep : TaskDependency) : string :=
let ref := parseTaskReference dep currentWorkspace in
createTaskId (ref_workspaceId ref) (ref_taskName ref).

Definition dep_defined (context : WorkspaceContext) (currentWorkspace : string)
  (dep : TaskDependency) : bool :=
let ref := parseTaskReference dep currentWorkspace in
match getTaskDefinition context (ref_workspaceId ref) (ref_taskName ref) with
| Some _ => true
| None => false
end.

Definition dep_optional (currentWorkspace : string) (dep : TaskDependency) : bool :=
ref_optional (parseTaskReference dep currentWorkspace).

Lemma resolveDependency_error context ws deps taskRef availableTasks :
  fold_left (resolveDependency context ws) deps (TaskNotFoundError taskRef availableTasks)
  = TaskNotFoundError taskRef availableTasks.
Proof. induction deps as [|d r IH]; simpl; [reflexivity | exact IH]. Qed.

Lemma resolveDependency_step context ws acc d :
  resolveDependency context ws (Ok acc) d =
  if dep_defined context ws d then Ok (acc ++ [dep_id ws d])
  else if negb (dep_optional ws d) then TaskNotFoundError (dep_id ws d) None
       else Ok acc.
Proof.
  unfold resolveDependency, dep_defined, dep_id, dep_optional. cbn [bind].
  destruct (getTaskDefinition _ _ _); reflexivity.
Qed.


(** X11: the id of a dependency is the reference itself when it holds a
    colon, and the reference prefixed with the current workspace and a colon
    otherwise; a reference is optional exactly when it is an object with
    [optional: true]; and [createTaskId] after [parseTaskId] gives a task id
    back when it holds a colon, and puts a colon in front of it otherwise. *)
Theorem reference_task_id (ref : TaskDependency) (currentWorkspace taskId : string) :
  dep_id currentWorkspace ref =
    (if contains colon (refString ref) then refString ref
     else createTaskId currentWorkspace (refString ref)) /\
  (dep_optional currentWorkspace ref = true <-> exists t, ref = DepObject t (Some true)) /\
  createTaskId (parseTaskId taskId).1 (parseTaskId taskId).2 =
    (if contains colon taskId then taskId else createTaskId "" taskId).
Proof.
  split; [|split].
  - unfold dep_id, parseTaskReference. fold (refString ref).
    rewrite indexOf_contains, negb_involutive.
    destruct (contains colon (refString ref)) eqn:E; simpl; [|reflexivity].
    unfold createTaskId, slice_to, slice_from. now apply take_drop_indexOf.
  - unfold dep_optional, parseTaskReference.
    destruct (negb _); simpl; destruct ref as [s0|t [[|]|]]; simpl; split;
      try discriminate; try (intros (t0 & E); discriminate E); eauto.
  - destruct (contains colon taskId) eqn:E; [now apply createTaskId_parseTaskId|].
    unfold parseTaskId. rewrite indexOf_contains, E. reflexivity.
Qed.


End ResolverFacts.

(** ** What the breadth-first collection of [buildTaskGraph] gathers *)

Module CollectFacts.
Import Fs Types Resolver Runner Topological GraphBuilder JsString JsMapFacts JsSetFacts.
Import GraphBuilderFacts ResolverFacts.

Section Build.
Variable context : WorkspaceContext.

(** The task a task id resolves to, as lines 53-54 of graph.ts compute it. *)
Definition resolved (taskId : string) (t : ResolvedTask) : Prop :=
resolveTask context (parseTaskId taskId).1 (parseTaskId taskId).2 = Ok t.

(** [v] is one of the resolved dependencies of [u]. *)
Definition depends (u v : string) : Prop :=
exists t, resolved u t /\ v ∈ rt_dependencies t.

Record collect_inv (roots : list string) (tasks : list (string * ResolvedTask))
  (visited queue : list string) : Prop := {
  ci_nodup : NoDup (JsMap.keys tasks);
  ci_visited : forall x, x ∈ visited <-> x ∈ JsMap.keys tasks;
  ci_resolved : forall k t, (k, t) ∈ tasks -> resolved k t;
  ci_frontier : forall k t d, (k, t) ∈ tasks -> d ∈ rt_dependencies t ->
                d ∈ visited \/ d ∈ queue;
  ci_roots : forall r, r ∈ roots -> r ∈ visited \/ r ∈ queue;
  ci_reach : forall x, x ∈ visited \/ x ∈ queue -> exists r, r ∈ roots /\ rtc depends r x
}.

(** Lines 59-63: the queue after the dependencies of a task were pushed. *)
Lemma push_deps visited deps : forall queue x,
  x ∈ fold_left (fun q depId => if negb (JsSet.has visited depId) then q ++ [depId] else q)
                deps queue
  <-> x ∈ queue \/ (x ∈ deps /\ x ∉ visited).
Proof.
  induction deps as [|d r IH]; intros queue x; simpl.
  - split; [auto | intros [Hx|[Hx _]]; [exact Hx | inversion Hx]].
  - rewrite IH. destruct (JsSet.has visited d) eqn:E; simpl.
    + apply set_has_true in E. rewrite elem_of_cons. split.
      * intros [Hx|[Hx Hn]]; auto.
      * intros [Hx|[[->|Hx] Hn]]; auto. contradiction.
    + apply set_has_false in E. rewrite elem_of_app, list_elem_of_singleton, elem_of_cons. split.
      * intros [[Hx| ->]|[Hx Hn]]; auto.
      * intros [Hx|[[->|Hx] Hn]]; auto.
Qed.

Lemma push_deps_length visited deps : forall queue,
  (length (fold_left (fun q depId => if negb (JsSet.has visited depId) then q ++ [depId] else q)
                     deps queue) <= length queue + length deps)%nat.
Proof.
  induction deps as [|d r IH]; intros queue; simpl; [lia|].
  specialize (IH (if negb (JsSet.has visited d) then queue ++ [d] else queue)).
  destruct (negb _); rewrite ?length_app in IH; simpl in IH; lia.
Qed.

Lemma set_fresh_key {V} (m : list (string * V)) k v :
  k ∉ JsMap.keys m -> JsMap.set m k v = m ++ [(k, v)].
Proof.
  induction m as [|[k' v'] r IH]; simpl; intros Hk; [reflexivity|].
  apply not_elem_of_cons in Hk as [Hne Hk].
  destruct (String.eqb_spec k' k); [congruence|]. now rewrite IH.
Qed.

Lemma collect_inv_skip roots tasks visited taskId queue :
  collect_inv roots tasks visited (taskId :: queue) -> taskId ∈ visited ->
  collect_inv roots tasks visited queue.
Proof.
  intros [Hnd Hvis Hres Hfront Hroots Hreach] Hin. constructor; auto.
  - intros k t d Hk Hd. destruct (Hfront k t d Hk Hd) as [H1|H1]; [now left|].
    apply elem_of_cons in H1 as [->|H1]; auto.
  - intros r Hr. destruct (Hroots r Hr) as [H1|H1]; [now left|].
    apply elem_of_cons in H1 as [->|H1]; auto.
  - intros x [Hx|Hx]; apply Hreach; [now left | right; now right].
Qed.

Lemma collect_inv_visit roots tasks visited taskId queue t :
  collect_inv roots tasks visited (taskId :: queue) -> taskId ∉ visited ->
  resolved taskId t ->
  collect_inv roots (JsMap.set tasks taskId t) (JsSet.add visited taskId)
    (fold_left (fun q depId => if negb (JsSet.has (JsSet.add visited taskId) depId)
                               then q ++ [depId] else q)
               (rt_dependencies t) queue).
Proof.
  intros [Hnd Hvis Hres Hfront Hroots Hreach] Hnew Ht.
  assert (Hfresh : taskId ∉ JsMap.keys tasks) by now rewrite <- Hvis.
  rewrite (set_fresh_key tasks taskId t Hfresh).
  assert (Hkeys : JsMap.keys (tasks ++ [(taskId, t)]) = JsMap.keys tasks ++ [taskId]).
  { unfold JsMap.keys. now rewrite map_app. }
  assert (Hmove : forall x, x ∈ visited \/ x ∈ taskId :: queue ->
            x ∈ JsSet.add visited taskId \/
            x ∈ fold_left (fun q depId => if negb (JsSet.has (JsSet.add visited taskId) depId)
                                          then q ++ [depId] else q)
                          (rt_dependencies t) queue).
  { intros x [Hx|Hx]; [left; apply elem_of_add; now left|].
    apply elem_of_cons in Hx as [->|Hx]; [left; apply elem_of_add; now right|].
    right. apply push_deps. now left. }
  constructor.
  - rewrite Hkeys. apply NoDup_app. repeat split; [exact Hnd | | apply NoDup_singleton].
    intros x Hx Hx'. apply list_elem_of_singleton in Hx' as ->. contradiction.
  - intros x. rewrite Hkeys, elem_of_add, elem_of_app, list_elem_of_singleton, Hvis. tauto.
  - intros k t0 Hk. apply elem_of_app in Hk as [Hk|Hk]; [now apply Hres|].
    apply list_elem_of_singleton in Hk. injection Hk as -> ->. exact Ht.
  - intros k t0 d Hk Hd. apply elem_of_app in Hk as [Hk|Hk].
    + apply Hmove. eapply Hfront; eauto.
    + apply list_elem_of_singleton in Hk. injection Hk as -> ->.
      destruct (decide (d ∈ JsSet.add visited taskId)) as [Hv|Hv]; [now left|].
      right. apply push_deps. right. auto.
  - intros r Hr. apply Hmove. destruct (Hroots r Hr); auto.
  - intros x Hx.
    assert (Hold : x ∈ visited \/ x ∈ taskId :: queue \/ x ∈ rt_dependencies t).
    { destruct Hx as [Hx|Hx].
      - apply elem_of_add in Hx as [Hx| ->]; [now left | right; left; left].
      - apply push_deps in Hx as [Hx|[Hx _]]; [right; left; now right | now right; right]. }
    destruct Hold as [Hx'|[Hx'|Hx']]; [apply Hreach; now left | apply Hreach; now right |].
    destruct (Hreach taskId) as (r & Hr & Hpath); [right; left|].
    exists r. split; [exact Hr|]. eapply rtc_r; [exact Hpath|]. now exists t.
Qed.

(** What [collect] returns, for any fuel that suffices. *)
Lemma collect_result roots : forall fuel tasks visited queue result,
  collect_inv roots tasks visited queue ->
  collect fuel context tasks visited queue = Ok result ->
  collect_inv roots result (JsMap.keys result) [].
Proof.
  induction fuel as [|fuel IH]; intros tasks visited queue result Hinv Hrun;
    simpl in Hrun; [discriminate|].
  destruct queue as [|taskId queue'].
  - injection Hrun as <-. destruct Hinv as [Hnd Hvis Hres Hfront Hroots Hreach].
    constructor; auto.
    + intros k t d Hk Hd. destruct (Hfront k t d Hk Hd) as [H1|H1]; [|inversion H1].
      left. now apply Hvis.
    + intros r Hr. destruct (Hroots r Hr) as [H1|H1]; [|inversion H1]. left. now apply Hvis.
    + intros x [Hx|Hx]; [|inversion Hx]. apply Hreach. left. now apply Hvis.
  - destruct (JsSet.has visited taskId) eqn:E.
    + apply set_has_true in E. eapply IH; [|exact Hrun]. eapply collect_inv_skip; eauto.
    + apply set_has_false in E.
      destruct (parseTaskId taskId) as [workspaceId taskName] eqn:Hparse.
      destruct (resolveTask context workspaceId taskName) as [t| | |] eqn:Hres;
        simpl in Hrun; try discriminate.
      eapply IH; [|exact Hrun]. apply collect_inv_visit; auto.
      unfold resolved. now rewrite Hparse.
Qed.

Lemma collect_inv_initial roots : collect_inv roots [] [] roots.
Proof.
  constructor.
  - constructor.
  - intros x. split; intros Hx; inversion Hx.
  - intros k t Hk. inversion Hk.
  - intros k t d Hk. inversion Hk.
  - intros r Hr. now right.
  - intros x [Hx|Hx]; [inversion Hx|]. exists x. split; [exact Hx | apply rtc_refl].
Qed.

Lemma resolved_functional taskId t t' : resolved taskId t -> resolved taskId t' -> t = t'.
Proof. unfold resolved. congruence. Qed.

(** The collected map holds exactly the ids that the roots reach. *)
Lemma collected_reachable roots fuel result :
  collect fuel context [] [] roots = Ok result ->
  NoDup (JsMap.keys result) /\
  (forall k, k ∈ JsMap.keys result <-> exists r, r ∈ roots /\ rtc depends r k) /\
  (forall k t, JsMap.get result k = Some t -> resolved k t) /\
  (forall k t d, JsMap.get result k = Some t -> d ∈ rt_dependencies t ->
                 d ∈ JsMap.keys result).
Proof.
  intros Hrun. pose proof (collect_result roots fuel [] [] roots result
                             (collect_inv_initial roots) Hrun)
    as [Hnd Hvis Hres Hfront Hroots Hreach].
  assert (Hclosed : forall k t d, (k, t) ∈ result -> d ∈ rt_dependencies t ->
                                  d ∈ JsMap.keys result).
  { intros k t d Hk Hd. destruct (Hfront k t d Hk Hd) as [H1|H1]; [exact H1 | inversion H1]. }
  split; [exact Hnd|]. split; [|split].
  - intros k. split; [intros Hk; apply Hreach; now left|].
    intros (r & Hr & Hpath).
    assert (Hroot : r ∈ JsMap.keys result).
    { destruct (Hroots r Hr) as [H1|H1]; [exact H1 | inversion H1]. }
    clear Hr. induction Hpath as [x|x y z (t & Ht & Hy) _ IH]; [exact Hroot|].
    apply IH. destruct (key_get _ _ Hroot) as (t' & Hget).
    apply get_Some_elem in Hget.
    rewrite (resolved_functional x t t' Ht (Hres _ _ Hget)) in Hy. eapply Hclosed; eauto.
  - intros k t Hget. apply Hres. now apply get_Some_elem.
  - intros k t d Hget Hd. apply (Hclosed k t d); [now apply get_Some_elem | exact Hd].
Qed.

End Build.
End CollectFacts.

(** ** topologicalSort and getParallelLevels on any map *)

Module OrderFacts.
Import JsMap JsMapFacts Topological GraphSpec GraphFacts KahnBuild KahnCount KahnLoop.
Import LevelsFacts SortFacts DfsFacts.

(** [topologicalSort] decides whether the map has a cycle. *)
Lemma topologicalSort_cases (nodes : depmap) :
  NoDup (keys nodes) ->
  (acyclic nodes /\
   exists order, topologicalSort nodes = Ok order /\ topological_order nodes order) \/
  (cyclic nodes /\
   exists cycle, topologicalSort nodes = CyclicDependencyError cycle /\
                 closed_walk nodes cycle).
Proof.
  intros Hnd.
  destruct (kahn_result nodes Hnd) as (res & Hloop & Hndr & Hsub & Hstuck & Hord).
  destruct (Nat.eqb_spec (length res) (size nodes)) as [E|E].
  - left. pose proof (proj1 (kahn_full_iff nodes res Hnd Hndr Hsub Hstuck Hord) E) as Hacyc.
    split; [exact Hacyc | now apply topologicalSort_acyclic].
  - right.
    assert (Hcyc : cyclic nodes).
    { set (S := filter (fun y => y ∉ res) (keys nodes)).
      apply (stuck_cycle nodes S).
      - intros ES. apply E. rewrite size_keys.
        apply Permutation_length, NoDup_Permutation; [assumption..|].
        intros x. split; [apply Hsub|]. intros Hx.
        destruct (decide (x ∈ res)) as [Hin|Hout]; [exact Hin | exfalso].
        assert (Hin : x ∈ S) by (apply list_elem_of_filter; auto).
        rewrite ES in Hin. inversion Hin.
      - intros y Hy. apply list_elem_of_filter in Hy as [Hy Hk].
        destruct (Hstuck y Hk Hy) as (d & Hd & Hdr). exists d. split; [exact Hd|].
        apply list_elem_of_filter. split; [exact Hdr | apply Hd]. }
    split; [exact Hcyc|].
    destruct (detectCycle_cyclic nodes Hcyc) as (cycle & Hdet & Hwalk).
    exists cycle. split; [|exact Hwalk].
    rewrite (topologicalSort_unfold nodes res Hloop), Hdet.
    destruct (Nat.eqb_spec (length res) (size nodes)); [contradiction | reflexivity].
Qed.

(** One round of the level loop that found a non-empty level. *)
Lemma levels_round nodes levels completed remaining :
  levels_inv nodes levels completed remaining ->
  let currentLevel := List.filter (allDepsCompleted nodes completed) remaining in
  currentLevel <> [] ->
  forall completed' remaining',
    fold_left (fun '(c, r) nodeId => (JsSet.add c nodeId, JsSet.delete r nodeId))
              currentLevel (completed, remaining) = (completed', remaining') ->
    levels_inv nodes (levels ++ [currentLevel]) completed' remaining' /\
    (length remaining' < length remaining)%nat.
Proof.
  intros [Hnd Hcover Hcomp Hdeps Hne] currentLevel Hnonempty completed' remaining' Hfold.
  assert (Hcur : forall x, x ∈ currentLevel <->
            x ∈ remaining /\ allDepsCompleted nodes completed x = true).
  { intros x. unfold currentLevel. now rewrite list_elem_of_In, filter_In, <- list_elem_of_In. }
  destruct (move_level currentLevel completed remaining)
    as (c' & r' & Hfold' & Hc & Hr & Hndr & _ & Hlt).
  rewrite Hfold in Hfold'. injection Hfold' as <- <-.
  apply NoDup_app in Hnd as (Hnd1 & Hdis & Hnd2).
  split.
  - constructor.
    + rewrite concat_app. simpl. rewrite app_nil_r, <- app_assoc.
      apply NoDup_app. repeat split; [exact Hnd1 | |].
      * intros x Hx Hx'. apply (Hdis x Hx).
        apply elem_of_app in Hx' as [Hx'|Hx'].
        -- now apply Hcur in Hx' as [Hx' _].
        -- now apply Hr in Hx' as [Hx' _].
      * apply NoDup_app. repeat split.
        -- unfold currentLevel. apply NoDup_ListNoDup, List.NoDup_filter.
           now apply NoDup_ListNoDup.
        -- intros x Hx Hx'. now apply Hr in Hx' as [_ Hx'].
        -- auto.
    + intros x. rewrite <- Hcover, concat_app. simpl.
      rewrite app_nil_r, !elem_of_app, Hr, Hcur.
      destruct (decide (x ∈ currentLevel)) as [Hin|Hin].
      * apply Hcur in Hin. tauto.
      * rewrite Hcur in Hin. tauto.
    + intros x. rewrite Hc, concat_app. simpl. rewrite app_nil_r, elem_of_app, Hcomp.
      reflexivity.
    + apply levels_respect_snoc; [exact Hdeps|].
      intros v d Hv Hd. apply Hcomp. apply Hcur in Hv as [_ Hv].
      eapply allDepsCompleted_true; eauto.
    + apply Forall_app. split; [exact Hne | repeat constructor; exact Hnonempty].
  - apply Hlt. clearbody currentLevel. destruct currentLevel as [|x l]; [contradiction|].
    exists x. split; [left|]. apply (Hcur x). left.
Qed.

(** The nodes the level loop is stuck with: none of them is ready. *)
Definition stuck (nodes : depmap) (remaining : list string) : Prop :=
remaining <> [] /\
forall x, x ∈ remaining -> x ∈ keys nodes /\ exists d, edge_in nodes x d /\ d ∈ remaining.

Lemma levels_loop_cases nodes : forall fuel levels completed remaining,
  levels_inv nodes levels completed remaining ->
  (length remaining < fuel)%nat ->
  (exists res completed',
     levels_loop fuel nodes levels completed remaining = Ok res /\
     levels_inv nodes res completed' []) \/
  (exists placed completed' rem,
     levels_loop fuel nodes levels completed remaining = CyclicDependencyError rem /\
     levels_inv nodes placed completed' rem /\ stuck nodes rem).
Proof.
  induction fuel as [|fuel IH]; intros levels completed remaining Hinv Hfuel; [lia|].
  simpl. destruct remaining as [|x rem] eqn:E; [left; simpl; eauto|].
  rewrite <- E in *. assert (Hrem : remaining <> []) by (rewrite E; discriminate).
  replace (negb (0 <? length remaining)%nat) with false by (rewrite E; reflexivity).
  destruct (List.filter (allDepsCompleted nodes completed) remaining) as [|y lvl] eqn:Ef.
  - right. exists levels, completed, remaining. cbn [length Nat.eqb].
    split; [reflexivity|]. split; [exact Hinv|]. split; [exact Hrem|].
    intros v Hv. destruct Hinv as [Hnd Hcover Hcomp Hdeps Hne].
    split; [apply Hcover, elem_of_app; now right|].
    destruct (allDepsCompleted nodes completed v) eqn:Ev.
    + assert (Hin : v ∈ List.filter (allDepsCompleted nodes completed) remaining).
      { apply list_elem_of_In, filter_In. split; [now apply list_elem_of_In | exact Ev]. }
      rewrite Ef in Hin. inversion Hin.
    + destruct (allDepsCompleted_false _ _ _ Ev) as (d & Hd & Hdc).
      exists d. split; [exact Hd|].
      assert (Hk : d ∈ concat levels ++ remaining) by (apply Hcover, Hd).
      apply elem_of_app in Hk as [Hk|Hk]; [|exact Hk].
      exfalso. apply Hdc. now apply Hcomp.
  - cbn [length Nat.eqb].
    destruct (fold_left _ (y :: lvl) (completed, remaining)) as [c' r'] eqn:Efold.
    pose proof (levels_round nodes levels completed remaining Hinv) as Hround.
    cbv zeta in Hround. rewrite Ef in Hround.
    destruct (Hround ltac:(discriminate) c' r' Efold) as [Hinv' Hlt].
    apply (IH _ _ _ Hinv'). lia.
Qed.

(** A node placed in a level has all its in-map dependencies placed in
    earlier levels, so no placed node lies on a cycle. *)
Lemma placed_no_cycle nodes levels :
  levels_respect_deps nodes levels ->
  forall y x, y ∈ concat levels -> tc (edge_in nodes) y x ->
    x ∈ concat levels /\
    (SchedulerFacts.level_index levels x < SchedulerFacts.level_index levels y)%nat.
Proof.
  intros Hresp.
  assert (Hedge : forall v d, v ∈ concat levels -> edge_in nodes v d ->
            d ∈ concat levels /\
            (SchedulerFacts.level_index levels d < SchedulerFacts.level_index levels v)%nat).
  { intros v d Hv Hd. split; [|now apply (SchedulerFacts.level_index_edge nodes)].
    destruct (SchedulerFacts.level_index_split levels v Hv) as (e & lv & la & E & Hin & _).
    pose proof (Hresp e lv la v d E Hin Hd) as Hde. rewrite E, concat_app.
    apply elem_of_app. now left. }
  intros y x Hy Hyx. induction Hyx as [y x Hr|y m x Hr _ IH]; [now apply Hedge|].
  destruct (Hedge y m Hy Hr) as [Hm Hlt]. destruct (IH Hm) as [Hx Hlt']. split; [exact Hx | lia].
Qed.

Lemma getParallelLevels_cases (nodes : depmap) :
  NoDup (keys nodes) ->
  (exists levels, getParallelLevels nodes = Ok levels /\
                  levels_partition nodes levels /\ levels_respect_deps nodes levels) \/
  (exists rem, getParallelLevels nodes = CyclicDependencyError rem /\ stuck nodes rem /\
               forall x, tc (dep_edge nodes) x x -> x ∈ rem).
Proof.
  intros Hnd. unfold getParallelLevels.
  destruct (levels_loop_cases nodes (S (size nodes)) [] []
              (JsSet.of_list (keys nodes)) (levels_initial nodes Hnd))
    as [(levels & c' & Hloop & [Hnd' Hcover _ Hdeps Hne])
       |(placed & c' & rem & Hloop & [Hnd' Hcover _ Hdeps Hne] & Hstuck)].
  - rewrite (JsSetFacts.of_list_NoDup _ Hnd). unfold size, keys. rewrite length_fmap. lia.
  - left. exists levels. split; [exact Hloop|]. rewrite app_nil_r in *.
    split; [split|]; [|exact Hne | exact Hdeps].
    apply NoDup_Permutation; [exact Hnd' | exact Hnd |]. intros x. now rewrite <- Hcover.
  - right. exists rem. split; [exact Hloop|]. split; [exact Hstuck|].
    intros x Hx. apply cycle_edge_in in Hx as [Hx Hk].
    apply Hcover, elem_of_app in Hk as [Hk|Hk]; [exfalso | exact Hk].
    destruct (placed_no_cycle nodes placed Hdeps x x Hk Hx) as [_ Hlt]. lia.
Qed.

(** Both functions return, or the first one throws. *)
Lemma sort_cases_pair (nodes : depmap) :
  NoDup (keys nodes) ->
  (exists order levels,
     topologicalSort nodes = Ok order /\ getParallelLevels nodes = Ok levels) \/
  (exists cycle, topologicalSort nodes = CyclicDependencyError cycle /\
                 closed_walk nodes cycle).
Proof.
  intros Hnd.
  destruct (topologicalSort_cases nodes Hnd)
    as [(Hacyc & order & Hsort & _)|(_ & cycle & Hsort & Hwalk)]; [left | right; eauto].
  destruct (getParallelLevels_acyclic nodes Hnd Hacyc) as (levels & Hlev & _). eauto.
Qed.

(** X13: on every dependency map the two functions of topological.ts
    finish, and they agree: either both return (a topological order, and
    levels that partition the nodes and respect the dependencies), or both
    throw [CyclicDependencyError]; [topologicalSort] then reports a closed
    walk, [getParallelLevels] the nodes it could not place: a non-empty list
    of nodes, each with a dependency in the list, that holds every node on a
    cycle. *)
Theorem sort_and_levels_agree (nodes : depmap) :
  NoDup (keys nodes) ->
  (exists order levels,
     topologicalSort nodes = Ok order /\ getParallelLevels nodes = Ok levels /\
     topological_order nodes order /\
     levels_partition nodes levels /\ levels_respect_deps nodes levels) \/
  (exists cycle rem,
     topologicalSort nodes = CyclicDependencyError cycle /\
     getParallelLevels nodes = CyclicDependencyError rem /\
     closed_walk nodes cycle /\ rem <> [] /\
     (forall x, x ∈ rem -> x ∈ keys nodes /\ exists d, edge_in nodes x d /\ d ∈ rem) /\
     (forall x, tc (dep_edge nodes) x x -> x ∈ rem)).
Proof.
  intros Hnd.
  destruct (topologicalSort_cases nodes Hnd)
    as [(Hacyc & order & Hsort & Htopo)|(Hcyc & cycle & Hsort & Hwalk)];
    destruct (getParallelLevels_cases nodes Hnd)
      as [(levels & Hlev & Hpart & Hresp)|(rem & Hlev & [Hne Hstuck] & Hon)].
  - left. exists order, levels. auto.
  - exfalso. destruct (stuck_cycle nodes rem Hne) as (y & Hy); [|exact (Hacyc y Hy)].
    intros x Hx. now apply Hstuck.
  - exfalso. destruct Hcyc as (x & Hx). apply cycle_edge_in in Hx as [Hx Hk].
    destruct Hpart as [Hperm _]. rewrite <- Hperm in Hk.
    destruct (placed_no_cycle nodes levels Hresp x x Hk Hx) as [_ Hlt]. lia.
  - right. exists cycle, rem. auto 10.
Qed.

Lemma sort_and_levels_agree_witness :
  exists cycle rem,
    topologicalSort CycleFacts.e2_nodes = CyclicDependencyError cycle /\
    getParallelLevels CycleFacts.e2_nodes = CyclicDependencyError rem /\
    closed_walk CycleFacts.e2_nodes cycle /\ rem <> [] /\
    (forall x, x ∈ rem ->
       x ∈ keys CycleFacts.e2_nodes /\ exists d, edge_in CycleFacts.e2_nodes x d /\ d ∈ rem) /\
    (forall x, tc (dep_edge CycleFacts.e2_nodes) x x -> x ∈ rem).
Proof.
  destruct (sort_and_levels_agree CycleFacts.e2_nodes CycleFacts.e2_nodes_NoDup)
    as [(order & levels & Hsort & _)|Hcyc]; [|exact Hcyc].
  vm_compute in Hsort. discriminate Hsort.
Defined.

End OrderFacts.

(** ** src/core/task/resolver.ts and graph.ts: all tasks of all workspaces *)

Module FullGraph.
Import Fs Types Resolver Runner Topological GraphBuilder.

(** The pairs the two nested loops of [getAllTasks] and [buildFullTaskGraph]
    run through: every workspace of [taskConfigs] with every key of its
    task table. *)
Definition all_entries (context : WorkspaceContext) : list (string * string) :=
flat_map (fun '(workspaceId, config) =>
            map (fun taskName => (workspaceId, taskName)) (JsMap.keys (cc_tasks config)))
         (wc_taskConfigs context).

(** [getAllTasks(context)] *)
Definition getAllTasks (context : WorkspaceContext) : list string :=
flat_map (fun '(workspaceId, config) =>
            map (fun taskName => createTaskId workspaceId taskName)
                (JsMap.keys (cc_tasks config)))
         (wc_taskConfigs context).




End FullGraph.

Module TaskIndexFacts.
Import Fs Types Resolver Runner Topological GraphBuilder FullGraph.
Import JsString JsMapFacts JsSetFacts GraphBuilderFacts ResolverFacts.


Lemma all_entries_defined context workspaceId taskName :
  getTaskDefinition context workspaceId taskName <> None ->
  (workspaceId, taskName) ∈ all_entries context.
Proof.
  unfold getTaskDefinition, all_entries. intros Hdef.
  destruct (JsMap.get (wc_taskConfigs context) workspaceId) as [config|] eqn:Hc; [|contradiction].
  destruct (JsMap.get (cc_tasks config) taskName) as [def|] eqn:Ht; [|contradiction].
  apply list_elem_of_In, in_flat_map. exists (workspaceId, config).
  split; [apply list_elem_of_In; now apply get_Some_elem|].
  apply in_map, list_elem_of_In. eapply get_Some_key; eauto.
Qed.


Lemma getAllTasks_entries context :
  getAllTasks context =
  map (fun '(workspaceId, taskName) => createTaskId workspaceId taskName) (all_entries context).
Proof.
  unfold getAllTasks, all_entries.
  induction (wc_taskConfigs context) as [|[ws config] r IH]; simpl; [reflexivity|].
  rewrite map_app, IH, map_map. reflexivity.
Qed.

Lemma getAllTasks_defined context workspaceId taskName :
  getTaskDefinition context workspaceId taskName <> None ->
  createTaskId workspaceId taskName ∈ getAllTasks context.
Proof.
  intros Hdef. rewrite getAllTasks_entries. apply list_elem_of_fmap.
  exists (workspaceId, taskName). split; [reflexivity | now apply all_entries_defined].
Qed.


(** What an [Ok] answer of [resolveDependencies] holds. *)
Lemma resolveDependencies_Ok context ws deps : forall acc l,
  fold_left (resolveDependency context ws) deps (Ok acc) = Ok l ->
  l = acc ++ map (dep_id ws) (List.filter (dep_defined context ws) deps).
Proof.
  induction deps as [|d r IH]; intros acc l Hrun; cbn [fold_left List.filter] in *.
  - injection Hrun as <-. now rewrite app_nil_r.
  - rewrite resolveDependency_step in Hrun. destruct (dep_defined context ws d) eqn:E.
    + rewrite (IH _ _ Hrun). cbn [map]. now rewrite <- app_assoc.
    + destruct (negb (dep_optional ws d)); [|now apply IH].
      rewrite resolveDependency_error in Hrun. discriminate Hrun.
Qed.

Lemma resolveTask_Ok context ws name t :
  resolveTask context ws name = Ok t ->
  exists definition,
    getTaskDefinition context ws name = Some definition /\
    t = mkResolvedTask (createTaskId ws name) ws name definition
          (map (dep_id ws)
               (List.filter (dep_defined context ws) (default [] (td_dependsOn definition)))).
Proof.
  unfold resolveTask. destruct (getTaskDefinition context ws name) as [definition|];
    [|discriminate].
  destruct (resolveDependencies _ _ _) as [deps| | |] eqn:Hdeps; simpl; try discriminate.
  intros [= <-]. exists definition. split; [reflexivity|].
  unfold resolveDependencies in Hdeps. now rewrite (resolveDependencies_Ok _ _ _ [] deps Hdeps).
Qed.


End TaskIndexFacts.

(** ** The graph constructors halt *)

Module BuilderFacts.
Import Fs Types Resolver Runner Topological GraphBuilder FullGraph.
Import JsString JsMapFacts JsSetFacts GraphBuilderFacts ResolverFacts CollectFacts.
Import TaskIndexFacts GraphSpec GraphFacts LevelsFacts SortFacts DfsFacts OrderFacts.

(** The longest [dependsOn] list of the configuration. *)
Definition dep_counts (context : WorkspaceContext) : list nat :=
flat_map (fun '(_, config) =>
            map (fun '(_, definition) => length (default [] (td_dependsOn definition)))
                (cc_tasks config))
         (wc_taskConfigs context).

Definition max_deps (context : WorkspaceContext) : nat := list_max (dep_counts context).

(** Steps that suffice for the breadth-first loop started on [n] roots:
    each defined task is visited at most once and pushes at most
    [max_deps] ids. *)
Definition enough_fuel (context : WorkspaceContext) (n : nat) : nat :=
S (n + S (max_deps context) * length (getAllTasks context)).

Lemma deps_bounded context ws name definition :
  getTaskDefinition context ws name = Some definition ->
  (length (default [] (td_dependsOn definition)) <= max_deps context)%nat.
Proof.
  unfold getTaskDefinition. intros Hdef.
  destruct (JsMap.get (wc_taskConfigs context) ws) as [config|] eqn:Hc; [|discriminate].
  apply get_Some_elem in Hc, Hdef.
  assert (Hall : Forall (fun k => (k <= max_deps context)%nat) (dep_counts context))
    by now apply list_max_le.
  rewrite Forall_forall in Hall. apply Hall. unfold dep_counts.
  apply list_elem_of_In, in_flat_map. exists (ws, config).
  split; [now apply list_elem_of_In|].
  apply in_map_iff. exists (name, definition). split; [reflexivity | now apply list_elem_of_In].
Qed.

Lemma resolveTask_deps_length context ws name t :
  resolveTask context ws name = Ok t ->
  (length (rt_dependencies t) <= max_deps context)%nat.
Proof.
  intros Hres. apply resolveTask_Ok in Hres as (definition & Hdef & ->). simpl.
  rewrite length_map. etransitivity; [apply filter_length_le|]. eapply deps_bounded; eauto.
Qed.

Lemma resolveDependencies_outcome context ws deps : forall acc,
  (exists l, fold_left (resolveDependency context ws) deps (Ok acc) = Ok l) \/
  (exists id, fold_left (resolveDependency context ws) deps (Ok acc) = TaskNotFoundError id None).
Proof.
  induction deps as [|d r IH]; intros acc; cbn [fold_left]; [left; eauto|].
  rewrite resolveDependency_step. destruct (dep_defined context ws d); [apply IH|].
  destruct (negb _); [|apply IH]. right. rewrite resolveDependency_error. eauto.
Qed.

(** [resolveTask] returns or throws [TaskNotFoundError]. *)
Lemma resolveTask_outcome context ws name :
  (exists t, resolveTask context ws name = Ok t) \/
  (exists id availableTasks, resolveTask context ws name = TaskNotFoundError id availableTasks).
Proof.
  unfold resolveTask. destruct (getTaskDefinition context ws name) as [definition|]; [|eauto].
  unfold resolveDependencies.
  destruct (resolveDependencies_outcome context ws (default [] (td_dependsOn definition)) [])
    as [(l & ->)|(id & ->)]; simpl; eauto.
Qed.

Lemma collect_halts context : forall fuel tasks visited queue,
  Forall (fun id => contains colon id = true) queue ->
  (length queue + S (max_deps context)
                  * length (filter (fun k => k ∉ visited) (getAllTasks context)) < fuel)%nat ->
  collect fuel context tasks visited queue <> OutOfFuel.
Proof.
  induction fuel as [|fuel IH]; intros tasks visited queue Hq Hfuel; [lia|].
  cbn [collect]. destruct queue as [|taskId queue']; [discriminate|].
  apply Forall_cons in Hq as [Hc Hq]. simpl in Hfuel.
  destruct (JsSet.has visited taskId) eqn:E; [apply IH; [exact Hq | lia]|].
  apply set_has_false in E.
  pose proof (createTaskId_parseTaskId taskId Hc) as Hid.
  destruct (parseTaskId taskId) as [workspaceId taskName]. simpl in Hid.
  destruct (resolveTask_outcome context workspaceId taskName) as [(t & Hres)|(id & av & Hres)];
    rewrite Hres; cbn [bind]; [|discriminate].
  pose proof (resolveTask_deps_length _ _ _ _ Hres) as Hlen.
  pose proof (resolveTask_spec _ _ _ _ Hres) as [_ Hcolon].
  assert (Hlisted : taskId ∈ getAllTasks context).
  { rewrite <- Hid. apply getAllTasks_defined. unfold resolveTask in Hres.
    destruct (getTaskDefinition context workspaceId taskName); [discriminate | discriminate Hres]. }
  pose proof (unvisited_strict_list (getAllTasks context) visited (JsSet.add visited taskId)
                taskId) as Hless.
  apply IH.
  - apply Forall_forall. intros x Hx. apply push_deps in Hx as [Hx|[Hx _]].
    + rewrite Forall_forall in Hq. now apply Hq.
    + rewrite Forall_forall in Hcolon. now apply Hcolon.
  - pose proof (push_deps_length (JsSet.add visited taskId) (rt_dependencies t) queue').
    assert (length (filter (fun k => k ∉ JsSet.add visited taskId) (getAllTasks context))
            < length (filter (fun k => k ∉ visited) (getAllTasks context)))%nat.
    { apply Hless; auto.
      - intros x Hx. apply elem_of_add. now left.
      - apply elem_of_add. now right. }
    nia.
Qed.

Lemma collect_fuel_mono context : forall fuel fuel' tasks visited queue,
  (fuel <= fuel')%nat -> collect fuel context tasks visited queue <> OutOfFuel ->
  collect fuel' context tasks visited queue = collect fuel context tasks visited queue.
Proof.
  induction fuel as [|fuel IH]; intros fuel' tasks visited queue Hle Hrun; [contradiction|].
  destruct fuel' as [|fuel']; [lia|]. cbn [collect] in *.
  destruct queue as [|taskId queue']; [reflexivity|].
  destruct (JsSet.has visited taskId); [apply IH; [lia | exact Hrun]|].
  destruct (parseTaskId taskId) as [workspaceId taskName].
  destruct (resolveTask context workspaceId taskName) as [t| | |]; cbn [bind] in *;
    try reflexivity.
  apply IH; [lia | exact Hrun].
Qed.

Lemma unvisited_all (ks : list string) : (length (filter (fun k => k ∉ []) ks) <= length ks)%nat.
Proof. apply length_filter. Qed.

(** The collection from [roots] halts within [enough_fuel]. *)
Lemma collect_total context roots fuel :
  Forall (fun id => contains colon id = true) roots ->
  (enough_fuel context (length roots) <= fuel)%nat ->
  collect fuel context [] [] roots <> OutOfFuel /\
  collect fuel context [] [] roots
  = collect (enough_fuel context (length roots)) context [] [] roots.
Proof.
  intros Hroots Hfuel.
  assert (Hhalt : collect (enough_fuel context (length roots)) context [] [] roots <> OutOfFuel).
  { apply collect_halts; [exact Hroots|]. unfold enough_fuel.
    pose proof (unvisited_all (getAllTasks context)). nia. }
  rewrite (collect_fuel_mono context _ fuel [] [] roots Hfuel Hhalt). auto.
Qed.

(** Lines 66-80 on a task map with distinct keys: a graph, or a cycle. *)
Lemma assemble_cases tasks rootTasks :
  NoDup (JsMap.keys tasks) ->
  (exists graph, assemble tasks rootTasks = Ok graph) \/
  (exists cycle, assemble tasks rootTasks = CyclicDependencyError cycle /\
                 closed_walk (depMapOf tasks) cycle).
Proof.
  intros Hnd.
  assert (Hndm : NoDup (JsMap.keys (depMapOf tasks)))
    by now rewrite SchedulerFacts.depMapOf_keys.
  unfold assemble.
  destruct (sort_cases_pair (depMapOf tasks) Hndm)
    as [(order & levels & -> & ->)|(cycle & -> & Hwalk)]; simpl; eauto.
Qed.

End BuilderFacts.

(** ** What [buildTaskGraph] and [buildMultiWorkspaceTaskGraph] return *)

Module BuilderCorrect.
Import Fs Types Resolver Runner Topological GraphBuilder FullGraph.
Import JsString JsMapFacts JsSetFacts GraphBuilderFacts ResolverFacts CollectFacts.
Import TaskIndexFacts GraphSpec GraphFacts LevelsFacts SortFacts DfsFacts OrderFacts.
Import BuilderFacts.

Lemma get_map_values {V W} (f : V -> W) (m : list (string * V)) k :
  JsMap.get (map (fun '(id, v) => (id, f v)) m) k = f <$> JsMap.get m k.
Proof.
  induction m as [|[k' v] r IH]; simpl; [reflexivity|].
  destruct (String.eqb k' k); [reflexivity | exact IH].
Qed.

Lemma get_depMapOf tasks k :
  NoDup (JsMap.keys tasks) ->
  JsMap.get (depMapOf tasks) k = rt_dependencies <$> JsMap.get tasks k.
Proof.
  intros Hnd. rewrite (SchedulerFacts.depMapOf_map tasks Hnd). apply get_map_values.
Qed.

(** An edge of the dependency map is a dependency of a task of the map. *)
Lemma dep_edge_depMapOf tasks u v :
  NoDup (JsMap.keys tasks) ->
  (dep_edge (depMapOf tasks) u v <->
   exists t, JsMap.get tasks u = Some t /\ v ∈ rt_dependencies t).
Proof.
  intros Hnd. unfold dep_edge. rewrite (get_depMapOf tasks u Hnd). split.
  - intros (deps & Hget & Hv). destruct (JsMap.get tasks u) as [t|]; [|discriminate].
    injection Hget as <-. eauto.
  - intros (t & -> & Hv). eauto.
Qed.

Lemma collected_NoDup context fuel roots tasks :
  Forall (fun id => contains colon id = true) roots ->
  collect fuel context [] [] roots = Ok tasks -> NoDup (JsMap.keys tasks).
Proof.
  intros Hroots Hcol.
  eapply collect_spec in Hcol as [Hnd _]; [exact Hnd | constructor | constructor | exact Hroots].
Qed.





Section Build.
Variable context : WorkspaceContext.

(** What the two constructors share: the collection from [roots], then
    lines 66-80. *)
Definition build (fuel : nat) (roots : list string) : outcome TaskGraph :=
bind (collect fuel context [] [] roots) (fun tasks => assemble tasks roots).

Lemma buildTaskGraph_build fuel targetWorkspace targetTask :
  buildTaskGraph fuel context targetWorkspace targetTask
  = build fuel [createTaskId targetWorkspace targetTask].
Proof. reflexivity. Qed.

(** The roots of [buildMultiWorkspaceTaskGraph]: lines 100-105. *)
Definition multi_roots (workspaceIds : list string) (taskName : string) : list string :=
map (fun wsId => createTaskId wsId taskName)
    (List.filter (fun wsId => match getTaskDefinition context wsId taskName with
                              | Some _ => true
                              | None => false
                              end) workspaceIds).

Lemma buildMulti_build fuel workspaceIds taskName :
  buildMultiWorkspaceTaskGraph fuel context workspaceIds taskName
  = build fuel (multi_roots workspaceIds taskName).
Proof. reflexivity. Qed.

Lemma multi_roots_colon workspaceIds taskName :
  Forall (fun id => contains colon id = true) (multi_roots workspaceIds taskName).
Proof.
  apply Forall_forall. intros id Hid.
  apply list_elem_of_fmap in Hid as (ws & -> & _). apply createTaskId_colon.
Qed.

Lemma multi_roots_length workspaceIds taskName :
  (length (multi_roots workspaceIds taskName) <= length workspaceIds)%nat.
Proof. unfold multi_roots. rewrite length_map. apply filter_length_le. Qed.

(** The graph of a successful construction. *)
Lemma build_Ok fuel roots graph :
  Forall (fun id => contains colon id = true) roots ->
  build fuel roots = Ok graph ->
  assembled graph /\ rootTasks graph = roots /\
  (forall k, k ∈ JsMap.keys (tasks graph) <-> exists r, r ∈ roots /\ rtc (depends context) r k) /\
  (forall k t, JsMap.get (tasks graph) k = Some t ->
     resolved context k t /\ rt_id t = k /\
     forall d, d ∈ rt_dependencies t -> d ∈ JsMap.keys (tasks graph)).
Proof.
  intros Hroots Hrun.
  pose proof (collected_assembled fuel context roots graph Hroots Hrun) as Hasm.
  unfold build in Hrun.
  destruct (collect fuel context [] [] roots) as [tasks| | |] eqn:Hcol;
    simpl in Hrun; try discriminate.
  destruct (assemble_fields _ _ _ Hrun) as [Ht Hr].
  destruct (collected_reachable context roots fuel tasks Hcol) as (Hnd & Hkeys & Hres & Hclosed).
  rewrite Ht. split; [exact Hasm|]. split; [exact Hr|]. split; [exact Hkeys|].
  intros k t Hget. split; [now apply Hres|]. split.
  - destruct Hasm as (_ & Hids & _). rewrite Ht in Hids. rewrite Forall_forall in Hids.
    exact (Hids _ (get_Some_elem _ _ _ Hget)).
  - intros d Hd. eapply Hclosed; eauto.
Qed.

(** In an assembled graph that holds every dependency of its tasks, the
    order and the levels respect every dependency. *)
Lemma closed_graph_order graph :
  assembled graph ->
  (forall k t d, JsMap.get (tasks graph) k = Some t -> d ∈ rt_dependencies t ->
                 d ∈ JsMap.keys (tasks graph)) ->
  executionOrder graph ≡ₚ JsMap.keys (tasks graph) /\
  (forall before k after t d,
     executionOrder graph = before ++ k :: after ->
     JsMap.get (tasks graph) k = Some t -> d ∈ rt_dependencies t -> d ∈ before) /\
  concat (parallelLevels graph) ≡ₚ JsMap.keys (tasks graph) /\
  Forall (fun level => level <> []) (parallelLevels graph) /\
  (forall earlier level later k t d,
     parallelLevels graph = earlier ++ level :: later -> k ∈ level ->
     JsMap.get (tasks graph) k = Some t -> d ∈ rt_dependencies t -> d ∈ concat earlier).
Proof.
  intros Hasm Hclosed.
  destruct (SchedulerCorrect.assembled_levels graph Hasm) as ([Hperm Hne] & Hresp).
  destruct Hasm as (Hnd & Hids & Hasm).
  assert (Hndm : NoDup (JsMap.keys (depMapOf (tasks graph))))
    by now rewrite SchedulerFacts.depMapOf_keys.
  rewrite (SchedulerFacts.depMapOf_keys _ Hnd) in Hperm.
  assert (Hedge : forall k t d, JsMap.get (tasks graph) k = Some t -> d ∈ rt_dependencies t ->
                                edge_in (depMapOf (tasks graph)) k d).
  { intros k t d Hget Hd. split.
    - apply dep_edge_depMapOf; eauto.
    - rewrite (SchedulerFacts.depMapOf_keys _ Hnd). eauto. }
  assert (Hsort : topologicalSort (depMapOf (tasks graph)) = Ok (executionOrder graph)).
  { unfold assemble in Hasm.
    destruct (topologicalSort (depMapOf (tasks graph))) as [order| | |]; try discriminate.
    simpl in Hasm. destruct (getParallelLevels _) as [levels| | |]; try discriminate.
    simpl in Hasm. injection Hasm as Hgraph. rewrite <- Hgraph. reflexivity. }
  pose proof (topologicalSort_Ok_acyclic _ _ Hndm Hsort) as Hacyc.
  destruct (topologicalSort_acyclic _ Hndm Hacyc) as (order & Hsort' & Hord & Hprec).
  rewrite Hsort in Hsort'. injection Hsort' as <-.
  rewrite (SchedulerFacts.depMapOf_keys _ Hnd) in Hord.
  split; [exact Hord|]. split; [|split; [exact Hperm|split; [exact Hne|]]].
  - intros before k after t d E Hget Hd. eapply Hprec; eauto.
  - intros earlier level later k t d E Hk Hget Hd. eapply Hresp; eauto.
Qed.





End Build.

(** X15: the breadth-first loops of [buildTaskGraph] and
    [buildMultiWorkspaceTaskGraph] halt: with at least [enough_fuel] steps
    the embedded constructors return a graph or throw, never run out of
    steps, and the outcome is the same for every such number of steps. *)
Theorem graph_builders_halt (context : WorkspaceContext) (fuel : nat)
  (targetWorkspace targetTask : string) (workspaceIds : list string) :
  ((enough_fuel context 1 <= fuel)%nat ->
   buildTaskGraph fuel context targetWorkspace targetTask <> OutOfFuel /\
   buildTaskGraph fuel context targetWorkspace targetTask
   = buildTaskGraph (enough_fuel context 1) context targetWorkspace targetTask) /\
  ((enough_fuel context (length workspaceIds) <= fuel)%nat ->
   buildMultiWorkspaceTaskGraph fuel context workspaceIds targetTask <> OutOfFuel /\
   buildMultiWorkspaceTaskGraph fuel context workspaceIds targetTask
   = buildMultiWorkspaceTaskGraph (enough_fuel context (length workspaceIds)) context
       workspaceIds targetTask).
Proof.
  assert (Hgen : forall roots n fuel0,
            Forall (fun id => contains colon id = true) roots ->
            (length roots <= n)%nat -> (enough_fuel context n <= fuel0)%nat ->
            build context fuel0 roots <> OutOfFuel /\
            build context fuel0 roots = build context (enough_fuel context n) roots).
  { intros roots n fuel0 Hroots Hn Hfuel.
    assert (Hle : (enough_fuel context (length roots) <= enough_fuel context n)%nat)
      by (unfold enough_fuel; lia).
    destruct (collect_total context roots fuel0 Hroots) as [Hhalt Heq]; [lia|].
    destruct (collect_total context roots (enough_fuel context n) Hroots Hle) as [_ Heq'].
    unfold build. rewrite Heq' , Heq. split; [|reflexivity].
    rewrite Heq in Hhalt.
    destruct (collect _ context [] [] roots) as [tasks| | |] eqn:Hcol; simpl;
      try discriminate; [|contradiction].
    pose proof (collected_NoDup context _ roots tasks Hroots Hcol) as Hnd.
    destruct (assemble_cases tasks roots Hnd) as [(graph & ->)|(cycle & -> & _)]; discriminate. }
  split; intros Hfuel.
  - rewrite !buildTaskGraph_build. apply Hgen; auto.
    repeat constructor. apply createTaskId_colon.
  - rewrite !buildMulti_build. apply Hgen; auto.
    + apply multi_roots_colon.
    + apply multi_roots_length.
Qed.


(** X17: in a graph returned by [buildTaskGraph] or
    [buildMultiWorkspaceTaskGraph], [executionOrder] lists every task once
    with each of its dependencies before it, and [parallelLevels] splits
    the tasks into non-empty levels with each dependency of a task in an
    earlier level. *)
Theorem built_graph_order (context : WorkspaceContext) (fuel : nat)
  (targetWorkspace targetTask : string) (workspaceIds : list string) (graph : TaskGraph) :
  buildTaskGraph fuel context targetWorkspace targetTask = Ok graph \/
  buildMultiWorkspaceTaskGraph fuel context workspaceIds targetTask = Ok graph ->
  executionOrder graph ≡ₚ JsMap.keys (tasks graph) /\
  (forall before k after t d,
     executionOrder graph = before ++ k :: after ->
     JsMap.get (tasks graph) k = Some t -> d ∈ rt_dependencies t -> d ∈ before) /\
  concat (parallelLevels graph) ≡ₚ JsMap.keys (tasks graph) /\
  Forall (fun level => level <> []) (parallelLevels graph) /\
  (forall earlier level later k t d,
     parallelLevels graph = earlier ++ level :: later -> k ∈ level ->
     JsMap.get (tasks graph) k = Some t -> d ∈ rt_dependencies t -> d ∈ concat earlier).
Proof.
  intros Hrun.
  assert (Hbuilt : exists roots, Forall (fun id => contains colon id = true) roots /\
                                 build context fuel roots = Ok graph).
  { destruct Hrun as [Hrun|Hrun].
    - eexists. split; [|exact Hrun]. repeat constructor. apply createTaskId_colon.
    - eexists. split; [|exact Hrun]. apply multi_roots_colon. }
  destruct Hbuilt as (roots & Hroots & Hbuild).
  destruct (build_Ok context fuel roots graph Hroots Hbuild) as (Hasm & _ & _ & Hres).
  apply closed_graph_order; [exact Hasm|].
  intros k t d Hget Hd. now apply (Hres k t Hget).
Qed.



End BuilderCorrect.

(** ** When [buildTaskGraph] succeeds *)

Module BuilderSuccess.
Import Fs Types Resolver Runner Topological GraphBuilder FullGraph.
Import JsString JsMapFacts JsSetFacts GraphBuilderFacts ResolverFacts CollectFacts.
Import TaskIndexFacts GraphSpec GraphFacts LevelsFacts SortFacts DfsFacts OrderFacts.
Import BuilderFacts BuilderCorrect.

Section Build.
Variable context : WorkspaceContext.



End Build.


End BuilderSuccess.

Module BuilderExamples.
Import Fs Types Resolver Runner Topological GraphBuilder FullGraph.
Import JsString JsMapFacts JsSetFacts GraphBuilderFacts ResolverFacts CollectFacts.
Import TaskIndexFacts GraphSpec GraphFacts BuilderFacts BuilderCorrect BuilderSuccess.
Import SchedulerCorrect.



Lemma e7_fuel : (enough_fuel e7_workspaces 1 <= 10)%nat.
Proof. vm_compute. repeat constructor. Qed.

Lemma graph_builders_halt_witness :
  buildTaskGraph 10 e7_workspaces "x" "c" <> OutOfFuel /\
  buildTaskGraph 10 e7_workspaces "x" "c"
  = buildTaskGraph (enough_fuel e7_workspaces 1) e7_workspaces "x" "c".
Proof. exact (proj1 (graph_builders_halt e7_workspaces 10 "x" "c" ["x"]) e7_fuel). Defined.


Lemma built_graph_order_witness :
  executionOrder e7_graph ≡ₚ JsMap.keys (tasks e7_graph) /\
  (forall before k after t d,
     executionOrder e7_graph = before ++ k :: after ->
     JsMap.get (tasks e7_graph) k = Some t -> d ∈ rt_dependencies t -> d ∈ before) /\
  concat (parallelLevels e7_graph) ≡ₚ JsMap.keys (tasks e7_graph) /\
  Forall (fun level => level <> []) (parallelLevels e7_graph) /\
  (forall earlier level later k t d,
     parallelLevels e7_graph = earlier ++ level :: later -> k ∈ level ->
     JsMap.get (tasks e7_graph) k = Some t -> d ∈ rt_dependencies t -> d ∈ concat earlier).
Proof.
  exact (built_graph_order e7_workspaces 10 "x" "c" [] e7_graph (or_introl e7_built)).
Defined.


(** Two tasks that depend on each other, and a task with a dependency that
    is not defined. *)
Definition broken_workspaces : WorkspaceContext :=
mkWorkspaceContext ["repo"] [("x", ["repo"; "x"])]
  [("x", mkCockpitConfig
           [("a", simple_definition "true" [DepString "b"]);
            ("b", simple_definition "true" [DepString "x:a"]);
            ("c", simple_definition "true" [DepObject "gone" (Some true); DepString "y:lint"])]
           None)].


Example broken_missing :
  buildTaskGraph 10 broken_workspaces "x" "c" = TaskNotFoundError "y:lint" None.
Proof. vm_compute. reflexivity. Qed.



End BuilderExamples.

(** ** What [buildFullTaskGraph] returns *)

Module FullGraphCorrect.
Import Fs Types Resolver Runner Topological GraphBuilder FullGraph.
Import JsString JsMapFacts JsSetFacts GraphBuilderFacts ResolverFacts CollectFacts.
Import TaskIndexFacts GraphSpec GraphFacts BuilderFacts BuilderCorrect.










End FullGraphCorrect.

(** ** src/core/executor/scheduler.ts: [executeSequential] *)

Module Sequential.
Import Fs Types Cache Hash Runner Topological GraphBuilder.

Section Sequence.
Context {Data : Type}.

(** The locals of [executeSequential] together with the world. *)
Record seq := mkSeq {
  seq_results : list TaskResult;
  seq_failedTasks : list string;
  seq_world : World Data
}.

Variable run : ResolvedTask -> ExecutionContext -> World Data -> TaskResult * World Data.
Variable graph : TaskGraph.
Variable context : ExecutionContext.
Variable continueOnError : bool.

(** Lines 113-144, one task of [graph.executionOrder]; [None] when
    [graph.tasks.get] yields [undefined] and the next property access
    throws. *)
Definition sequential_step (acc : option seq) (taskId : string) : option seq :=
match acc with
| None => None
| Some st =>
  match JsMap.get (tasks graph) taskId with
  | None => None
  | Some task =>
    let hasFailedDep := existsb (JsSet.has (seq_failedTasks st)) (rt_dependencies task) in
    if hasFailedDep && negb continueOnError then
      Some (mkSeq (seq_results st ++ [Scheduler.skippedResult taskId])
                  (seq_failedTasks st) (seq_world st))
    else if negb continueOnError && (0 <? length (seq_failedTasks st))%nat then
      Some (mkSeq (seq_results st ++ [Scheduler.skippedResult taskId])
                  (seq_failedTasks st) (seq_world st))
    else
      let '(result, w) := run task context (seq_world st) in
      Some (mkSeq (seq_results st ++ [result])
                  (if bool_decide (tr_status result = failed)
                   then JsSet.add (seq_failedTasks st) taskId else seq_failedTasks st)
                  w)
  end
end.

Definition sequence_with (w : World Data) : option (list TaskResult * World Data) :=
match fold_left sequential_step (executionOrder graph) (Some (mkSeq [] [] w)) with
| None => None
| Some st => Some (seq_results st, seq_world st)
end.

End Sequence.

(** [executeSequential(graph, context, continueOnError)] *)
Definition executeSequential {Data : Type} {H : Host Data} {P : ProcessHost Data}
  (graph : TaskGraph) (context : ExecutionContext) (continueOnError : bool)
  (w : World Data) : option (list TaskResult * World Data) :=
sequence_with runTask graph context continueOnError w.

End Sequential.

(** ** The order of the results, and where a run stops *)

Module SchedulerOrder.
Import Fs Types Cache Hash Runner RunnerFacts Topological GraphBuilder GraphBuilderFacts.
Import Scheduler SchedulerFacts SchedulerCorrect Sequential.
Import JsMapFacts GraphSpec GraphFacts KahnCount LevelsFacts SortFacts.

Lemma existsb_has_nil deps : existsb (JsSet.has []) deps = false.
Proof. induction deps as [|d r IH]; simpl; [reflexivity | exact IH]. Qed.

Lemma length_pos_nonempty {A} (l : list A) : l <> [] -> (0 <? length l)%nat = true.
Proof. destruct l; [contradiction | reflexivity]. Qed.

Section Order.
Context {Data : Type}.
Variable run : ResolvedTask -> ExecutionContext -> World Data -> TaskResult * World Data.
Hypothesis run_taskId : forall task context w, tr_taskId (run task context w).1 = rt_id task.
Variable graph : TaskGraph.
Variable context : ExecutionContext.

(** The result of running the task of the graph that the result names. *)
Definition ran (r : TaskResult) : Prop :=
exists task w, JsMap.get (tasks graph) (tr_taskId r) = Some task /\ r = (run task context w).1.

Section Levels.
Variable options : SchedulerOptions.

(** The second list of lines 51-63 stays empty: a level is classified only
    with [continueOnError] or while no task has failed. *)
Lemma classify_runnable failed level : forall runnable skippedTasks,
  continueOnError options = true \/ failed = [] ->
  known graph level ->
  fold_left (classify graph options failed) level (Some (runnable, skippedTasks))
  = Some (runnable ++ level, skippedTasks).
Proof.
  induction level as [|x r IH]; intros runnable skippedTasks Hc Hk; simpl.
  - now rewrite app_nil_r.
  - destruct (Hk x) as (t & Ht & _); [left|]. rewrite Ht.
    assert (Hr : known graph r) by (intros y Hy; apply Hk; now right).
    replace (existsb (JsSet.has failed) (rt_dependencies t) && negb (continueOnError options))
      with false.
    + rewrite IH by assumption. now rewrite <- app_assoc.
    + destruct Hc as [-> | ->]; [now rewrite andb_false_r|].
      now rewrite existsb_has_nil.
Qed.

Lemma run_level_order runnable : forall levelResults st,
  known graph runnable ->
  exists new st',
    fold_left (run_one run graph context) runnable (Some (levelResults, st))
    = Some (levelResults ++ new, st') /\
    results st' = results st /\
    map tr_taskId new = runnable /\
    Forall ran new /\
    (failedTasks st <> [] -> failedTasks st' <> []) /\
    (failedTasks st = [] ->
     (failedTasks st' = [] <-> forall r, r ∈ new -> tr_status r <> failed)).
Proof.
  induction runnable as [|x r IH]; intros levelResults st Hk; simpl.
  - exists [], st. rewrite app_nil_r. repeat split; auto.
    + intros _ r Hr. inversion Hr.
  - destruct (Hk x) as (t & Ht & Hid); [left|]. rewrite Ht.
    assert (Hr : known graph r) by (intros y Hy; apply Hk; now right).
    pose proof (run_taskId t context (world st)) as Hrun.
    destruct (run t context (world st)) as [result w] eqn:Erun. simpl in Hrun.
    set (failedSet :=
           if bool_decide (tr_status result = success) || bool_decide (tr_status result = cached)
           then failedTasks st
           else if bool_decide (tr_status result = failed)
                then JsSet.add (failedTasks st) x else failedTasks st).
    assert (Hfs : (tr_status result = failed -> failedSet = JsSet.add (failedTasks st) x) /\
                  (tr_status result <> failed -> failedSet = failedTasks st)).
    { unfold failedSet. destruct (tr_status result); simpl; split; congruence. }
    match goal with
    | |- context [fold_left _ r (Some (_, ?s))] =>
      destruct (IH (levelResults ++ [result]) s Hr)
        as (new & st' & -> & Hres & Hids & Hran & Hmono & Hiff)
    end.
    cbn [failedTasks results] in Hres, Hmono, Hiff. fold failedSet in Hmono, Hiff.
    exists (result :: new), st'. rewrite <- app_assoc. split; [reflexivity|].
    split; [exact Hres|]. split; [simpl; congruence|]. split; [|split].
    + constructor; [|exact Hran]. exists t, (world st). rewrite Hrun, Hid, Erun. auto.
    + intros Hne. apply Hmono.
      destruct (decide (tr_status result = failed)) as [Hf|Hf].
      * rewrite (proj1 Hfs Hf). apply add_nonempty.
      * now rewrite (proj2 Hfs Hf).
    + intros Hempty. destruct (decide (tr_status result = failed)) as [Hf|Hf].
      * split.
        -- intros Hst'. exfalso. apply Hmono; [|exact Hst'].
           rewrite (proj1 Hfs Hf). apply add_nonempty.
        -- intros Hall. exfalso. apply (Hall result); [left | exact Hf].
      * rewrite (proj2 Hfs Hf) in Hiff. rewrite (Hiff Hempty). split.
        -- intros Hall r0 Hr0. apply elem_of_cons in Hr0 as [->|Hr0]; auto.
        -- intros Hall r0 Hr0. apply Hall. now right.
Qed.

(** The loop over the levels.  The results follow the levels task by task;
    without [continueOnError] the levels up to the first one with a failure
    are run in full and every task of the levels after it is skipped. *)
Lemma schedule_levels_order levels : forall st,
  known graph (concat levels) ->
  exists st' new,
    schedule_levels run graph context options levels st = Some st' /\
    results st' = results st ++ new /\
    map tr_taskId new = concat levels /\
    (continueOnError options = true -> Forall ran new) /\
    (continueOnError options = false -> failedTasks st = [] ->
     exists earlier later ranres,
       levels = earlier ++ later /\
       new = ranres ++ map skippedResult (concat later) /\
       map tr_taskId ranres = concat earlier /\
       Forall ran ranres /\
       (later <> [] -> exists r, r ∈ ranres /\ tr_status r = failed) /\
       (forall r, r ∈ ranres -> tr_status r = failed ->
          exists level, last earlier = Some level /\ tr_taskId r ∈ level)).
Proof.
  induction levels as [|lv rest IH]; intros st Hk.
  - exists st, []. simpl. rewrite app_nil_r. repeat split; auto.
    intros _ _. exists [], [], []. repeat split; auto.
    + intros Hne. contradiction.
    + intros r Hr. inversion Hr.
  - simpl in Hk.
    assert (Hkl : known graph lv) by (intros x Hx; apply Hk, elem_of_app; now left).
    assert (Hkr : known graph (concat rest))
      by (intros x Hx; apply Hk, elem_of_app; now right).
    simpl schedule_levels.
    destruct (negb (continueOnError options) && (0 <? length (failedTasks st))%nat) eqn:Eskip.
    + apply andb_true_iff in Eskip as [Hc Hf]. apply negb_true_iff in Hc.
      assert (Hne : failedTasks st <> [])
        by (destruct (failedTasks st); [discriminate | discriminate]).
      destruct (skip_all run graph context options rest
                  (push_results st (map skippedResult lv)) Hc Hne) as (st' & -> & Hres).
      exists st', (map skippedResult (lv ++ concat rest)). split; [reflexivity|].
      split; [rewrite Hres; simpl; now rewrite map_app, app_assoc|].
      split; [now rewrite skippedResult_ids|].
      split; [congruence|]. intros _ Hempty. contradiction.
    + assert (Hcase : continueOnError options = true \/ failedTasks st = []).
      { destruct (continueOnError options); [now left | right]. simpl in Eskip.
        destruct (failedTasks st); [reflexivity | discriminate]. }
      rewrite (classify_runnable (failedTasks st) lv [] [] Hcase Hkl). simpl.
      destruct (run_level_order lv [] (push_results st []) Hkl)
        as (lvres & st1 & -> & Hres1 & Hids1 & Hran1 & _ & Hiff1).
      simpl. simpl in Hres1, Hiff1. rewrite app_nil_r in Hres1.
      destruct (IH (push_results st1 lvres) Hkr)
        as (st' & new' & Hrun' & Hres' & Hids' & Hall' & Hstop').
      rewrite Hrun'. exists st', (lvres ++ new'). split; [reflexivity|].
      split; [rewrite Hres'; simpl; rewrite Hres1; now rewrite <- app_assoc|].
      split; [rewrite map_app, Hids1, Hids'; reflexivity|].
      split; [intros Hc; apply Forall_app; auto|].
      intros Hc Hempty. specialize (Hiff1 Hempty).
      destruct (decide (failedTasks st1 = [])) as [Hnone|Hsome].
      * (* no failure in this level: the rest decides *)
        destruct (Hstop' Hc Hnone)
          as (earlier & later & ranres & -> & -> & Hidr & Hranr & Hlater & Hlast).
        exists (lv :: earlier), later, (lvres ++ ranres).
        split; [reflexivity|]. split; [now rewrite <- app_assoc|].
        split; [rewrite map_app, Hids1, Hidr; reflexivity|].
        split; [apply Forall_app; auto|]. split.
        -- intros Hne. destruct (Hlater Hne) as (r & Hr & Hf). exists r.
           split; [apply elem_of_app; now right | exact Hf].
        -- intros r Hr Hf. apply elem_of_app in Hr as [Hr|Hr].
           ++ exfalso. exact (proj1 Hiff1 Hnone r Hr Hf).
           ++ destruct (Hlast r Hr Hf) as (level & Hl & Hin). exists level.
              split; [|exact Hin]. destruct earlier; [discriminate Hl | exact Hl].
      * (* a failure in this level: everything after it is skipped *)
        destruct (skip_all run graph context options rest (push_results st1 lvres) Hc Hsome)
          as (st'' & Hrun'' & Hres'').
        assert (Enew : new' = map skippedResult (concat rest)).
        { rewrite Hrun' in Hrun''. injection Hrun'' as <-.
          rewrite Hres' in Hres''. now apply app_inv_head in Hres''. }
        exists [lv], rest, lvres. split; [reflexivity|]. split; [now rewrite Enew|].
        split; [simpl; now rewrite app_nil_r|]. split; [exact Hran1|]. split.
        -- intros _. destruct (decide (Exists (fun r => tr_status r = failed) lvres))
             as [Hex|Hex].
           ++ apply Exists_exists in Hex as (r & Hr & Hf). exists r.
              split; [first [exact Hr | now apply list_elem_of_In] | exact Hf].
           ++ exfalso. apply Hsome, Hiff1. intros r Hr Hf. apply Hex, Exists_exists.
              exists r. split; [first [exact Hr | now apply list_elem_of_In] | exact Hf].
        -- intros r Hr _. exists lv. split; [reflexivity|].
           rewrite <- Hids1. apply list_elem_of_fmap. now exists r.
Qed.

End Levels.

Section InOrder.
Variable continueOnError : bool.

Lemma sequential_fold order : forall st,
  known graph order ->
  exists st' new,
    fold_left (sequential_step run graph context continueOnError) order (Some st) = Some st' /\
    seq_results st' = seq_results st ++ new /\
    map tr_taskId new = order /\
    (continueOnError = true -> Forall ran new) /\
    (continueOnError = false -> seq_failedTasks st <> [] -> new = map skippedResult order) /\
    (continueOnError = false -> seq_failedTasks st = [] ->
     exists passed rest,
       new = passed ++ rest /\
       Forall (fun r => ran r /\ tr_status r <> failed) passed /\
       (rest = [] \/
        exists r skippedTasks,
          rest = r :: map skippedResult skippedTasks /\ ran r /\ tr_status r = failed)).
Proof.
  induction order as [|x rest IH]; intros st Hk.
  - exists st, []. simpl. rewrite app_nil_r. repeat split; auto.
    intros _ _. exists [], []. repeat split; auto.
  - destruct (Hk x) as (t & Ht & Hid); [left|].
    assert (Hkr : known graph rest) by (intros y Hy; apply Hk; now right).
    cbn [fold_left]. unfold sequential_step at 2. rewrite Ht.
    destruct continueOnError eqn:Hc.
    + (* every task is run *)
      rewrite andb_false_r. simpl negb. cbn [andb].
      pose proof (run_taskId t context (seq_world st)) as Hrun.
      destruct (run t context (seq_world st)) as [result w] eqn:Erun. simpl in Hrun.
      match goal with
      | |- context [fold_left _ rest (Some ?s)] =>
        destruct (IH s Hkr) as (st' & new & -> & Hres & Hids & Hall & _)
      end.
      simpl in Hres. exists st', (result :: new). split; [reflexivity|].
      split; [rewrite Hres; now rewrite <- app_assoc|].
      split; [simpl; congruence|]. split; [|split; discriminate].
      intros _. constructor; [|auto]. exists t, (seq_world st). rewrite Hrun, Hid, Erun. auto.
    + simpl negb. rewrite andb_true_r. cbn [andb].
      destruct (decide (seq_failedTasks st = [])) as [Hempty|Hne].
      * (* nothing has failed: the task is run *)
        rewrite Hempty, existsb_has_nil. simpl.
        pose proof (run_taskId t context (seq_world st)) as Hrun.
        destruct (run t context (seq_world st)) as [result w] eqn:Erun. simpl in Hrun.
        assert (Hran : ran result)
          by (exists t, (seq_world st); rewrite Hrun, Hid, Erun; auto).
        match goal with
        | |- context [fold_left _ rest (Some ?s)] =>
          destruct (IH s Hkr) as (st' & new & -> & Hres & Hids & _ & Hskip & Hstop)
        end.
        simpl in Hres, Hskip, Hstop. exists st', (result :: new). split; [reflexivity|].
        split; [rewrite Hres; now rewrite <- app_assoc|].
        split; [simpl; congruence|]. split; [discriminate|].
        split; [intros _ Hne; contradiction|]. intros _ _.
        destruct (decide (tr_status result = failed)) as [Hf|Hf].
        -- rewrite bool_decide_eq_true_2 in Hskip by exact Hf.
           exists [], (result :: new). split; [reflexivity|]. split; [constructor|].
           right. exists result, rest. rewrite (Hskip eq_refl); [auto|].
           unfold JsSet.add. simpl. discriminate.
        -- rewrite bool_decide_eq_false_2 in Hstop by exact Hf.
           destruct (Hstop eq_refl eq_refl) as (passed & tail & -> & Hpassed & Htail).
           exists (result :: passed), tail. split; [reflexivity|].
           split; [constructor; auto|]. exact Htail.
      * (* a task has failed: this one is skipped *)
        rewrite (length_pos_nonempty _ Hne).
        assert (Hstep : (if existsb (JsSet.has (seq_failedTasks st)) (rt_dependencies t)
                         then Some (mkSeq (seq_results st ++ [skippedResult x])
                                          (seq_failedTasks st) (seq_world st))
                         else Some (mkSeq (seq_results st ++ [skippedResult x])
                                          (seq_failedTasks st) (seq_world st)))
                        = Some (mkSeq (seq_results st ++ [skippedResult x])
                                      (seq_failedTasks st) (seq_world st)))
          by (destruct (existsb _ _); reflexivity).
        rewrite Hstep.
        match goal with
        | |- context [fold_left _ rest (Some ?s)] =>
          destruct (IH s Hkr) as (st' & new & -> & Hres & Hids & _ & Hskip & _)
        end.
        simpl in Hres, Hskip. exists st', (skippedResult x :: new). split; [reflexivity|].
        split; [rewrite Hres; now rewrite <- app_assoc|].
        split; [simpl; congruence|]. split; [discriminate|].
        split; [|intros _ Hempty; contradiction].
        intros _ _. simpl. now rewrite (Hskip eq_refl Hne).
Qed.

End InOrder.
End Order.

(** The execution order of an assembled graph names tasks of the graph. *)
Lemma assembled_order_known graph :
  assembled graph -> known graph (executionOrder graph).
Proof.
  intros (Hnd & Hids & Hasm). unfold assemble in Hasm.
  assert (Hndm : NoDup (JsMap.keys (depMapOf (tasks graph)))) by now rewrite depMapOf_keys.
  destruct (topologicalSort (depMapOf (tasks graph))) as [order| | |] eqn:Hsort;
    try discriminate.
  pose proof (topologicalSort_Ok_acyclic _ _ Hndm Hsort) as Hacyc.
  destruct (topologicalSort_acyclic _ Hndm Hacyc) as (order' & Hsort' & Hperm & _).
  rewrite Hsort in Hsort'. injection Hsort' as <-.
  simpl in Hasm. destruct (getParallelLevels _) as [levels| | |]; try discriminate.
  simpl in Hasm. injection Hasm as Hgraph.
  assert (Eorder : executionOrder graph = order) by (rewrite <- Hgraph; reflexivity).
  rewrite Eorder. intros x Hx. rewrite Hperm, (depMapOf_keys _ Hnd) in Hx.
  destruct (key_get _ _ Hx) as (t & Hget). exists t. split; [exact Hget|].
  apply get_Some_elem in Hget. rewrite Forall_forall in Hids. exact (Hids _ Hget).
Qed.

Section Run.
Context {Data : Type} {H : Host Data} {P : ProcessHost Data}.

(** X22: on a graph assembled by the graph builder, the results of
    [scheduleTasks] follow [parallelLevels] task by task.  With
    [continueOnError] every result comes from [runTask].  Without it the
    levels up to and including the first one with a failed task are run in
    full, and every task of the levels after it is reported as skipped,
    whether it depends on the failed task or not. *)
Theorem scheduleTasks_order (graph : TaskGraph) (context : ExecutionContext)
  (options : SchedulerOptions) (w : World Data) :
  assembled graph ->
  exists results w',
    scheduleTasks graph context options w = Some (results, w') /\
    map tr_taskId results = concat (parallelLevels graph) /\
    (continueOnError options = true -> Forall (ran runTask graph context) results) /\
    (continueOnError options = false ->
     exists earlier later ranres,
       parallelLevels graph = earlier ++ later /\
       results = ranres ++ map skippedResult (concat later) /\
       map tr_taskId ranres = concat earlier /\
       Forall (ran runTask graph context) ranres /\
       (later <> [] -> exists r, r ∈ ranres /\ tr_status r = failed) /\
       (forall r, r ∈ ranres -> tr_status r = failed ->
          exists level, last earlier = Some level /\ tr_taskId r ∈ level)).
Proof.
  intros Hasm. destruct (assembled_known graph Hasm) as (_ & Hk & _).
  destruct (schedule_levels_order runTask runTask_taskId graph context options
              (parallelLevels graph) (mkSched [] [] [] w) Hk)
    as (st' & new & Hrun & Hres & Hids & Hall & Hstop).
  simpl in Hres. exists (results st'), (world st').
  unfold scheduleTasks, schedule_with. rewrite Hrun, Hres.
  split; [reflexivity|]. split; [exact Hids|]. split; [exact Hall|].
  intros Hc. exact (Hstop Hc eq_refl).
Qed.

(** X23: on a graph assembled by the graph builder, the results of
    [executeSequential] follow [executionOrder] task by task.  With
    [continueOnError] every result comes from [runTask].  Without it the
    tasks are run until the first one fails, and every task after that one
    is reported as skipped, whether it depends on the failed task or not. *)
Theorem executeSequential_order (graph : TaskGraph) (context : ExecutionContext)
  (continueOnError : bool) (w : World Data) :
  assembled graph ->
  exists results w',
    executeSequential graph context continueOnError w = Some (results, w') /\
    map tr_taskId results = executionOrder graph /\
    (continueOnError = true -> Forall (ran runTask graph context) results) /\
    (continueOnError = false ->
     exists passed rest,
       results = passed ++ rest /\
       Forall (fun r => ran runTask graph context r /\ tr_status r <> failed) passed /\
       (rest = [] \/
        exists r skippedTasks,
          rest = r :: map skippedResult skippedTasks /\
          ran runTask graph context r /\ tr_status r = failed)).
Proof.
  intros Hasm. pose proof (assembled_order_known graph Hasm) as Hk.
  destruct (sequential_fold runTask runTask_taskId graph context continueOnError
              (executionOrder graph) (mkSeq [] [] w) Hk)
    as (st' & new & Hrun & Hres & Hids & Hall & _ & Hstop).
  simpl in Hres. exists (seq_results st'), (seq_world st').
  unfold executeSequential, sequence_with. rewrite Hrun, Hres.
  split; [reflexivity|]. split; [exact Hids|]. split; [exact Hall|].
  intros Hc. exact (Hstop Hc eq_refl).
Qed.

End Run.

Import RefHost.

Lemma scheduleTasks_order_witness :
  exists results w',
    scheduleTasks e7_graph e7_context (mkSchedulerOptions 4 false) e7_world
    = Some (results, w') /\
    map tr_taskId results = concat (parallelLevels e7_graph) /\
    (false = true -> Forall (ran (Data := data) runTask e7_graph e7_context) results) /\
    (false = false ->
     exists earlier later ranres,
       parallelLevels e7_graph = earlier ++ later /\
       results = ranres ++ map skippedResult (concat later) /\
       map tr_taskId ranres = concat earlier /\
       Forall (ran (Data := data) runTask e7_graph e7_context) ranres /\
       (later <> [] -> exists r, r ∈ ranres /\ tr_status r = failed) /\
       (forall r, r ∈ ranres -> tr_status r = failed ->
          exists level, last earlier = Some level /\ tr_taskId r ∈ level)).
Proof.
  exact (scheduleTasks_order e7_graph e7_context (mkSchedulerOptions 4 false) e7_world
           e7_assembled).
Defined.

Lemma executeSequential_order_witness :
  exists results w',
    executeSequential e7_graph e7_context false e7_world = Some (results, w') /\
    map tr_taskId results = executionOrder e7_graph /\
    (false = true -> Forall (ran (Data := data) runTask e7_graph e7_context) results) /\
    (false = false ->
     exists passed rest,
       results = passed ++ rest /\
       Forall (fun r => ran (Data := data) runTask e7_graph e7_context r /\ tr_status r <> failed) passed /\
       (rest = [] \/
        exists r skippedTasks,
          rest = r :: map skippedResult skippedTasks /\
          ran (Data := data) runTask e7_graph e7_context r /\ tr_status r = failed)).
Proof.
  exact (executeSequential_order e7_graph e7_context false e7_world e7_assembled).
Defined.

End SchedulerOrder.

(** ** src/core/executor/engine.ts *)

Module Engine.
Import Fs Types Cache Hash Runner Topological GraphBuilder Scheduler.

Definition DEFAULT_CONCURRENCY : positive := 4.

Record EngineOptions := mkEngineOptions {
  eo_concurrency : option positive;
  eo_continueOnError : option bool;
  eo_force : option bool;
  eo_dryRun : option bool;
  eo_verbose : option bool;
  eo_env : option (list (string * string));
  eo_noCache : option bool;
  eo_extraArgs : option (list string);
  eo_mainTaskIds : option (list string)
}.

Record TaskSummary := mkTaskSummary {
  ts_success : Z;
  ts_failed : Z;
  ts_cached : Z;
  ts_skipped : Z;
  ts_duration : Z
}.

Record EngineResult := mkEngineResult {
  er_success : bool;
  er_results : list TaskResult;
  er_summary : TaskSummary
}.

(** The calls the engine makes on its logger, with those of the runner
    between them. *)
Inductive EngineEvent :=
| EvInfoRunning (taskCount : nat)
| EvDebugConcurrency (concurrency : positive)
| EvTask (e : LogEvent)
| EvSummary (summary : TaskSummary).

(** [calculateSummary(results, duration)]; the four counters of the source
    carry the names of the statuses. *)
Definition calculateSummary (results : list TaskResult) (duration : Z) : TaskSummary :=
let '(nSuccess, nFailed, nCached, nSkipped) :=
  fold_left (fun '(nSuccess, nFailed, nCached, nSkipped) result =>
               match tr_status result with
               | success => (nSuccess + 1, nFailed, nCached, nSkipped)
               | failed => (nSuccess, nFailed + 1, nCached, nSkipped)
               | cached => (nSuccess, nFailed, nCached + 1, nSkipped)
               | skipped => (nSuccess, nFailed, nCached, nSkipped + 1)
               end)
            results (0, 0, 0, 0) in
mkTaskSummary nSuccess nFailed nCached nSkipped duration.

Section Run.
Context {Data : Type} {H : Host Data} {P : ProcessHost Data}.

(** [executeGraph(graph, workspaceContext, options)], started on the files
    [fs] at time [clock]. *)
Definition executeGraph (graph : TaskGraph) (workspaceContext : WorkspaceContext)
  (options : EngineOptions) (fs : FS Data) (clock : Z)
  : option (EngineResult * World Data * list EngineEvent) :=
let concurrency := default DEFAULT_CONCURRENCY (eo_concurrency options) in
let continueOnError := default false (eo_continueOnError options) in
let force := default false (eo_force options) in
let dryRun := default false (eo_dryRun options) in
let verbose := default false (eo_verbose options) in
let env := default [] (eo_env options) in
let noCache := default false (eo_noCache options) in
let startTime := clock in
let cacheStore := if noCache then None else Some (Cache.new (wc_root workspaceContext) fs) in
let taskCount := JsMap.size (tasks graph) in
let w := mkWorld fs (match cacheStore with Some s => manifest s | None => ∅ end) clock [] in
match scheduleTasks graph
        (mkExecutionContext workspaceContext env force dryRun verbose
           (option_map cacheDir cacheStore) (eo_extraArgs options) (eo_mainTaskIds options))
        (mkSchedulerOptions concurrency continueOnError) w with
| None => None
| Some (results, w') =>
  let duration := w_clock w' - startTime in
  let summary := calculateSummary results duration in
  Some (mkEngineResult (ts_failed summary =? 0) results summary, w',
        [EvInfoRunning taskCount; EvDebugConcurrency concurrency]
        ++ map EvTask (w_log w') ++ [EvSummary summary])
end.

End Run.
End Engine.

Module EngineFacts.
Import Fs Types Cache Hash Runner RunnerFacts Topological GraphBuilder GraphBuilderFacts.
Import Scheduler SchedulerFacts SchedulerCorrect Engine.
Import JsMapFacts.

(** The number of results with a given status. *)
Definition count_status (status : Status) (results : list TaskResult) : Z :=
Z.of_nat (length (List.filter (fun r => bool_decide (tr_status r = status)) results)).

Lemma count_status_cons status r results :
  count_status status (r :: results)
  = (if bool_decide (tr_status r = status) then 1 else 0) + count_status status results.
Proof.
  unfold count_status. simpl. destruct (bool_decide _); simpl length; lia.
Qed.

Lemma count_status_nonneg status results : 0 <= count_status status results.
Proof. unfold count_status. lia. Qed.

Ltac split_tuple := repeat match goal with |- (_, _) = (_, _) => f_equal end.

Lemma summary_fold results : forall s f c k,
  fold_left (fun '(nSuccess, nFailed, nCached, nSkipped) result =>
               match tr_status result with
               | success => (nSuccess + 1, nFailed, nCached, nSkipped)
               | failed => (nSuccess, nFailed + 1, nCached, nSkipped)
               | cached => (nSuccess, nFailed, nCached + 1, nSkipped)
               | skipped => (nSuccess, nFailed, nCached, nSkipped + 1)
               end)
            results (s, f, c, k)
  = (s + count_status success results, f + count_status failed results,
     c + count_status cached results, k + count_status skipped results).
Proof.
  induction results as [|r rest IH]; intros s f c k; cbn [fold_left].
  - unfold count_status. simpl. split_tuple; lia.
  - rewrite !count_status_cons. destruct (tr_status r) eqn:E; rewrite IH; simpl;
      split_tuple; lia.
Qed.

Lemma calculateSummary_counts results duration :
  calculateSummary results duration
  = mkTaskSummary (count_status success results) (count_status failed results)
                  (count_status cached results) (count_status skipped results) duration.
Proof. unfold calculateSummary. now rewrite summary_fold. Qed.

Lemma count_status_total results :
  count_status success results + count_status failed results
  + count_status cached results + count_status skipped results
  = Z.of_nat (length results).
Proof.
  induction results as [|r rest IH]; [reflexivity|].
  rewrite !count_status_cons. destruct (tr_status r); simpl bool_decide; simpl length; lia.
Qed.

Lemma count_status_zero status results :
  count_status status results = 0 <-> forall r, r ∈ results -> tr_status r <> status.
Proof.
  induction results as [|r rest IH].
  - split; [intros _ r Hr; inversion Hr | reflexivity].
  - rewrite count_status_cons. pose proof (count_status_nonneg status rest) as Hpos.
    destruct (bool_decide (tr_status r = status)) eqn:E.
    + apply bool_decide_eq_true in E. split; [lia|].
      intros Hall. exfalso. apply (Hall r); [left | exact E].
    + apply bool_decide_eq_false in E. rewrite Z.add_0_l, IH. split.
      * intros Hall r0 Hr0. apply elem_of_cons in Hr0 as [->|Hr0]; auto.
      * intros Hall r0 Hr0. apply Hall. now right.
Qed.

Section Run.
Context {Data : Type} {H : Host Data} {P : ProcessHost Data}.

(** X24: on a graph assembled by the graph builder, [executeGraph] returns
    one result per task of the graph; the four counters of its summary count
    the results by status and add up to the number of tasks; the duration is
    the time that passed; [success] holds exactly when no result is
    ['failed'], so a run whose tasks were all skipped or cached counts as a
    success. *)
Theorem executeGraph_summary (graph : TaskGraph) (workspaceContext : WorkspaceContext)
  (options : EngineOptions) (fs : FS Data) (clock : Z) :
  assembled graph ->
  exists result w' events,
    executeGraph graph workspaceContext options fs clock = Some (result, w', events) /\
    map tr_taskId (er_results result) ≡ₚ JsMap.keys (tasks graph) /\
    er_summary result
    = mkTaskSummary (count_status success (er_results result))
                    (count_status failed (er_results result))
                    (count_status cached (er_results result))
                    (count_status skipped (er_results result))
                    (w_clock w' - clock) /\
    ts_success (er_summary result) + ts_failed (er_summary result)
    + ts_cached (er_summary result) + ts_skipped (er_summary result)
    = Z.of_nat (JsMap.size (tasks graph)) /\
    (er_success result = true <->
     forall r, r ∈ er_results result -> tr_status r <> failed).
Proof.
  intros Hasm. unfold executeGraph.
  destruct (assembled_known graph Hasm) as (Hndl & Hk & Hperm).
  match goal with
  | |- context [scheduleTasks graph ?c ?o ?w] =>
    destruct (schedule_levels_spec runTask runTask_taskId graph c o
                (parallelLevels graph) (mkSched [] [] [] w) Hndl Hk)
      as (st' & new & Hrun & Hres & Hnew & _)
  end.
  unfold scheduleTasks, schedule_with. rewrite Hrun. simpl in Hres. rewrite Hres.
  eexists _, _, _. split; [reflexivity|]. cbn [er_results er_summary er_success].
  rewrite calculateSummary_counts. cbn [ts_success ts_failed ts_cached ts_skipped].
  split; [now rewrite Hnew|]. split; [reflexivity|]. split.
  - rewrite count_status_total. f_equal. unfold JsMap.size.
    rewrite <- (length_map tr_taskId new), Hnew, Hperm. unfold JsMap.keys.
    now rewrite length_map.
  - rewrite Z.eqb_eq. apply count_status_zero.
Qed.

End Run.

Import RefHost.

Definition default_options : EngineOptions :=
mkEngineOptions None None None None None None None None None.

Lemma executeGraph_summary_witness :
  exists result w' events,
    executeGraph e7_graph e7_workspaces default_options Fs.empty 0
    = Some (result, w', events) /\
    map tr_taskId (er_results result) ≡ₚ JsMap.keys (tasks e7_graph) /\
    er_summary result
    = mkTaskSummary (count_status success (er_results result))
                    (count_status failed (er_results result))
                    (count_status cached (er_results result))
                    (count_status skipped (er_results result))
                    (w_clock w' - 0) /\
    ts_success (er_summary result) + ts_failed (er_summary result)
    + ts_cached (er_summary result) + ts_skipped (er_summary result)
    = Z.of_nat (JsMap.size (tasks e7_graph)) /\
    (er_success result = true <->
     forall r, r ∈ er_results result -> tr_status r <> failed).
Proof.
  exact (executeGraph_summary (Data := data) e7_graph e7_workspaces default_options
           Fs.empty 0 e7_assembled).
Defined.

(** The run of scenario E7 through the engine: [a] fails, [b] and [c] are
    skipped, and the run is no success. *)
Example e7_engine_result :
  option_map (fun '(result, _, _) => (er_success result, er_summary result))
             (executeGraph (Data := data) e7_graph e7_workspaces default_options Fs.empty 0)
  = Some (false, mkTaskSummary 0 1 0 2 1).
Proof. vm_compute. reflexivity. Qed.

End EngineFacts.

(** ** The runner and its cache *)

Module RunnerCache.
Import Fs FsFacts Types Cache CacheFacts CacheCorrect Hash HashFacts Runner RunnerFacts.
Import StoreFacts StoreCorrect.

(** Lines 73-77, 81-83 and 111-115 of [runTask]: whether the task receives
    the extra arguments, the directory of its workspace, and the hash of its
    inputs on the files [fs]. *)
Definition shouldAppendExtraArgs (task : ResolvedTask) (context : ExecutionContext) : bool :=
match ctx_extraArgs context, ctx_mainTaskIds context with
| Some extraArgs, Some mainTaskIds =>
  (0 <? length extraArgs)%nat && JsSet.has mainTaskIds (rt_id task)
| _, _ => false
end.

Definition workspacePathOf (task : ResolvedTask) (context : ExecutionContext) : option path :=
if negb (String.eqb (rt_workspaceId task) "")
then JsMap.get (wc_workspaces (ctx_workspaceContext context)) (rt_workspaceId task)
else Some (wc_root (ctx_workspaceContext context)).


Section Run.
Context {Data : Type} {H : Host Data} {P : ProcessHost Data}.



(** *** What logging does to the world *)

Lemma log_chunks_fields taskId chunks : forall w : World Data,
  w_fs (log_chunks taskId chunks w) = w_fs w /\
  w_manifest (log_chunks taskId chunks w) = w_manifest w /\
  w_clock (log_chunks taskId chunks w) = w_clock w /\
  w_log (log_chunks taskId chunks w) = w_log w ++ map (chunk_event taskId) chunks.
Proof.
  unfold log_chunks. induction chunks as [|c r IH]; intros w; simpl.
  - now rewrite app_nil_r.
  - destruct (IH (log (chunk_event taskId c) w)) as (-> & -> & -> & ->). simpl.
    now rewrite <- app_assoc.
Qed.


Lemma store_of_log_chunks cacheDir taskId chunks (w : World Data) :
  store_of cacheDir (log_chunks taskId chunks w) = store_of cacheDir w.
Proof.
  destruct (log_chunks_fields taskId chunks w) as (Hfs & Hm & _).
  unfold store_of. now rewrite Hfs, Hm.
Qed.



Lemma handleProcessResult_world task result startTime (w : World Data) :
  exists status message,
    (handleProcessResult task result startTime w).2
    = log (LogTask (rt_id task) status message) w /\
    (tr_status (handleProcessResult task result startTime w).1 = success ->
     status = "success").
Proof.
  unfold handleProcessResult. destruct (pr_killed result).
  - eexists _, _. split; [reflexivity | discriminate].
  - destruct (negb _).
    + destruct (default false _); eexists _, _; (split; [reflexivity|]);
        [reflexivity | discriminate].
    + eexists _, _. split; reflexivity.
Qed.

Lemma handleProcessResult_status task result startTime (w : World Data) :
  tr_status (handleProcessResult task result startTime w).1 <> cached /\
  tr_status (handleProcessResult task result startTime w).1 <> skipped.
Proof.
  unfold handleProcessResult. destruct (pr_killed result); [split; discriminate|].
  destruct (negb _); [|split; discriminate].
  destruct (default false _); split; discriminate.
Qed.

(** *** A run that succeeds stores its result *)


Lemma execute_not_cached task context workspacePath cwd env cacheEnabled append inputHash
  startTime (w : World Data) :
  tr_status (execute task context workspacePath cwd env cacheEnabled append inputHash
               startTime w).1 <> cached.
Proof.
  unfold execute. destruct (ctx_dryRun context); [discriminate|].
  destruct (spawnProcess _ _ _ _ _ _) as [[result chunks] w1].
  pose proof (handleProcessResult_status task result startTime
                (log_chunks (rt_id task) chunks w1)) as [Hc _].
  destruct (handleProcessResult _ _ _ _) as [taskResult w2]. simpl in Hc.
  destruct (ctx_cacheDir context), inputHash; try exact Hc.
  destruct (_ && _); exact Hc.
Qed.



Lemma replay_fields cacheDir taskId h (w : World Data) :
  w_fs (replayCachedOutput cacheDir taskId h w) = w_fs w /\
  w_manifest (replayCachedOutput cacheDir taskId h w) = w_manifest w /\
  w_clock (replayCachedOutput cacheDir taskId h w) = w_clock w.
Proof.
  unfold replayCachedOutput. destruct (getOutputChunks _ _ _); [|auto].
  destruct (log_chunks_fields taskId l w) as (-> & -> & -> & _). auto.
Qed.


(** *** Runs that leave the cache alone *)

Lemma restoreOutputs_idle (s : CacheStore Data) taskId inputHash workspacePath :
  (0 <? (restoreOutputs s taskId inputHash workspacePath).1) = false ->
  fsys (restoreOutputs s taskId inputHash workspacePath).2 = fsys s /\
  manifest (restoreOutputs s taskId inputHash workspacePath).2 = manifest s.
Proof.
  unfold restoreOutputs. destruct (loadRegistry s taskId !! inputHash) as [e|]; [|auto].
  destruct (Nat.eqb _ 0); [auto|]. destruct (negb _); [auto|].
  pose proof (restore_fold_counts (getHashDir s taskId inputHash ++ ["outputs"]) workspacePath
                (re_cachedFiles e) (0, fsys s)) as Hcount.
  pose proof (restore_fold_idle (getHashDir s taskId inputHash ++ ["outputs"]) workspacePath
                (re_cachedFiles e) (0, fsys s)) as Hidle.
  destruct (fold_left _ _ _) as [restored fs1]. simpl in Hcount, Hidle.
  destruct (0 <? restored) eqn:E; simpl; [intros Hr; rewrite E in Hr; discriminate|].
  intros _. apply Z.ltb_ge in E. assert (restored = 0) as -> by lia.
  specialize (Hidle eq_refl). injection Hidle as ->. auto.
Qed.

Lemma execute_dryRun task context workspacePath cwd env cacheEnabled append inputHash
  startTime (w : World Data) :
  ctx_dryRun context = true ->
  execute task context workspacePath cwd env cacheEnabled append inputHash startTime w
  = (mkTaskResult (rt_id task) skipped (w_clock w - startTime) None None,
     log (LogTask (rt_id task) "skipped" (Some MsgDryRun))
         (log (LogTask (rt_id task) "starting" None) w)).
Proof. intros Hd. unfold execute. now rewrite Hd. Qed.

(** With the cache switched off for the run or for the task, the manifest is
    left alone, and so are the files when the process changes none. *)
Lemma execute_without_cache task context workspacePath cwd env cacheEnabled append
  startTime (w : World Data) :
  w_manifest (execute task context workspacePath cwd env cacheEnabled append None
                startTime w).2 = w_manifest w /\
  ((forall command args shell dir vars timeout fs clock,
      (child_process command args shell dir vars timeout fs clock).1.2 = fs) ->
   w_fs (execute task context workspacePath cwd env cacheEnabled append None
           startTime w).2 = w_fs w).
Proof.
  unfold execute. destruct (ctx_dryRun context); [auto|].
  unfold spawnProcess. destruct (normalizeCommand _ _) as [[command args] shell].
  match goal with
  | |- context [child_process ?a ?b ?c ?d ?e ?f ?g ?h] =>
    pose proof (fun Hkeep : forall command args shell dir vars timeout fs clock,
                    (child_process command args shell dir vars timeout fs clock).1.2 = fs =>
                  Hkeep a b c d e f g h) as Hfs;
    destruct (child_process a b c d e f g h) as [[[result chunks] fs'] clock']
  end.
  simpl in Hfs.
  match goal with
  | |- context [handleProcessResult ?t ?r ?st ?w0] =>
    destruct (handleProcessResult_world t r st w0) as (status & message & Hw & _);
    destruct (handleProcessResult t r st w0) as [taskResult w2]
  end.
  simpl in Hw.
  assert (Hres : forall X : TaskResult * World Data,
            X = (taskResult, w2) ->
            w_manifest X.2 = w_manifest w /\
            ((forall command args shell dir vars timeout fs clock,
                (child_process command args shell dir vars timeout fs clock).1.2 = fs) ->
             w_fs X.2 = w_fs w)).
  { intros X ->. simpl. rewrite Hw. simpl.
    match goal with
    | |- context [log_chunks ?i ?c ?w0] =>
      destruct (log_chunks_fields i c w0) as (-> & -> & _ & _)
    end.
    simpl. split; [reflexivity|]. intros Hkeep. exact (Hfs Hkeep). }
  destruct (ctx_cacheDir context); apply Hres; reflexivity.
Qed.

(** X27: the extra arguments of the command line reach the main tasks only.
    For a task that is not among [mainTaskIds], [runTask] gives the same
    result and the same world whatever [extraArgs] holds: neither its
    command nor its input hash sees them. *)
Theorem extraArgs_for_main_tasks_only (task : ResolvedTask) (context : ExecutionContext)
  (extraArgs : option (list string)) (w : World Data) :
  (forall mainTaskIds, ctx_mainTaskIds context = Some mainTaskIds ->
                       JsSet.has mainTaskIds (rt_id task) = false) ->
  runTask task
    (mkExecutionContext (ctx_workspaceContext context) (ctx_env context) (ctx_force context)
       (ctx_dryRun context) (ctx_verbose context) (ctx_cacheDir context) extraArgs
       (ctx_mainTaskIds context)) w
  = runTask task context w.
Proof.
  destruct context as [wc env force dry verbose cd e0 main]. simpl. intros Hmain.
  assert (Happ : forall e : option (list string),
            match e with
            | Some a => match main with
                        | Some ids => (0 <? length a)%nat && JsSet.has ids (rt_id task)
                        | None => false
                        end
            | None => false
            end = false).
  { intros [a|]; [|reflexivity]. destruct main as [ids|]; [|reflexivity].
    rewrite (Hmain ids eq_refl). apply andb_false_r. }
  unfold runTask. simpl. rewrite (Happ extraArgs), (Happ e0).
  destruct (if negb _ then _ else _) as [workspacePath|]; [|reflexivity].
  destruct cd as [cacheDir|]; [|reflexivity].
  destruct (negb (bool_decide _)); [|reflexivity].
  destruct (_ && _); [|reflexivity].
  destruct (hasOutputsOnDisk _ _ _ _); [reflexivity|].
  destruct (restoreOutputs _ _ _ _) as [restored s].
  destruct (0 <? restored); reflexivity.
Qed.

(** X28: [force], a run without cache store, and [cache: false] on the task
    never give a ['cached'] result.  Without a store or with [cache: false]
    the manifest stays as it is, and when the process changes no file,
    [runTask] changes none either. *)
Theorem uncached_run (task : ResolvedTask) (context : ExecutionContext) (w : World Data) :
  ctx_force context = true \/ ctx_cacheDir context = None \/
  td_cache (rt_definition task) = Some false ->
  tr_status (runTask task context w).1 <> cached /\
  (ctx_cacheDir context = None \/ td_cache (rt_definition task) = Some false ->
   w_manifest (runTask task context w).2 = w_manifest w /\
   ((forall command args shell dir vars timeout fs clock,
       (child_process command args shell dir vars timeout fs clock).1.2 = fs) ->
    w_fs (runTask task context w).2 = w_fs w)).
Proof.
  intros Hoff. unfold runTask.
  destruct (if negb _ then _ else _) as [workspacePath|]; [|split; [discriminate | auto]].
  destruct (ctx_cacheDir context) as [cacheDir|] eqn:Hcd.
  - destruct (bool_decide (td_cache (rt_definition task) = Some false)) eqn:Hc; simpl negb;
      cbv iota.
    + split; [apply execute_not_cached|]. intros _. apply execute_without_cache.
    + apply bool_decide_eq_false in Hc.
      destruct Hoff as [Hf|[Hn|Hn]]; [|discriminate|contradiction].
      rewrite Hf. simpl. split; [apply execute_not_cached|].
      intros [Hn|Hn]; [discriminate | contradiction].
  - split; [apply execute_not_cached|]. intros _. apply execute_without_cache.
Qed.

End Run.

(** *** A dry run *)

Section DryRun.
Context {Data : Type} {H : Host Data}.
Variables P1 P2 : ProcessHost Data.

(** X26: a dry run starts no process.  With [dryRun], the result and the
    world [runTask] leaves do not depend on what the child process would
    do, and the clock stands still.  The result is ['skipped'], or
    ['cached'] when the cache holds the input hash, or ['failed'] for a
    workspace that is not known; when it is ['skipped'], the files and the
    manifest are as they were. *)
Theorem dryRun_spawns_nothing (task : ResolvedTask) (context : ExecutionContext)
  (w : World Data) :
  ctx_dryRun context = true ->
  runTask (P := P1) task context w = runTask (P := P2) task context w /\
  w_clock (runTask (P := P1) task context w).2 = w_clock w /\
  (tr_status (runTask (P := P1) task context w).1 = skipped \/
   tr_status (runTask (P := P1) task context w).1 = cached \/
   tr_status (runTask (P := P1) task context w).1 = failed /\
   workspacePathOf task context = None) /\
  (tr_status (runTask (P := P1) task context w).1 = skipped ->
   w_fs (runTask (P := P1) task context w).2 = w_fs w /\
   w_manifest (runTask (P := P1) task context w).2 = w_manifest w).
Proof.
  intros Hd. unfold runTask, workspacePathOf.
  destruct (if negb _ then _ else _) as [workspacePath|];
    [|split; [reflexivity|]; split; [reflexivity|]; split; [auto | discriminate]].
  destruct (ctx_cacheDir context) as [cacheDir|];
    [|rewrite !execute_dryRun by exact Hd; simpl; auto 10].
  destruct (negb (bool_decide _));
    [|rewrite !execute_dryRun by exact Hd; simpl; auto 10].
  destruct (_ && _);
    [|rewrite !execute_dryRun by exact Hd; simpl; auto 10].
  destruct (hasOutputsOnDisk _ _ _ _).
  - simpl.
    match goal with
    | |- context [replayCachedOutput ?c ?t ?h ?w0] =>
      destruct (replay_fields c t h w0) as (_ & _ & ->)
    end.
    split; [reflexivity|]. split; [reflexivity|]. split; [auto | discriminate].
  - match goal with
    | |- context [restoreOutputs ?s ?t ?h ?p] =>
      pose proof (restoreOutputs_idle s t h p) as Hidle;
      destruct (restoreOutputs s t h p) as [restored s1]
    end.
    simpl in Hidle. destruct (0 <? restored).
    + simpl.
      match goal with
      | |- context [replayCachedOutput ?c ?t ?h ?w0] =>
        destruct (replay_fields c t h w0) as (_ & _ & ->)
      end.
      split; [reflexivity|]. split; [reflexivity|]. split; [auto | discriminate].
    + destruct (Hidle eq_refl) as [Hfs Hm].
      rewrite !execute_dryRun by exact Hd. simpl.
      destruct (ctx_verbose context); simpl; auto 10.
Qed.

End DryRun.

(** *** Scenario E7 again: task [b] alone *)

Import RefHost SchedulerCorrect.

Definition b_task : ResolvedTask :=
mkResolvedTask "x:b" "x" "b" (simple_definition "true" [Resolver.DepString "a"]) ["x:a"].



Definition dry_context : ExecutionContext :=
mkExecutionContext e7_workspaces [] false true false
                   (Some ["repo"; ".cockpit"; ".cache"]) None None.

(** A child that fails whatever it is asked to run. *)
Definition failing_process : ProcessHost data := {|
  child_process := fun _ _ _ _ _ _ fs clock =>
    (mkProcessResult (Some 1) "" "" false, [], fs, clock + 1)
|}.

Lemma dryRun_spawns_nothing_witness :
  runTask (P := ref_process) b_task dry_context e7_world
  = runTask (P := failing_process) b_task dry_context e7_world /\
  tr_status (runTask (P := ref_process) b_task dry_context e7_world).1 = skipped.
Proof.
  split.
  - exact (proj1 (dryRun_spawns_nothing ref_process failing_process b_task dry_context
                    e7_world eq_refl)).
  - vm_compute. reflexivity.
Defined.

Definition main_context : ExecutionContext :=
mkExecutionContext e7_workspaces [] false false false
                   (Some ["repo"; ".cockpit"; ".cache"]) None (Some ["x:c"]).

Lemma extraArgs_for_main_tasks_only_witness :
  runTask b_task
    (mkExecutionContext e7_workspaces [] false false false
       (Some ["repo"; ".cockpit"; ".cache"]) (Some ["--watch"]) (Some ["x:c"])) e7_world
  = runTask b_task main_context e7_world.
Proof.
  apply (extraArgs_for_main_tasks_only b_task main_context (Some ["--watch"]) e7_world).
  intros ids [= <-]. reflexivity.
Defined.

Definition forced_context : ExecutionContext :=
mkExecutionContext e7_workspaces [] true false false
                   (Some ["repo"; ".cockpit"; ".cache"]) None None.

Lemma uncached_run_witness :
  tr_status (runTask b_task forced_context
               (runTask b_task e7_context e7_world).2).1 <> cached.
Proof.
  apply (uncached_run b_task forced_context (runTask b_task e7_context e7_world).2).
  left. reflexivity.
Defined.

End RunnerCache.

(** ** src/core/config/finder.ts *)

Module Finder.
Import Fs.

Definition CONFIG_DIR : string := ".cockpit".
Definition WORKSPACES_FILE : string := "workspaces.ts".
Definition TASK_FILE : string := "cockpit.ts".

Record FindRootResult := mkFindRootResult {
  fr_root : path;
  fr_configDir : path;
  fr_workspacesFile : path;
  fr_rootTaskFile : path
}.

(** [findWorkspaceRoot(startPath)]: [fuel] bounds the turns of the
    [while (true)] loop, [None] is a loop that has not returned within them;
    [dirname] drops the last segment and leaves the root as it is. *)
Fixpoint findWorkspaceRoot {Data : Type} (fuel : nat) (fs : FS Data) (currentPath : path)
  : option (option FindRootResult) :=
match fuel with
| O => None
| S fuel' =>
  let configDir := currentPath ++ [CONFIG_DIR] in
  if existsSync fs configDir then
    Some (Some (mkFindRootResult currentPath configDir (configDir ++ [WORKSPACES_FILE])
                                 (currentPath ++ [TASK_FILE])))
  else
    let parentPath := removelast currentPath in
    if path_eqb parentPath currentPath then Some None
    else findWorkspaceRoot fuel' fs parentPath
end.

(** [getWorkspaceTaskFile(workspacePath)] *)
Definition getWorkspaceTaskFile (workspacePath : path) : path := workspacePath ++ [TASK_FILE].

(** [s.replace(/\\/g, "/")] *)
Fixpoint normalizeSeparators (s : string) : string :=
match s with
| EmptyString => EmptyString
| String c r =>
  String (if Ascii.eqb c (ascii_of_nat 92) then "/"%char else c) (normalizeSeparators r)
end.

(** [s.startsWith(prefix)] *)
Fixpoint startsWith (s prefix : string) {struct prefix} : bool :=
match prefix with
| EmptyString => true
| String c prefix' =>
  match s with
  | EmptyString => false
  | String a s' => Ascii.eqb a c && startsWith s' prefix'
  end
end.

(** [isInsideRoot(path, root)] *)
Definition isInsideRoot (path root : string) : bool :=
let normalizedPath := normalizeSeparators path in
let normalizedRoot := normalizeSeparators root in
String.eqb normalizedPath normalizedRoot
|| startsWith normalizedPath (normalizedRoot ++ "/").

End Finder.

Module FinderFacts.
Import Fs FsFacts Finder.

Lemma removelast_take (p : path) : removelast p = take (length p - 1) p.
Proof.
  induction p as [|a r IH]; [reflexivity|]. destruct r as [|b r']; [reflexivity|].
  change (removelast (a :: b :: r')) with (a :: removelast (b :: r')). rewrite IH.
  simpl. now rewrite Nat.sub_0_r.
Qed.

Lemma removelast_fixed (p : path) : removelast p = p -> p = [].
Proof.
  intros E. apply (f_equal (@length string)) in E.
  rewrite removelast_take, length_take in E. destruct p; [reflexivity | simpl in E; lia].
Qed.

(** X29: [findWorkspaceRoot] returns within one turn per segment of the
    start path and one more, and finds the nearest project root: the longest
    prefix of the start path that holds a [.cockpit] entry, with the three
    paths of the result derived from it; it returns [null] exactly when no
    prefix of the start path holds one. *)
Theorem findWorkspaceRoot_nearest {Data : Type} (fuel : nat) (fs : FS Data)
  (startPath : path) :
  (length startPath < fuel)%nat ->
  match findWorkspaceRoot fuel fs startPath with
  | None => False
  | Some (Some r) =>
    exists n, (n <= length startPath)%nat /\
      fr_root r = take n startPath /\
      existsSync fs (take n startPath ++ [".cockpit"]) = true /\
      (forall m, (n < m <= length startPath)%nat ->
                 existsSync fs (take m startPath ++ [".cockpit"]) = false) /\
      fr_configDir r = fr_root r ++ [".cockpit"] /\
      fr_workspacesFile r = fr_root r ++ [".cockpit"; "workspaces.ts"] /\
      fr_rootTaskFile r = fr_root r ++ ["cockpit.ts"]
  | Some None =>
    forall m, existsSync fs (take m startPath ++ [".cockpit"]) = false
  end.
Proof.
  revert startPath. induction fuel as [|fuel IH]; intros startPath Hfuel; [lia|].
  simpl. destruct (existsSync fs (startPath ++ [CONFIG_DIR])) eqn:Hex.
  - exists (length startPath). rewrite firstn_all. simpl.
    split; [lia|]. split; [reflexivity|]. split; [exact Hex|].
    split; [intros m Hm; lia|]. split; [reflexivity|].
    split; [now rewrite <- app_assoc | reflexivity].
  - destruct (path_eqb (removelast startPath) startPath) eqn:Hroot.
    + apply path_eqb_eq, removelast_fixed in Hroot. subst startPath.
      intros m. now rewrite take_nil.
    + assert (Hne : startPath <> []) by (intros ->; discriminate Hroot).
      assert (Hlen : length (removelast startPath) = (length startPath - 1)%nat).
      { rewrite removelast_take, length_take. lia. }
      assert (Hpos : (0 < length startPath)%nat) by (destruct startPath; [contradiction | simpl; lia]).
      assert (Htake : forall m, (m <= length startPath - 1)%nat ->
                                take m (removelast startPath) = take m startPath).
      { intros m Hm. rewrite removelast_take, take_take. f_equal. lia. }
      specialize (IH (removelast startPath)). rewrite Hlen in IH.
      assert (Hfuel' : (length startPath - 1 < fuel)%nat) by lia. specialize (IH Hfuel').
      destruct (findWorkspaceRoot fuel fs (removelast startPath)) as [[r|]|]; [| |exact IH].
      * destruct IH as (n & Hn & Hr & Hthere & Hnear & Hrest).
        exists n. rewrite (Htake n Hn) in Hr, Hthere.
        split; [lia|]. split; [exact Hr|]. split; [exact Hthere|]. split; [|exact Hrest].
        intros m Hm. destruct (decide (m = length startPath)) as [->|Hmne].
        -- now rewrite firstn_all.
        -- rewrite <- (Htake m) by lia. apply Hnear. lia.
      * intros m. destruct (decide (m <= length startPath - 1)%nat) as [Hm|Hm].
        -- rewrite <- (Htake m Hm). apply IH.
        -- rewrite take_ge by lia. exact Hex.
Qed.

(** A project below [/repo], searched from [/repo/packages/core]. *)
Definition project_fs : FS RefHost.data :=
mkdirSync ["repo"; "packages"; "core"] (mkdirSync ["repo"; ".cockpit"] Fs.empty).

Lemma findWorkspaceRoot_nearest_witness :
  findWorkspaceRoot 4 project_fs ["repo"; "packages"; "core"]
  = Some (Some (mkFindRootResult ["repo"] ["repo"; ".cockpit"]
                  ["repo"; ".cockpit"; "workspaces.ts"] ["repo"; "cockpit.ts"])) /\
  match findWorkspaceRoot 4 project_fs ["repo"; "packages"; "core"] with
  | None => False
  | Some (Some r) =>
    exists n, (n <= 3)%nat /\
      fr_root r = take n ["repo"; "packages"; "core"] /\
      existsSync project_fs (take n ["repo"; "packages"; "core"] ++ [".cockpit"]) = true /\
      (forall m, (n < m <= 3)%nat ->
         existsSync project_fs (take m ["repo"; "packages"; "core"] ++ [".cockpit"]) = false) /\
      fr_configDir r = fr_root r ++ [".cockpit"] /\
      fr_workspacesFile r = fr_root r ++ [".cockpit"; "workspaces.ts"] /\
      fr_rootTaskFile r = fr_root r ++ ["cockpit.ts"]
  | Some None =>
    forall m, existsSync project_fs (take m ["repo"; "packages"; "core"] ++ [".cockpit"]) = false
  end.
Proof.
  split; [reflexivity|].
  apply (findWorkspaceRoot_nearest 4 project_fs ["repo"; "packages"; "core"]). simpl. lia.
Defined.

(** *** [isInsideRoot] *)

Lemma startsWith_spec s prefix :
  startsWith s prefix = true <-> exists rest, s = (prefix ++ rest)%string.
Proof.
  revert s. induction prefix as [|c p IH]; intros s; simpl.
  - split; [intros _; now exists s | reflexivity].
  - destruct s as [|a s']; [split; [discriminate | intros (rest & E); discriminate E]|].
    rewrite andb_true_iff, Ascii.eqb_eq, IH. split.
    + intros [-> (rest & ->)]. now exists rest.
    + intros (rest & E). injection E as -> ->. split; [reflexivity | now exists rest].
Qed.

(** [path] is [root] or lies below it, on the normalised strings. *)
Definition inside (path root : string) : Prop :=
normalizeSeparators path = normalizeSeparators root \/
exists rest, normalizeSeparators path = (normalizeSeparators root ++ "/" ++ rest)%string.

Lemma isInsideRoot_spec path root : isInsideRoot path root = true <-> inside path root.
Proof.
  unfold isInsideRoot, inside. rewrite orb_true_iff, String.eqb_eq, startsWith_spec.
  split; (intros [E|(rest & E)]; [now left | right; exists rest]).
  - rewrite E. apply StoreCorrect.str_app_assoc.
  - rewrite E. symmetry. apply StoreCorrect.str_app_assoc.
Qed.

End FinderFacts.

(** ** src/core/workspace/detector.ts *)

Module Detector.
Import Finder.

Record ResolvedWorkspace := mkResolvedWorkspace {
  ws_id : string;
  ws_name : string;
  ws_path : string;
  ws_relativePath : string;
  ws_tags : list string;
  ws_dependsOn : list string
}.

(** The fields of the workspace context that the detector reads:
    [context.config.root.root], [context.workspaces] and
    [context.defaultWorkspace]. *)
Record WorkspaceContext := mkWorkspaceContext {
  rootPath : string;
  workspaces : list (string * ResolvedWorkspace);
  defaultWorkspace : option string
}.

Record DetectionResult := mkDetectionResult {
  workspace : option ResolvedWorkspace;
  isRoot : bool;
  detected : bool
}.

(** [detectWorkspace(context, cwd)] *)
Definition detectWorkspace (context : WorkspaceContext) (cwd : string) : DetectionResult :=
if String.eqb cwd (rootPath context) then mkDetectionResult None true true
else
  match List.find (fun workspace => isInsideRoot cwd (ws_path workspace))
                  (map snd (workspaces context)) with
  | Some workspace => mkDetectionResult (Some workspace) false true
  | None =>
    if isInsideRoot cwd (rootPath context) then mkDetectionResult None false false
    else mkDetectionResult None false false
  end.

(** [getEffectiveWorkspace(context, cwd, explicitWorkspace)]; the tests
    [if (explicitWorkspace)] and [if (context.defaultWorkspace)] are false
    for a missing value and for the empty string. *)
Definition getEffectiveWorkspace (context : WorkspaceContext) (cwd : string)
  (explicitWorkspace : option string) : option ResolvedWorkspace :=
let detect :=
  let detection := detectWorkspace context cwd in
  if isRoot detection then None
  else
    match workspace detection with
    | Some ws => Some ws
    | None =>
      match defaultWorkspace context with
      | Some d =>
        if negb (String.eqb d "") then JsMap.get (workspaces context) d else None
      | None => None
      end
    end in
match explicitWorkspace with
| Some e => if negb (String.eqb e "") then JsMap.get (workspaces context) e else detect
| None => detect
end.

End Detector.

Module DetectorFacts.
Import Finder FinderFacts Detector.

Lemma find_first {A} (f : A -> bool) (before : list A) (x : A) (after : list A) :
  f x = true -> (forall y, y ∈ before -> f y = false) ->
  List.find f (before ++ x :: after) = Some x.
Proof.
  intros Hx. induction before as [|y r IH]; intros Hb; simpl; [now rewrite Hx|].
  rewrite (Hb y) by left. apply IH. intros z Hz. apply Hb. now right.
Qed.

Lemma find_nowhere {A} (f : A -> bool) (l : list A) :
  (forall y, y ∈ l -> f y = false) -> List.find f l = None.
Proof.
  induction l as [|y r IH]; intros Hl; simpl; [reflexivity|].
  rewrite (Hl y) by left. apply IH. intros z Hz. apply Hl. now right.
Qed.

Lemma not_inside cwd ws : ~ inside cwd (ws_path ws) -> isInsideRoot cwd (ws_path ws) = false.
Proof.
  intros Hn. destruct (isInsideRoot cwd (ws_path ws)) eqn:E; [|reflexivity].
  apply isInsideRoot_spec in E. contradiction.
Qed.

(** X30: which workspace a command runs in.  A non-empty explicit id is
    looked up and nothing else counts, an unknown id giving [null].
    Otherwise: at the project root the answer is [null], even with a default
    workspace; elsewhere it is the first workspace, in the order of the map,
    whose path is the directory or a prefix of it ending at a [/] (not the
    innermost one); and when no workspace holds the directory it is the
    default workspace, if a non-empty one is set and known, else [null]. *)
Theorem getEffectiveWorkspace_spec (context : WorkspaceContext) (cwd : string)
  (explicitWorkspace : option string) :
  let result := getEffectiveWorkspace context cwd explicitWorkspace in
  (forall e, explicitWorkspace = Some e -> e <> "" ->
             result = JsMap.get (workspaces context) e) /\
  (explicitWorkspace = None \/ explicitWorkspace = Some "" ->
   (cwd = rootPath context -> result = None) /\
   (cwd <> rootPath context ->
    (forall before id ws after,
       workspaces context = before ++ (id, ws) :: after ->
       inside cwd (ws_path ws) ->
       (forall e, e ∈ before -> ~ inside cwd (ws_path e.2)) ->
       result = Some ws) /\
    ((forall e, e ∈ workspaces context -> ~ inside cwd (ws_path e.2)) ->
     result = match defaultWorkspace context with
              | Some d => if String.eqb d "" then None else JsMap.get (workspaces context) d
              | None => None
              end))).
Proof.
  intros result. subst result. split.
  - intros e -> He. unfold getEffectiveWorkspace.
    destruct (String.eqb_spec e ""); [contradiction | reflexivity].
  - intros Hexp.
    assert (Hdetect : getEffectiveWorkspace context cwd explicitWorkspace
                      = getEffectiveWorkspace context cwd None).
    { destruct Hexp as [-> | ->]; reflexivity. }
    rewrite Hdetect. unfold getEffectiveWorkspace, detectWorkspace. split.
    + intros ->. now rewrite String.eqb_refl.
    + intros Hne. destruct (String.eqb_spec cwd (rootPath context)); [contradiction|].
      split.
      * intros before id ws after Hws Hin Hbefore. rewrite Hws, map_app. simpl.
        rewrite (find_first (fun workspace => isInsideRoot cwd (ws_path workspace))
                   (map snd before) ws (map snd after)).
        -- reflexivity.
        -- now apply isInsideRoot_spec.
        -- intros y Hy. apply list_elem_of_fmap in Hy as (e & -> & He).
           apply not_inside. now apply Hbefore.
      * intros Hnone.
        rewrite (find_nowhere (fun workspace => isInsideRoot cwd (ws_path workspace))).
        -- destruct (isInsideRoot cwd (rootPath context)); simpl;
             destruct (defaultWorkspace context) as [d|]; try reflexivity;
             destruct (String.eqb d ""); reflexivity.
        -- intros y Hy. apply list_elem_of_fmap in Hy as (e & -> & He).
           apply not_inside. now apply Hnone.
Qed.

(** A workspace [packages] declared before the workspace [packages/core]
    that lies inside it: the outer one is chosen. *)
Definition nested : WorkspaceContext :=
mkWorkspaceContext "/repo"
  [("packages", mkResolvedWorkspace "packages" "packages" "/repo/packages" "packages" [] []);
   ("core", mkResolvedWorkspace "core" "core" "/repo/packages/core" "packages/core" [] [])]
  (Some "core").

Example nested_outer_workspace :
  option_map ws_id (getEffectiveWorkspace nested "/repo/packages/core/src" None)
  = Some "packages" /\
  getEffectiveWorkspace nested "/repo" None = None /\
  option_map ws_id (getEffectiveWorkspace nested "/repo/docs" None) = Some "core" /\
  getEffectiveWorkspace nested "/repo/packages-old" (Some "unknown") = None /\
  option_map ws_id (getEffectiveWorkspace nested "/repo/packages-old" None) = Some "core".
Proof. repeat split. Qed.

End DetectorFacts.
